(** * A shallow embedding of the CSV cleaner of [static/script.js]

    The development follows the script function by function: the line
    tokenizer [parseCSVLine], the table reader [parseCSV], the imputation
    engine [processData] and the CSV writer of [prepareDownload]; then the
    check of [handleFiles] on the files it is given, the name
    [prepareDownload] gives to the download, [escapeHTML], the texts of
    the tables of [displayPreview] and [displayResults], and the
    percentage of [analyzeMissingValues].  The rest of the DOM glue (drag
    and drop, progress indicator, timers) is left out.

    - JavaScript strings are embedded as [string]; the code units are the
      ones below 256, so the white space removed by [String.prototype.trim]
      is the set 9-13, 32 and 160.
    - Numbers are the binary64 floats of [PrimFloat]; [parseFloat],
      [toFixed] and the conversion to a string follow ECMA-262, and the
      order of the Numbers is read off the specification of their
      operations.
    - The objects the script uses as dictionaries are finite maps, read
      through the prototype chain as the runtime reads them.
    - [processData] is given twice: as a function of the dataset, and as a
      computation on a store of arrays and objects that it copies and then
      updates in place; the second is proved to compute the first. *)

From Stdlib Require Import ZArith Ascii String DecimalString DecimalPos Floats.
From stdpp Require Import base decidable option list strings gmap.

(** ** Characters and strings of the runtime *)

Definition newline : ascii := ascii_of_nat 10.
Definition comma : ascii := ascii_of_nat 44.
Definition dquote : ascii := ascii_of_nat 34.

(** The code units [trim] strips (WhiteSpace and LineTerminator). *)
Definition isWhiteSpace (c : ascii) : bool :=
  bool_decide (nat_of_ascii c ∈ [9; 10; 11; 12; 13; 32; 160]).

Fixpoint trimStart (s : string) : string :=
  match s with
  | String c s' => if isWhiteSpace c then trimStart s' else s
  | EmptyString => EmptyString
  end.

Fixpoint trimEnd (s : string) : string :=
  match s with
  | String c s' =>
      match trimEnd s' with
      | EmptyString => if isWhiteSpace c then EmptyString else String c EmptyString
      | t => String c t
      end
  | EmptyString => EmptyString
  end.

(** [s.trim()] *)
Definition trim (s : string) : string := trimEnd (trimStart s).

(** [s.includes(c)] for a one-character needle. *)
Fixpoint includes (c : ascii) (s : string) : bool :=
  match s with
  | String c' s' => if decide (c' = c) then true else includes c s'
  | EmptyString => false
  end.

(** [s.split(sep)] for a one-character separator: always at least one
    piece, an empty one after a final separator. *)
Fixpoint split (sep : ascii) (s : string) : list string :=
  match s with
  | EmptyString => [EmptyString]
  | String c s' =>
      if decide (c = sep) then EmptyString :: split sep s'
      else match split sep s' with
           | piece :: pieces => String c piece :: pieces
           | [] => [String c EmptyString]
           end
  end.

(** [fields.join(',')] *)
Fixpoint join (sep : ascii) (fields : list string) : string :=
  match fields with
  | [] => EmptyString
  | [f] => f
  | f :: rest => f +:+ String sep (join sep rest)
  end.

(** [xs.forEach((x, i) => body)] on the elements from index [i] on, the
    variables the callback assigns threaded as a state. *)
Fixpoint forEachFrom {A St : Type} (i : nat) (xs : list A) (body : A → nat → St → St)
    (s : St) : St :=
  match xs with
  | [] => s
  | x :: rest => forEachFrom (S i) rest body (body x i s)
  end.

(** ** Objects used as dictionaries

    [missingValues] and [frequency] are object literals, so a read of a
    key the object does not own falls through to [Object.prototype]. *)

Definition objectPrototypeKeys : list string :=
  [ "constructor"; "hasOwnProperty"; "isPrototypeOf"; "propertyIsEnumerable";
    "toLocaleString"; "toString"; "valueOf"; "__proto__";
    "__defineGetter__"; "__defineSetter__"; "__lookupGetter__"; "__lookupSetter__" ].

Definition inherited (key : string) : bool := bool_decide (key ∈ objectPrototypeKeys).

(** The numbers a statistics object holds: a count, or NaN. *)
Inductive count := CNaN | CNum (n : nat).

(** What a property read yields: nothing, an own value, or the function
    or object found on the prototype. *)
Inductive reading (V : Type) :=
  | RUndefined
  | ROwn (v : V)
  | RInherited.
Arguments RUndefined {V}.
Arguments ROwn {V} _.
Arguments RInherited {V}.

Definition getProp {V} (o : gmap string V) (key : string) : reading V :=
  match o !! key with
  | Some v => ROwn v
  | None => if inherited key then RInherited else RUndefined
  end.

(** [o[key] = v] for a primitive [v]: the setter of [__proto__] ignores it. *)
Definition setProp {V} (o : gmap string V) (key : string) (v : V) : gmap string V :=
  if decide (key = "__proto__") then o else <[key := v]> o.

(** [!v] *)
Definition falsy (v : reading count) : bool :=
  match v with
  | RUndefined | ROwn CNaN | ROwn (CNum 0) => true
  | ROwn (CNum (S _)) | RInherited => false
  end.

(** [ToNumber(v)] *)
Definition toNumber (v : reading count) : count :=
  match v with
  | ROwn c => c
  | RUndefined | RInherited => CNaN
  end.

Definition increment (c : count) : count :=
  match c with
  | CNaN => CNaN
  | CNum n => CNum (S n)
  end.

(** ** Data model *)

Record Stats := mkStats {
  totalRows : Z;
  missingValues : gmap string count
}.

Record Dataset (cell : Type) := mkDataset {
  headers : list string;
  rows : list (list cell);
  stats : Stats
}.
Arguments mkDataset {cell} _ _ _.
Arguments headers {cell} _.
Arguments rows {cell} _.
Arguments stats {cell} _.

(** ** [parseCSVLine] *)

Fixpoint parseCSVLine_loop (line : string) (result : list string)
    (inQuotes : bool) (currentField : string) : list string :=
  match line with
  | String char rest =>
      if bool_decide (char = dquote) then
        parseCSVLine_loop rest result (negb inQuotes) currentField
      else if bool_decide (char = comma) && negb inQuotes then
        parseCSVLine_loop rest (result ++ [trim currentField]) inQuotes EmptyString
      else
        parseCSVLine_loop rest result inQuotes (currentField +:+ String char EmptyString)
  | EmptyString => result ++ [trim currentField]
  end.

Definition parseCSVLine (line : string) : list string :=
  parseCSVLine_loop line [] false EmptyString.

(** ** [parseCSV] *)

(** [headers[idx]] used as a property key: out of range it is
    [undefined], whose key is the string [undefined]. *)
Definition headerKey (headers : list string) (idx : nat) : string :=
  match headers !! idx with
  | Some h => h
  | None => "undefined"
  end.

(** The body of the [if (val === '')] of the statistics pass. *)
Definition recordMissing (missingValues : gmap string count) (key : string)
    : gmap string count :=
  let missingValues :=
    if falsy (getProp missingValues key) then setProp missingValues key (CNum 0)
    else missingValues in
  setProp missingValues key (increment (toNumber (getProp missingValues key))).

(** [values.forEach((val, idx) => { if (val === '') ... })] *)
Definition trackMissing (headers : list string) (values : list string)
    (missingValues : gmap string count) : gmap string count :=
  forEachFrom 0 values
    (λ val idx missingValues,
       if bool_decide (val = EmptyString)
       then recordMissing missingValues (headerKey headers idx)
       else missingValues)
    missingValues.

(** The [for] loop over [lines[1..]]. *)
Fixpoint parseRows (headers : list string) (lines : list string)
    (rows : list (list string)) (missingValues : gmap string count)
    : list (list string) * gmap string count :=
  match lines with
  | [] => (rows, missingValues)
  | line :: rest =>
      let values := parseCSVLine line in
      parseRows headers rest (rows ++ [values]) (trackMissing headers values missingValues)
  end.

Definition nonBlankLines (content : string) : list string :=
  filter (λ line, trim line ≠ EmptyString) (split newline content).

(** [None] stands for the TypeError raised by [lines[0].length] when no
    line is left. *)
Definition parseCSV (content : string) : option (Dataset string) :=
  match nonBlankLines content with
  | [] => None
  | line0 :: rest =>
      let headers := parseCSVLine line0 in
      let '(rows, missingValues) := parseRows headers rest [] ∅ in
      Some (mkDataset headers rows
              (mkStats (Z.of_nat (length (line0 :: rest)) - 1) missingValues))
  end.

(** [missingStats[header] || 0] of [analyzeMissingValues]: the count
    shown for a column, [None] when the read yields an inherited function
    or object instead of a number. *)
Definition missingCount (missingStats : gmap string count) (header : string) : option nat :=
  match getProp missingStats header with
  | RUndefined | ROwn CNaN => Some 0
  | ROwn (CNum n) => Some n
  | RInherited => None
  end.

(** ** Numbers of the runtime

    [parseFloat], [Number.prototype.toFixed] and the conversion of a Number
    to a string, after ECMA-262.  A decimal literal denotes the Number
    nearest to its exact value (ties to even). *)

Definition zeroOf (neg : bool) : float := if neg then neg_zero else zero.

(** The Number nearest to [n/d], with sign [neg]. *)
Definition nearestNumber (neg : bool) (n d : Z) : float :=
  match n, d with
  | Zpos n, Zpos d =>
      SF2Prim (SFdiv prec emax (S754_finite neg n 0) (S754_finite false d 0))
  | _, _ => zeroOf neg
  end.

(** The Number nearest to [m * 10^e]. *)
Definition decimalValue (neg : bool) (m e : Z) : float :=
  if (0 <=? e)%Z then nearestNumber neg (m * 10 ^ e) 1
  else nearestNumber neg m (10 ^ (- e)).

Definition digitValue (c : ascii) : option Z :=
  let n := Z.of_nat (nat_of_ascii c) in
  if (48 <=? n)%Z && (n <=? 57)%Z then Some (n - 48)%Z else None.

(** The longest run of decimal digits at the head of [s]: the value of
    [acc] followed by them, their number, and the rest of [s]. *)
Fixpoint readDigits (s : string) (acc : Z) (len : nat) : Z * nat * string :=
  match s with
  | String c rest =>
      match digitValue c with
      | Some d => readDigits rest (10 * acc + d)%Z (S len)
      | None => (acc, len, s)
      end
  | EmptyString => (acc, len, s)
  end.

Definition readSign (s : string) : bool * string :=
  match s with
  | String c rest =>
      if bool_decide (c = "-"%char) then (true, rest)
      else if bool_decide (c = "+"%char) then (false, rest)
      else (false, s)
  | EmptyString => (false, s)
  end.

(** [ExponentPart], or nothing when no digit follows the [e]. *)
Definition readExponent (s : string) : Z :=
  match s with
  | String c rest =>
      if bool_decide (c = "e"%char) || bool_decide (c = "E"%char) then
        let '(neg, unsigned) := readSign rest in
        let '(e, len, _) := readDigits unsigned 0 0 in
        if Nat.eqb len 0 then 0%Z else if neg then (- e)%Z else e
      else 0%Z
  | EmptyString => 0%Z
  end.

(** [parseFloat(input)]: the longest prefix of the trimmed input that is a
    [StrDecimalLiteral], NaN when there is none. *)
Definition parseFloat (input : string) : float :=
  let '(neg, s) := readSign (trimStart input) in
  if String.prefix "Infinity" s then (if neg then neg_infinity else infinity)
  else
    let '(ip, ilen, s1) := readDigits s 0 0 in
    let '(m, flen, s2) :=
      match s1 with
      | String c rest =>
          if bool_decide (c = "."%char) then readDigits rest ip 0 else (ip, 0, s1)
      | EmptyString => (ip, 0, s1)
      end in
    if Nat.eqb (ilen + flen) 0 then nan
    else decimalValue neg m (readExponent s2 - Z.of_nat flen).

(** The decimal digits of a natural number. *)
Definition digits (n : Z) : string := NilZero.string_of_uint (N.to_uint (Z.to_N n)).

Fixpoint zeros (n : nat) : string :=
  match n with
  | O => EmptyString
  | S n => String "0" (zeros n)
  end.

(** The first [n] characters of [s], and the others. *)
Fixpoint splitAt (n : nat) (s : string) : string * string :=
  match n, s with
  | S n, String c rest => let '(a, b) := splitAt n rest in (String c a, b)
  | _, _ => (EmptyString, s)
  end.

(** The exact value [p/q] of a positive finite Number. *)
Definition exactValue (m : positive) (e : Z) : Z * Z :=
  if (0 <=? e)%Z then (Zpos m * 2 ^ e, 1)%Z else (Zpos m, 2 ^ (- e))%Z.

(** [p/q < 10^n] *)
Definition belowPow10 (p q n : Z) : bool :=
  if (0 <=? n)%Z then (p <? 10 ^ n * q)%Z else (p * 10 ^ (- n) <? q)%Z.

Fixpoint firstPow10Above (fuel : nat) (p q n : Z) : Z :=
  match fuel with
  | O => n
  | S fuel => if belowPow10 p q n then n else firstPow10Above fuel p q (n + 1)
  end.

(** The [n] with [10^(n-1) <= p/q < 10^n]. *)
Definition decimalExponent (p q : Z) : Z :=
  firstPow10Above 8 p q ((Z.log2 p - Z.log2 q) * 30103 / 100000 - 2).

(** The shortest digit string [s] (of length [k], tried from [k] up) such
    that [s * 10^(n-k)] denotes [x]; of two candidates the one nearer to
    the exact value, the even one on a tie. *)
Fixpoint shortestDigits (fuel : nat) (x : float) (p q n k : Z) : string * Z :=
  match fuel with
  | O => (digits 0, n)
  | S fuel =>
      let '(num, den) :=
        if (0 <=? n - k)%Z then (p, q * 10 ^ (n - k))%Z else (p * 10 ^ (k - n), q)%Z in
      let lo := (num / den)%Z in
      let hi := (lo + 1)%Z in
      let okLo := PrimFloat.eqb (decimalValue false lo (n - k)) x in
      let okHi := PrimFloat.eqb (decimalValue false hi (n - k)) x in
      let preferLo :=
        match (2 * (num mod den) ?= den)%Z with
        | Lt => true
        | Eq => Z.even lo
        | Gt => false
        end in
      let pick (s : Z) := if (s =? 10 ^ k)%Z then (digits 1, (n + 1)%Z) else (digits s, n) in
      if okLo && (preferLo || negb okHi) then pick lo
      else if okHi then pick hi
      else shortestDigits fuel x p q n (k + 1)
  end.

(** [Number::toString(x)] in radix 10. *)
Definition numberToString (x : float) : string :=
  match Prim2SF x with
  | S754_nan => "NaN"
  | S754_zero _ => "0"
  | S754_infinity neg => if neg then "-Infinity" else "Infinity"
  | S754_finite neg m e =>
      let '(p, q) := exactValue m e in
      let '(s, n) := shortestDigits 17 (PrimFloat.abs x) p q (decimalExponent p q) 1 in
      let k := Z.of_nat (String.length s) in
      let body :=
        if (k <=? n)%Z && (n <=? 21)%Z then s +:+ zeros (Z.to_nat (n - k))
        else if (0 <? n)%Z && (n <=? 21)%Z then
          let '(a, b) := splitAt (Z.to_nat n) s in a +:+ "." +:+ b
        else if (-6 <? n)%Z && (n <=? 0)%Z then "0." +:+ zeros (Z.to_nat (- n)) +:+ s
        else
          let exponent :=
            (if (0 <=? n - 1)%Z then "e+" else "e-") +:+ digits (Z.abs (n - 1)) in
          let '(a, b) := splitAt 1 s in
          if (k =? 1)%Z then s +:+ exponent else a +:+ "." +:+ b +:+ exponent in
      if neg then "-" +:+ body else body
  end.

(** [x.toFixed(f)] *)
Definition toFixed (x : float) (f : nat) : string :=
  match Prim2SF x with
  | S754_nan | S754_infinity _ => numberToString x
  | S754_zero _ => if Nat.eqb f 0 then "0" else "0." +:+ zeros f
  | S754_finite neg m e =>
      let sign := if neg then "-" else EmptyString in
      let '(p, q) := exactValue m e in
      if (10 ^ 21 * q <=? p)%Z then sign +:+ numberToString (PrimFloat.abs x)
      else
        let n := ((2 * p * 10 ^ Z.of_nat f + q) / (2 * q))%Z in
        let m := if (n =? 0)%Z then "0" else digits n in
        let m :=
          if Nat.eqb f 0 then m
          else
            let k := String.length m in
            let m := if (k <=? f)%nat then zeros (f + 1 - k) +:+ m else m in
            let '(a, b) := splitAt (String.length m - f) m in
            a +:+ "." +:+ b in
        sign +:+ m
  end.

(** ** Values of the cleaned table *)

Inductive value :=
  | VUndefined
  | VString (s : string)
  | VNumber (x : float).

(** [row[colIndex]] *)
Definition cellAt (row : list value) (colIndex : nat) : value :=
  default VUndefined (row !! colIndex).

(** [val === ''] *)
Definition isEmptyString (val : value) : bool :=
  match val with
  | VString s => bool_decide (s = EmptyString)
  | _ => false
  end.

(** [typeof val === 'number'] *)
Definition isNumber (val : value) : bool :=
  match val with
  | VNumber _ => true
  | _ => false
  end.

(** [val !== undefined] *)
Definition isDefined (val : value) : bool :=
  match val with
  | VUndefined => false
  | _ => true
  end.

(** [ToString(val)], as [parseFloat] and a property key apply it. *)
Definition toString (val : value) : string :=
  match val with
  | VUndefined => "undefined"
  | VString s => s
  | VNumber x => numberToString x
  end.

(** The Number a value of a numeric column holds. *)
Definition numberOf (val : value) : float :=
  match val with
  | VNumber x => x
  | _ => nan
  end.

(** The Number [n] for a length [n]. *)
Definition ofNat (n : nat) : float := of_uint63 (Uint63.of_Z (Z.of_nat n)).

(** ** [processData]: the fill value of a column *)

(** [values.map(val => { const num = parseFloat(val); return isNaN(num) ? val : num; })] *)
Definition numericValues (values : list value) : list value :=
  map (λ val, let num := parseFloat (toString val) in
              if is_nan num then val else VNumber num) values.

(** [numericValues.every(val => typeof val === 'number')] *)
Definition isNumeric (numericValues : list value) : bool :=
  forallb isNumber numericValues.

(** [numericValues.reduce((a, b) => a + b, 0) / numericValues.length] *)
Definition mean (numbers : list float) : float :=
  PrimFloat.div (fold_left PrimFloat.add numbers zero) (ofNat (length numbers)).

(** [sort((a, b) => a - b)]: the sort is stable, [x] goes behind the
    elements it does not precede. *)
Fixpoint insertSorted (x : float) (sorted : list float) : list float :=
  match sorted with
  | [] => [x]
  | y :: rest =>
      if PrimFloat.ltb (PrimFloat.sub x y) zero then x :: sorted
      else y :: insertSorted x rest
  end.

Definition sortNumbers (numbers : list float) : list float :=
  fold_left (λ sorted x, insertSorted x sorted) numbers [].

Definition median (numbers : list float) : float :=
  let sorted := sortNumbers numbers in
  let mid := length sorted / 2 in
  if negb (Nat.eqb (length sorted mod 2) 0) then nth mid sorted nan
  else PrimFloat.div (PrimFloat.add (nth (mid - 1) sorted nan) (nth mid sorted nan)) two.

(** What [frequency] holds for a key: a count, or the text that adding 1
    to an inherited function or object gives. *)
Inductive frequencyEntry :=
  | FCount (n : nat)
  | FText.

(** [(frequency[val] || 0) + 1] *)
Definition nextFrequency (r : reading frequencyEntry) : frequencyEntry :=
  match r with
  | RUndefined => FCount 1
  | ROwn (FCount n) => FCount (n + 1)
  | ROwn FText | RInherited => FText
  end.

(** The body of the [forEach] of the mode computation; a text is not a
    number greater than [max]. *)
Definition modeStep (val : value) (state : gmap string frequencyEntry * nat * value)
    : gmap string frequencyEntry * nat * value :=
  let '(frequency, max, mode) := state in
  let key := toString val in
  let frequency := setProp frequency key (nextFrequency (getProp frequency key)) in
  match getProp frequency key with
  | ROwn (FCount n) =>
      if (max <? n)%nat then (frequency, n, val) else (frequency, max, mode)
  | _ => (frequency, max, mode)
  end.

Definition modeOf (values : list value) : value :=
  let '(_, _, mode) :=
    fold_left (λ state val, modeStep val state) values (∅, 0, cellAt values 0) in
  mode.

(** The branch [if (isNumeric)]: the value assigned to
    [fillValues[colIndex]], [None] when the method assigns none. *)
Definition numericFill (method : string) (numericValues : list value) : option value :=
  if bool_decide (method = "mean") then
    Some (VNumber (mean (map numberOf numericValues)))
  else if bool_decide (method = "median") then
    Some (VNumber (median (map numberOf numericValues)))
  else if bool_decide (method = "mode") || bool_decide (method = "knn") then
    Some (modeOf numericValues)
  else None.

(** The [else] branch, for non-numeric columns. *)
Definition textFill (method : string) (values : list value) : option value :=
  if bool_decide (method = "mode") || bool_decide (method = "knn") then
    Some (modeOf values)
  else None.

(** The body of the [forEach] over the headers, for the collected
    [values] of a column. *)
Definition columnFill (method : string) (values : list value) : option value :=
  if Nat.eqb (length values) 0 then Some (VString EmptyString)
  else
    let numericValues := numericValues values in
    if isNumeric numericValues then numericFill method numericValues
    else textFill method values.

(** [result.rows.map(row => row[colIndex]).filter(val => val !== '')] *)
Definition columnValues (rows : list (list value)) (colIndex : nat) : list value :=
  filter (λ val, isEmptyString val = false) (map (λ row, cellAt row colIndex) rows).

(** The [forEach] that fills [fillValues], an object keyed by column index. *)
Definition computeFillValues (method : string) (headers : list string)
    (rows : list (list value)) : gmap nat value :=
  forEachFrom 0 headers
    (λ _ colIndex fillValues,
       match columnFill method (columnValues rows colIndex) with
       | Some fill => <[colIndex := fill]> fillValues
       | None => fillValues
       end)
    ∅.

(** ** [processData]: applying the fill values *)

(** [fillValues[colIndex]] *)
Definition fillAt (fillValues : gmap nat value) (colIndex : nat) : value :=
  default VUndefined (fillValues !! colIndex).

(** [parseFloat(x.toFixed(4))] *)
Definition roundFill (x : float) : float := parseFloat (toFixed x 4).

Definition fillCell (fillValues : gmap nat value) (colIndex : nat) (row : list value)
    : list value :=
  if isEmptyString (cellAt row colIndex) && isDefined (fillAt fillValues colIndex) then
    let row := <[colIndex := fillAt fillValues colIndex]> row in
    match fillAt fillValues colIndex with
    | VNumber x => <[colIndex := VNumber (roundFill x)]> row
    | _ => row
    end
  else row.

Definition fillRow (headers : list string) (fillValues : gmap nat value)
    (row : list value) : list value :=
  forEachFrom 0 headers (λ _ colIndex row, fillCell fillValues colIndex row) row.

(** [!row.some(cell => cell === '')] *)
Definition complete (row : list value) : bool :=
  negb (existsb isEmptyString row).

(** ** [processData]

    The global [dataset] is the first argument. *)
Definition processData (dataset : Dataset string) (method : string) (knnNeighbors : Z)
    : Dataset value :=
  let result :=
    mkDataset (headers dataset) (map (map VString) (rows dataset))
      (mkStats (totalRows (stats dataset)) (missingValues (stats dataset))) in
  if bool_decide (method = "drop") then
    let kept := filter (λ row, complete row = true) (rows result) in
    mkDataset (headers result) kept
      (mkStats (Z.of_nat (length kept)) (missingValues (stats result)))
  else
    let fillValues := computeFillValues method (headers result) (rows result) in
    mkDataset (headers result)
      (map (fillRow (headers result) fillValues) (rows result))
      (mkStats (totalRows (stats result)) ∅).

(** ** [prepareDownload]: the CSV text *)

(** [field.replace] with the global pattern of one double quote: every
    double quote is doubled. *)
Fixpoint doubleQuotes (s : string) : string :=
  match s with
  | String c rest =>
      if bool_decide (c = dquote) then String dquote (String dquote (doubleQuotes rest))
      else String c (doubleQuotes rest)
  | EmptyString => EmptyString
  end.

(** The callback of [row.map]: a string with a comma or a line break is
    quoted, anything else is returned as it is. *)
Definition quoteField (field : value) : value :=
  match field with
  | VString s =>
      if includes comma s || includes newline s
      then VString (String dquote (doubleQuotes s) +:+ String dquote EmptyString)
      else field
  | _ => field
  end.

(** The text of an element in [Array.prototype.join]: [undefined] gives
    the empty string. *)
Definition joinText (field : value) : string :=
  match field with
  | VUndefined => EmptyString
  | _ => toString field
  end.

Definition csvContent (cleanedDataset : Dataset value) : string :=
  fold_left
    (λ csvContent row,
       csvContent +:+ join comma (map (λ field, joinText (quoteField field)) row)
                  +:+ String newline EmptyString)
    (rows cleanedDataset)
    (join comma (headers cleanedDataset) +:+ String newline EmptyString).

(** The copy [processData] starts from: the rows of [dataset] as values. *)
Definition asValues (dataset : Dataset string) : Dataset value :=
  mkDataset (headers dataset) (map (map VString) (rows dataset)) (stats dataset).

(** Parsing a text and writing the table back. *)
Definition parseThenSerialize (content : string) : option string :=
  match parseCSV content with
  | Some dataset => Some (csvContent (asValues dataset))
  | None => None
  end.

(** ** [prepareDownload]: the name of the download *)

(** [\w] *)
Definition isWordChar (c : ascii) : bool :=
  let n := nat_of_ascii c in
  (48 <=? n) && (n <=? 57) || (65 <=? n) && (n <=? 90) || (n =? 95)
  || (97 <=? n) && (n <=? 122).

Fixpoint allWordChars (s : string) : bool :=
  match s with
  | String c rest => isWordChar c && allWordChars rest
  | EmptyString => true
  end.

(** The group [(\.\w+)] followed by [$] matches the whole of [s]. *)
Definition extensionAtEnd (s : string) : bool :=
  match s with
  | String dot (String c rest) =>
      bool_decide (dot = "."%char) && isWordChar c && allWordChars rest
  | _ => false
  end.

(** [currentFile.name.replace(/(\.\w+)?$/, '_cleaned.csv')]: the first
    match is at the leftmost index from which an extension reaches the end
    of the name, and the empty match at the end when there is none. *)
Fixpoint downloadName (name : string) : string :=
  if extensionAtEnd name then "_cleaned.csv"
  else
    match name with
    | String c rest => String c (downloadName rest)
    | EmptyString => "_cleaned.csv"
    end.

(** ** [handleFiles] *)

(** The canonical form of a character under the flag [i]: its upper
    case.  A character outside ASCII never has an ASCII letter as its
    canonical form. *)
Definition canonicalize (c : ascii) : ascii :=
  let n := nat_of_ascii c in
  if (97 <=? n) && (n <=? 122) then ascii_of_nat (n - 32) else c.

(** The pattern [\.(csv|txt)$] matches the whole of [s]. *)
Definition extensionMatch (s : string) : bool :=
  match s with
  | String dot (String a (String b (String c EmptyString))) =>
      bool_decide (dot = "."%char)
      && (bool_decide (map canonicalize [a; b; c] = ["C"; "S"; "V"]%char)
          || bool_decide (map canonicalize [a; b; c] = ["T"; "X"; "T"]%char))
  | _ => false
  end.

(** [name.match(/\.(csv|txt)$/i)] is not null: the pattern matches from
    some index on. *)
Fixpoint acceptedName (name : string) : bool :=
  extensionMatch name
  || match name with
     | String _ rest => acceptedName rest
     | EmptyString => false
     end.

(** What [handleFiles] does after its checks: one of the two alerts, the
    TypeError of [files[0].name] on an empty list, or the read of the file. *)
Inductive handled :=
  | AlertOneFile
  | AlertNotCSV
  | TypeErrorNoFile
  | ReadAsText (file : string).

(** [handleFiles(files)], a file given by its name: the new value of the
    global [currentFile] ([None] for undefined), and what happens next. *)
Definition handleFiles (files : list string) (currentFile : option string)
    : option string * handled :=
  if (1 <? length files)%nat then (currentFile, AlertOneFile)
  else
    match files !! 0 with
    | Some file => (Some file, if acceptedName file then ReadAsText file else AlertNotCSV)
    | None => (None, TypeErrorNoFile)
    end.

(** ** [escapeHTML] *)

(** [s.replace(/c/g, replacement)] for a pattern of one character and a
    replacement without dollar sign. *)
Fixpoint replaceAll (c : ascii) (replacement : string) (s : string) : string :=
  match s with
  | String a rest =>
      if bool_decide (a = c) then replacement +:+ replaceAll c replacement rest
      else String a (replaceAll c replacement rest)
  | EmptyString => EmptyString
  end.

Definition apostrophe : ascii := ascii_of_nat 39.

Definition escapeHTML (str : string) : string :=
  replaceAll apostrophe "&#039;"
    (replaceAll dquote "&quot;"
       (replaceAll ">" "&gt;"
          (replaceAll "<" "&lt;"
             (replaceAll "&" "&amp;" str)))).

(** ** [displayPreview] and [displayResults] *)

(** [headers.forEach(header => { tableHTML += ... })] *)
Definition headerCells (headers : list string) (tableHTML : string) : string :=
  fold_left
    (λ tableHTML header, tableHTML +:+ "<th>" +:+ escapeHTML header +:+ "</th>")
    headers tableHTML.

(** The markup of a missing value, and the attribute of its cell. *)
Definition missingSpan : string :=
  "<span class=" +:+ String dquote ("missing" +:+ String dquote ">NaN</span>").

Definition missingClass : string :=
  " class=" +:+ String dquote ("missing-cell" +:+ String dquote EmptyString).

(** The body of [row.forEach((cell, colIndex) => { ... })] in
    [displayPreview]. *)
Definition previewCell (tableHTML : string) (cell : string) : string :=
  let isMissing := bool_decide (cell = EmptyString) in
  let displayValue := if isMissing then missingSpan else escapeHTML cell in
  tableHTML +:+ "<td" +:+ (if isMissing then missingClass else EmptyString) +:+ ">"
            +:+ displayValue +:+ "</td>".

(** The text [displayPreview] assigns to [previewTable.innerHTML]. *)
Definition displayPreview (dataset : Dataset string) : string :=
  let displayRows := take 5 (rows dataset) in
  let tableHTML :=
    headerCells (headers dataset) "<table><thead><tr>" +:+ "</tr></thead><tbody>" in
  let tableHTML :=
    fold_left
      (λ tableHTML row, fold_left previewCell row (tableHTML +:+ "<tr>") +:+ "</tr>")
      displayRows tableHTML in
  tableHTML +:+ "</tbody></table>".

(** [cell.toString()]: a TypeError ([None]) on undefined. *)
Definition cellText (cell : value) : option string :=
  match cell with
  | VUndefined => None
  | _ => Some (toString cell)
  end.

(** [row.forEach(cell => { tableHTML += ... })] in [displayResults]. *)
Fixpoint resultCells (row : list value) (tableHTML : string) : option string :=
  match row with
  | [] => Some tableHTML
  | cell :: rest =>
      match cellText cell with
      | Some text => resultCells rest (tableHTML +:+ "<td>" +:+ escapeHTML text +:+ "</td>")
      | None => None
      end
  end.

(** [displayRows.forEach(row => { ... })] in [displayResults]. *)
Fixpoint resultRows (displayRows : list (list value)) (tableHTML : string) : option string :=
  match displayRows with
  | [] => Some tableHTML
  | row :: rest =>
      match resultCells row (tableHTML +:+ "<tr>") with
      | Some tableHTML => resultRows rest (tableHTML +:+ "</tr>")
      | None => None
      end
  end.

(** The text [displayResults] assigns to [resultTable.innerHTML]. *)
Definition displayResults (cleanedDataset : Dataset value) : option string :=
  let displayRows := take 10 (rows cleanedDataset) in
  let tableHTML :=
    headerCells (headers cleanedDataset) "<table><thead><tr>" +:+ "</tr></thead><tbody>" in
  match resultRows displayRows tableHTML with
  | Some tableHTML => Some (tableHTML +:+ "</tbody></table>")
  | None => None
  end.

(** ** [analyzeMissingValues]: the percentage shown for a column *)

(** The Number [z] for an integer [z]. *)
Definition ofInteger (z : Z) : float :=
  if (z <? 0)%Z then PrimFloat.opp (ofNat (Z.to_nat (- z))) else ofNat (Z.to_nat z).

(** [((missingCount / totalRows) * 100).toFixed(1)]; a count that is a
    function or an object ([None]) converts to NaN. *)
Definition percentage (missingCount : option nat) (totalRows : Z) : string :=
  let count := match missingCount with Some n => ofNat n | None => nan end in
  toFixed (PrimFloat.mul (PrimFloat.div count (ofInteger totalRows)) 100) 1.

(** ** [processData] on the heap

    The script keeps [dataset] in a global variable and builds [result]
    from copies of its arrays and objects, which it then updates in place.
    Here the arrays and objects live in a store, and a computation threads
    the store; [None] stands for a TypeError on a missing object. *)

Abbreviation loc := positive.

Inductive object :=
  | OHeaders (names : list string)
  | ORow (cells : list value)
  | ORows (elems : list loc)
  | OCounts (props : gmap string count)
  | OStats (total : Z) (counts : loc)
  | ODataset (headersAt rowsAt statsAt : loc).

Abbreviation heap := (gmap loc object).

Definition M (A : Type) : Type := heap → option (A * heap).

Definition ret {A} (a : A) : M A := λ h, Some (a, h).

Definition bind {A B} (c : M A) (k : A → M B) : M B :=
  λ h, match c h with
       | Some (a, h') => k a h'
       | None => None
       end.

Definition throw {A} : M A := λ _, None.

Declare Scope heap_scope.
Delimit Scope heap_scope with heap.
Notation "'let*' x := c 'in' k" := (bind c (λ x, k))
  (at level 10, x binder, c at level 100, k at level 200) : heap_scope.
Notation "'let*' ' pat := c 'in' k" := (bind c (λ x, match x with pat => k end))
  (at level 10, pat pattern, c at level 100, k at level 200) : heap_scope.
Local Open Scope heap_scope.

(** A new array or object. *)
Definition alloc (o : object) : M loc :=
  λ h, let l := fresh (dom h) in Some (l, <[l := o]> h).

Definition load (l : loc) : M object :=
  λ h, match h !! l with
       | Some o => Some (o, h)
       | None => None
       end.

(** An update in place of the array or object at [l]. *)
Definition store (l : loc) (o : object) : M unit :=
  λ h, match h !! l with
       | Some _ => Some (tt, <[l := o]> h)
       | None => None
       end.

Definition loadDataset (l : loc) : M (loc * loc * loc) :=
  let* o := load l in match o with ODataset hs rs st => ret (hs, rs, st) | _ => throw end.

Definition loadHeaders (l : loc) : M (list string) :=
  let* o := load l in match o with OHeaders names => ret names | _ => throw end.

Definition loadRows (l : loc) : M (list loc) :=
  let* o := load l in match o with ORows elems => ret elems | _ => throw end.

Definition loadRow (l : loc) : M (list value) :=
  let* o := load l in match o with ORow cells => ret cells | _ => throw end.

Definition loadStats (l : loc) : M (Z * loc) :=
  let* o := load l in match o with OStats total counts => ret (total, counts) | _ => throw end.

Definition loadCounts (l : loc) : M (gmap string count) :=
  let* o := load l in match o with OCounts props => ret props | _ => throw end.

(** [xs.map(f)] *)
Fixpoint mapM {A B} (f : A → M B) (xs : list A) : M (list B) :=
  match xs with
  | [] => ret []
  | x :: rest => let* y := f x in let* ys := mapM f rest in ret (y :: ys)
  end.

(** [xs.filter(f)] *)
Fixpoint filterM {A} (f : A → M bool) (xs : list A) : M (list A) :=
  match xs with
  | [] => ret []
  | x :: rest =>
      let* keep := f x in let* kept := filterM f rest in ret (if keep then x :: kept else kept)
  end.

(** [xs.forEach((x, i) => body)] from index [i] on. *)
Fixpoint forEachFromM {A} (i : nat) (xs : list A) (body : A → nat → M unit) : M unit :=
  match xs with
  | [] => ret tt
  | x :: rest => let* _ := body x i in forEachFromM (S i) rest body
  end.

(** [[...row]] *)
Definition copyRow (row : loc) : M loc :=
  let* cells := loadRow row in alloc (ORow cells).

(** The body of the inner [forEach] of the apply loop: the two
    assignments to [row[colIndex]] update the array of the row. *)
Definition fillCellAt (fillValues : gmap nat value) (row : loc) (colIndex : nat) : M unit :=
  let* cells := loadRow row in
  if isEmptyString (cellAt cells colIndex) && isDefined (fillAt fillValues colIndex) then
    let* _ := store row (ORow (<[colIndex := fillAt fillValues colIndex]> cells)) in
    match fillAt fillValues colIndex with
    | VNumber x =>
        let* cells := loadRow row in
        store row (ORow (<[colIndex := VNumber (roundFill x)]> cells))
    | _ => ret tt
    end
  else ret tt.

Definition fillRowAt (headers : list string) (fillValues : gmap nat value) (row : loc)
    : M unit :=
  forEachFromM 0 headers (λ _ colIndex, fillCellAt fillValues row colIndex).

(** [processData] with the global [dataset] at [dataset]: the location of
    [result]. *)
Definition processDataAt (dataset : loc) (method : string) (knnNeighbors : Z) : M loc :=
  let* '(headersAt, rowsAt, statsAt) := loadDataset dataset in
  let* names := loadHeaders headersAt in
  let* rowLocs := loadRows rowsAt in
  let* '(total, countsAt) := loadStats statsAt in
  let* counts := loadCounts countsAt in
  let* headers' := alloc (OHeaders names) in
  let* rows' := mapM copyRow rowLocs in
  let* rowsArray := alloc (ORows rows') in
  let* counts' := alloc (OCounts counts) in
  let* stats' := alloc (OStats total counts') in
  let* result := alloc (ODataset headers' rowsArray stats') in
  if bool_decide (method = "drop") then
    let* kept := filterM (λ row, let* cells := loadRow row in ret (complete cells)) rows' in
    let* keptArray := alloc (ORows kept) in
    let* _ := store result (ODataset headers' keptArray stats') in
    let* _ := store stats' (OStats (Z.of_nat (length kept)) counts') in
    ret result
  else
    let* table := mapM loadRow rows' in
    let fillValues := computeFillValues method names table in
    let* _ := forEachFromM 0 rows' (λ row _, fillRowAt names fillValues row) in
    let* empty := alloc (OCounts ∅) in
    let* _ := store stats' (OStats total empty) in
    ret result.

(** The rows an array of row locations denotes. *)
Fixpoint viewRows (h : heap) (rowLocs : list loc) : option (list (list value)) :=
  match rowLocs with
  | [] => Some []
  | l :: rest =>
      match h !! l, viewRows h rest with
      | Some (ORow cells), Some table => Some (cells :: table)
      | _, _ => None
      end
  end.

(** The dataset an object denotes. *)
Definition view (h : heap) (dataset : loc) : option (Dataset value) :=
  match h !! dataset with
  | Some (ODataset headersAt rowsAt statsAt) =>
      match h !! headersAt, h !! rowsAt, h !! statsAt with
      | Some (OHeaders names), Some (ORows rowLocs), Some (OStats total countsAt) =>
          match viewRows h rowLocs, h !! countsAt with
          | Some table, Some (OCounts props) =>
              Some (mkDataset names table (mkStats total props))
          | _, _ => None
          end
      | _, _, _ => None
      end
  | _ => None
  end.

(** A computation started in [h] returns, with a result and a final
    store that satisfy [Q]. *)
Definition wp {A} (c : M A) (h : heap) (Q : A → heap → Prop) : Prop :=
  ∃ a h', c h = Some (a, h') ∧ Q a h'.

(** ** Quantities the statements speak of *)

(** The empty fields of a row that the statistics pass files under [key]. *)
Definition emptyUnder (headers : list string) (key : string) (values : list string) : nat :=
  forEachFrom 0 values
    (λ val idx n,
       if bool_decide (val = EmptyString) && bool_decide (headerKey headers idx = key)
       then S n else n)
    0.

Definition emptyFieldsNamed (headers : list string) (key : string)
    (rows : list (list string)) : nat :=
  sum_list (map (emptyUnder headers key) rows).

(** The rows whose field at [colIndex] is the empty string. *)
Definition emptyInColumn (rows : list (list string)) (colIndex : nat) : nat :=
  length (filter (λ row, row !! colIndex = Some EmptyString) rows).

(** Occurrences of the key [key] among [values]. *)
Definition occurrences (key : string) (values : list value) : nat :=
  length (filter (λ val, toString val = key) values).

(** A field as the claim on re-serialization describes it. *)
Definition plainField (f : string) : Prop :=
  includes comma f = false ∧ includes newline f = false ∧ includes dquote f = false
  ∧ trim f = f.

(** The fields of a text: the pieces between commas of its lines. *)
Definition rawFields (content : string) : list string :=
  concat (map (split comma) (split newline content)).

(** What the apply loop leaves in a cell that held [val] in column
    [colIndex]. *)
Definition filledCell (fillValues : gmap nat value) (colIndex : nat) (val : value) : value :=
  if isEmptyString val && isDefined (fillAt fillValues colIndex) then
    match fillAt fillValues colIndex with
    | VNumber x => VNumber (roundFill x)
    | fill => fill
    end
  else val.

(** The Numbers parsed from the collected values of a column. *)
Definition parsedNumbers (values : list value) : list float :=
  map (λ val, parseFloat (toString val)) values.

(** The lines of a text, each closed by a line break. *)
Fixpoint unlines (lines : list string) : string :=
  match lines with
  | [] => EmptyString
  | line :: rest => line +:+ String newline (unlines rest)
  end.

(** A row as [parseCSVLine] returns it for a line without quotes: plain
    fields, at least one, and a text that is not blank. *)
Definition canonicalRow (fields : list string) : Prop :=
  fields ≠ [] ∧ Forall plainField fields ∧ trim (join comma fields) ≠ EmptyString.

(** The entry of [key] in the statistics after [n] empty fields were filed
    under it. *)
Definition tally (key : string) (missingValues : gmap string count) (n : nat) : Prop :=
  missingValues !! key = match n with O => None | S _ => Some (CNum n) end.

(** The callback that counts what [trackMissing] files under [key]. *)
Definition countBody (headers : list string) (key : string) (val : string) (idx n : nat)
    : nat :=
  if bool_decide (val = EmptyString) && bool_decide (headerKey headers idx = key)
  then S n else n.

(** The characters a Number written as a string can start with. *)
Definition numberHead (c : ascii) : bool :=
  bool_decide (c ∈ String.list_ascii_of_string "0123456789-NI").

(** The state of the mode loop after the values [seen]: every key holds
    its number of occurrences, [max] bounds them all, and [mode] is the
    value whose count reached [max] first. *)
Definition modeInvariant (seen : list value)
    (state : gmap string frequencyEntry * nat * value) : Prop :=
  let '(frequency, max, mode) := state in
  (∀ key, frequency !! key
          = match occurrences key seen with
            | O => None
            | S n => Some (FCount (S n))
            end)
  ∧ (∀ key, occurrences key seen ≤ max)
  ∧ ((seen = [] ∧ max = 0)
     ∨ ∃ before after, seen = before ++ mode :: after
         ∧ occurrences (toString mode) (before ++ [mode]) = max
         ∧ ∀ key, occurrences key before < max).

(** A carriage return. *)
Definition carriageReturn : ascii := ascii_of_nat 13.

(** Whether a text starts with a line break. *)
Definition atLineBreak (s : string) : bool :=
  match s with
  | String c _ => bool_decide (c = newline)
  | EmptyString => false
  end.

(** The text with every carriage return that precedes a line break
    removed: the line ends of Windows turned into those of Unix. *)
Fixpoint unixLines (content : string) : string :=
  match content with
  | String c rest =>
      if bool_decide (c = carriageReturn) && atLineBreak rest then unixLines rest
      else String c (unixLines rest)
  | EmptyString => EmptyString
  end.

(** A line of the text with Unix line ends, and the line it comes from. *)
Definition sameLine (a b : string) : Prop :=
  a = b ∨ b = a +:+ String carriageReturn EmptyString.

(** A field that [prepareDownload] writes and [parseCSVLine] reads back
    as it is: a comma is allowed; a double quote, a line break and
    surrounding white space are not. *)
Definition writableField (f : string) : Prop :=
  includes dquote f = false ∧ includes newline f = false ∧ trim f = f.

(** A row of such fields whose text is not a blank line. *)
Definition writableRow (fields : list string) : Prop :=
  fields ≠ [] ∧ fields ≠ [EmptyString] ∧ Forall writableField fields.

(** The entry of a key found on Object.prototype after [n] empty fields
    were filed under it: the first increment stores NaN, the second
    starts from 0. *)
Definition tallyInherited (key : string) (missingValues : gmap string count) (n : nat)
    : Prop :=
  missingValues !! key
  = match n with
    | O => None
    | S O => Some CNaN
    | S (S m) => Some (CNum (S m))
    end.

(** The lower case of an ASCII letter, and of a text. *)
Definition asciiLower (c : ascii) : ascii :=
  let n := nat_of_ascii c in
  if (65 <=? n) && (n <=? 90) then ascii_of_nat (n + 32) else c.

Fixpoint lowerCase (s : string) : string :=
  match s with
  | String c rest => String (asciiLower c) (lowerCase rest)
  | EmptyString => EmptyString
  end.

(** What [escapeHTML] writes for a character. *)
Definition entity (c : ascii) : string :=
  if bool_decide (c = "&"%char) then "&amp;"
  else if bool_decide (c = "<"%char) then "&lt;"
  else if bool_decide (c = ">"%char) then "&gt;"
  else if bool_decide (c = dquote) then "&quot;"
  else if bool_decide (c = apostrophe) then "&#039;"
  else String c EmptyString.

(** The tags of a text: what stands between each [<] and the next [>]. *)
Fixpoint tagsFrom (s : string) (tag : option string) : list string :=
  match s with
  | EmptyString => []
  | String c rest =>
      match tag with
      | None =>
          if bool_decide (c = "<"%char) then tagsFrom rest (Some EmptyString)
          else tagsFrom rest None
      | Some t =>
          if bool_decide (c = ">"%char) then t :: tagsFrom rest None
          else tagsFrom rest (Some (t +:+ String c EmptyString))
      end
  end.

Definition tags (s : string) : list string := tagsFrom s None.

(** A piece of text that holds the tags [found] and after which the
    scanner is outside a tag again. *)
Definition closed (piece : string) (found : list string) : Prop :=
  ∀ rest, tagsFrom (piece +:+ rest) None = found ++ tagsFrom rest None.

(** The tags of a row of [k] cells in the table of results. *)
Definition rowTags (k : nat) : list string :=
  ["tr"] ++ concat (replicate k ["td"; "/td"]) ++ ["/tr"].

(** The tags of the table of results: [n] columns, and rows with the
    given numbers of cells. *)
Definition tableTags (n : nat) (cells : list nat) : list string :=
  ["table"; "thead"; "tr"] ++ concat (replicate n ["th"; "/th"])
  ++ ["/tr"; "/thead"; "tbody"]
  ++ concat (map rowTags cells)
  ++ ["/tbody"; "/table"].

(** The tags of a cell of the preview: a missing value is marked. *)
Definition previewCellTags (cell : string) : list string :=
  if bool_decide (cell = EmptyString)
  then [ "td class=" +:+ String dquote ("missing-cell" +:+ String dquote EmptyString);
         "span class=" +:+ String dquote ("missing" +:+ String dquote EmptyString);
         "/span"; "/td" ]
  else ["td"; "/td"].

Definition previewRowTags (row : list string) : list string :=
  ["tr"] ++ concat (map previewCellTags row) ++ ["/tr"].

(** The tags of the preview: [n] columns and the rows shown. *)
Definition previewTags (n : nat) (displayRows : list (list string)) : list string :=
  ["table"; "thead"; "tr"] ++ concat (replicate n ["th"; "/th"])
  ++ ["/tr"; "/thead"; "tbody"]
  ++ concat (map previewRowTags displayRows)
  ++ ["/tbody"; "/table"].

(** A name that ends with a dot followed by csv or txt, in any mix of
    upper and lower case. *)
Definition textFileName (file : string) : Prop :=
  ∃ stem ext, file = stem +:+ String "." ext
    ∧ (lowerCase ext = "csv" ∨ lowerCase ext = "txt").

(** Whether a text holds decimal digits only. *)
Fixpoint allDigits (s : string) : bool :=
  match s with
  | String c rest => bool_decide (is_Some (digitValue c)) && allDigits rest
  | EmptyString => true
  end.

(** The natural number that the decimal digits of [s] denote after the
    digits of [acc]. *)
Fixpoint decimal (s : string) (acc : Z) : Z :=
  match s with
  | String c rest => decimal rest (10 * acc + default 0 (digitValue c))%Z
  | EmptyString => acc
  end.

(** Whether the magnitude of [x] is below 10^21; from there on [toFixed]
    writes as [toString] does. *)
Definition below1e21 (x : float) : Prop :=
  match Prim2SF x with
  | S754_finite _ m e => let '(p, q) := exactValue m e in (p < 10 ^ 21 * q)%Z
  | _ => True
  end.

(** [y] is [x] rounded to [f] decimals: for a finite [x] of magnitude
    [p/q], the Number nearest to the decimal [n / 10^f] with the sign of
    [x], where [n / 10^f] is as near to [p/q] as can be and [n] is the
    larger one of two that are as near; zero for a zero; [x] itself for
    an infinity or NaN. *)
Definition roundedTo (f : nat) (x y : float) : Prop :=
  match Prim2SF x with
  | S754_finite neg m e =>
      let '(p, q) := exactValue m e in
      ∃ n : Z, (- q ≤ 2 * (10 ^ Z.of_nat f * p - n * q) < q)%Z
               ∧ y = decimalValue neg n (- Z.of_nat f)
  | S754_zero _ => y = zero
  | S754_infinity _ | S754_nan => y = x
  end.

(** The sum of Numbers: zero for none, and the sum of those before the
    last one plus the last one. *)
Inductive addsUpTo : list float → float → Prop :=
  | addsUpTo_none : addsUpTo [] zero
  | addsUpTo_more numbers sum x :
      addsUpTo numbers sum → addsUpTo (numbers ++ [x]) (PrimFloat.add sum x).

(** A bound above the magnitude of every finite Number, in units of
    2^-1074. *)
Definition beyond : Z := (2 ^ 2100)%Z.

(** The place of a Number on the number line: a finite Number by its
    exact value in units of 2^-1074, the infinities beyond all of them.
    NaN has no place; it is given 0. *)
Definition position (x : spec_float) : Z :=
  match x with
  | S754_zero _ | S754_nan => 0
  | S754_infinity s => cond_Zopp s beyond
  | S754_finite s m e => cond_Zopp s (Zpos m * 2 ^ (e + 1074))
  end.

(** The place of a Number of the runtime. *)
Definition place (x : float) : Z := position (Prim2SF x).

(** Numbers in ascending order: none is greater than a later one. *)
Fixpoint ascending (numbers : list float) : Prop :=
  match numbers with
  | [] => True
  | x :: rest => Forall (λ y, PrimFloat.leb x y = true) rest ∧ ascending rest
  end.

(** The middle of a list of Numbers: the middle element, or the half of
    the sum of the two middle elements when their number is even. *)
Definition middleOf (sorted : list float) : float :=
  let n := length sorted in
  if Nat.odd n then nth (n / 2) sorted nan
  else PrimFloat.div (PrimFloat.add (nth (n / 2 - 1) sorted nan) (nth (n / 2) sorted nan)) 2.

(** ** Inputs of the examples *)

(** The text [a,b / 1, / 2,3]: one row lacks its second field. *)
Definition staleInput : string :=
  "a,b" +:+ String newline ("1," +:+ String newline ("2,3" +:+ String newline EmptyString)).

(** A header line [a,a] and one row of two empty fields. *)
Definition duplicateHeaders : string :=
  "a,a" +:+ String newline ("," +:+ String newline EmptyString).

(** A table whose second column holds [constructor] twice, [a] once and
    one empty field. *)
Definition inheritedKeyInput : string :=
  "id,word" +:+ String newline ("1,constructor" +:+ String newline
    ("2,constructor" +:+ String newline ("3,a" +:+ String newline
      ("4," +:+ String newline EmptyString)))).

(** A store holding the table [name,age / Ann,30 / Bob,] as object 1. *)
Definition sampleHeap : heap :=
  <[1%positive := ODataset 2 3 4]>
    (<[2%positive := OHeaders ["name"; "age"]]>
       (<[3%positive := ORows [6; 7]%positive]>
          (<[4%positive := OStats 2 5]>
             (<[5%positive := OCounts (<["age" := CNum 1]> ∅)]>
                (<[6%positive := ORow [VString "Ann"; VString "30"]]>
                   (<[7%positive := ORow [VString "Bob"; VString ""]]> ∅)))))).

Definition sampleDataset : Dataset string :=
  mkDataset ["name"; "age"] [["Ann"; "30"]; ["Bob"; ""]]
    (mkStats 2 (<["age" := CNum 1]> ∅)).

(** The table of the end-to-end example: [name,age / Ann,30 / Bob, / ,25]. *)
Definition exampleInput : string :=
  "name,age" +:+ String newline ("Ann,30" +:+ String newline
    ("Bob," +:+ String newline (",25" +:+ String newline EmptyString))).

(** * Properties *)

(** ** The runtime on known values *)

Lemma parseFloat_examples :
  parseFloat "27.5" = 27.5%float
  ∧ parseFloat " 12abc" = 12%float
  ∧ parseFloat "5.e3" = 5000%float
  ∧ parseFloat "-Infinityx" = neg_infinity
  ∧ is_nan (parseFloat "abc") = true
  ∧ is_nan (parseFloat ".") = true
  ∧ is_nan (parseFloat "undefined") = true.
Proof. repeat split; vm_compute; reflexivity. Qed.

Lemma numberToString_examples :
  numberToString 27.5 = "27.5"
  ∧ numberToString (parseFloat "0.1") = "0.1"
  ∧ numberToString (PrimFloat.add (parseFloat "0.1") (parseFloat "0.2")) = "0.30000000000000004"
  ∧ numberToString (parseFloat "1e21") = "1e+21"
  ∧ numberToString (parseFloat "123456789012345680000") = "123456789012345680000"
  ∧ numberToString (parseFloat "0.000001") = "0.000001"
  ∧ numberToString (parseFloat "1e-7") = "1e-7"
  ∧ numberToString (-1.5) = "-1.5"
  ∧ numberToString neg_zero = "0".
Proof. repeat split; vm_compute; reflexivity. Qed.

Lemma toFixed_examples :
  toFixed 27.5 4 = "27.5000"
  ∧ toFixed (PrimFloat.div 2 3) 4 = "0.6667"
  ∧ toFixed (parseFloat "1.00005") 4 = "1.0001"
  ∧ toFixed (parseFloat "-0.00001") 4 = "-0.0000"
  ∧ toFixed 2.5 0 = "3"
  ∧ toFixed (parseFloat "1e21") 4 = "1e+21"
  ∧ roundFill (PrimFloat.div 1 3) = parseFloat "0.3333".
Proof. repeat split; vm_compute; reflexivity. Qed.

(** ** Dropping incomplete rows *)

Lemma complete_strings (row : list string) :
  complete (map VString row) = true ↔ EmptyString ∉ row.
Proof.
  unfold complete. induction row as [|s row IH]; simpl.
  - split; [intros _; apply not_elem_of_nil | done].
  - rewrite not_elem_of_cons, <- IH. destruct (existsb _ _); simpl.
    + rewrite orb_true_r. simpl. split; [done | by intros [_ ?]].
    + rewrite orb_false_r. case_bool_decide as Hs; simpl.
      * split; [done | intros [Hne _]; by destruct Hne].
      * split; [intros _; split; [by intros <- | done] | done].
Qed.

Lemma filter_complete_strings (table : list (list string)) :
  filter (λ row, complete row = true) (map (map VString) table)
  = map (map VString) (filter (λ row, EmptyString ∉ row) table).
Proof.
  induction table as [|row table IH]; [done|]. simpl.
  rewrite !filter_cons. destruct (decide (complete _ = true)) as [Hc|Hc];
    rewrite complete_strings in Hc; destruct (decide (EmptyString ∉ row)); try done;
    simpl; by rewrite IH.
Qed.

(** C7. With the strategy drop the cleaned rows are the input rows without
    an empty field, in their order; totalRows is their number; there are
    no more of them than input rows and none holds an empty field. *)
Theorem drop_keeps_complete_rows (dataset : Dataset string) (knnNeighbors : Z) :
  let cleaned := processData dataset "drop" knnNeighbors in
  rows cleaned = map (map VString) (filter (λ row, EmptyString ∉ row) (rows dataset))
  ∧ totalRows (stats cleaned) = Z.of_nat (length (rows cleaned))
  ∧ length (rows cleaned) ≤ length (rows dataset)
  ∧ ∀ row, row ∈ rows cleaned → VString EmptyString ∉ row.
Proof.
  unfold processData. simpl. rewrite filter_complete_strings.
  repeat split.
  - rewrite length_map. apply length_filter.
  - intros row Hrow Hin.
    apply list_elem_of_fmap in Hrow as (srow & -> & Hs).
    apply list_elem_of_filter in Hs as [Hs _]. apply Hs.
    apply list_elem_of_fmap in Hin as (s & Heq & Hin). by injection Heq as <-.
Qed.

(** The early return of the drop branch leaves the copied counts in place. *)
Lemma drop_keeps_missingValues (dataset : Dataset string) (knnNeighbors : Z) :
  missingValues (stats (processData dataset "drop" knnNeighbors))
  = missingValues (stats dataset).
Proof. reflexivity. Qed.

(** C1. After drop only the complete row is left, yet the cleaned dataset
    still reports one missing value for column b. *)
Theorem drop_reports_stale_count :
  ∃ dataset, parseCSV staleInput = Some dataset
    ∧ rows (processData dataset "drop" 5) = [[VString "2"; VString "3"]]
    ∧ missingCount (missingValues (stats (processData dataset "drop" 5))) "b" = Some 1.
Proof. eexists. split; [reflexivity|]. split; vm_compute; reflexivity. Qed.

(** The two branches of the fill computation test [mode] and [knn]
    together. *)
Lemma columnFill_knn (values : list value) :
  columnFill "knn" values = columnFill "mode" values.
Proof. unfold columnFill, numericFill, textFill. reflexivity. Qed.

Lemma computeFillValues_knn (headers : list string) (table : list (list value)) :
  computeFillValues "knn" headers table = computeFillValues "mode" headers table.
Proof.
  unfold computeFillValues. generalize (∅ : gmap nat value). generalize 0.
  induction headers as [|h headers IH]; intros i fillValues; simpl; [done|].
  by rewrite columnFill_knn, IH.
Qed.

(** C5. The strategy knn yields the dataset of the strategy mode, whatever
    the neighbour counts. *)
Theorem knn_is_mode (dataset : Dataset string) (k k' : Z) :
  processData dataset "knn" k = processData dataset "mode" k'.
Proof.
  unfold processData.
  change (bool_decide ("knn" = "drop")) with false.
  change (bool_decide ("mode" = "drop")) with false.
  cbv iota. by rewrite computeFillValues_knn.
Qed.

(** ** Numeric and text columns *)

Lemma cellAt_strings (row : list string) (colIndex : nat) :
  isNumber (cellAt (map VString row) colIndex) = false.
Proof.
  unfold cellAt. rewrite list_lookup_fmap. by destruct (row !! colIndex).
Qed.

Lemma columnValues_strings (table : list (list string)) (colIndex : nat) (val : value) :
  val ∈ columnValues (map (map VString) table) colIndex → isNumber val = false.
Proof.
  unfold columnValues. rewrite list_elem_of_filter, list_elem_of_fmap.
  intros [_ (row & -> & Hrow)]. apply list_elem_of_fmap in Hrow as (srow & -> & _).
  apply cellAt_strings.
Qed.

Lemma isNumeric_numericValues (values : list value) :
  (∀ val, val ∈ values → isNumber val = false) →
  isNumeric (numericValues values) = true
  ↔ ∀ val, val ∈ values → is_nan (parseFloat (toString val)) = false.
Proof.
  unfold isNumeric, numericValues. induction values as [|v values IH]; intros Hstr.
  - split; [intros _ val Hin; by apply elem_of_nil in Hin | done].
  - simpl. rewrite andb_true_iff, IH by (intros; apply Hstr; by right).
    assert (isNumber v = false) as Hv by (apply Hstr; by left).
    split.
    + intros [Hhd Htl] val Hin. apply elem_of_cons in Hin as [->|Hin]; [|by apply Htl].
      destruct (is_nan (parseFloat (toString v))); [congruence | done].
    + intros Hall. split; [|intros; apply Hall; by right].
      by rewrite (Hall v) by (by left).
Qed.

(** On a numeric column the Numbers used are the parsed ones. *)
Lemma numberOf_numericValues (values : list value) :
  isNumeric (numericValues values) = true →
  (∀ val, val ∈ values → isNumber val = false) →
  map numberOf (numericValues values) = parsedNumbers values.
Proof.
  unfold isNumeric, numericValues, parsedNumbers.
  induction values as [|v values IH]; [done|]. simpl.
  intros [Hhd Htl]%andb_true_iff Hstr. rewrite IH by (auto; intros; apply Hstr; by right).
  f_equal. destruct (is_nan (parseFloat (toString v))); [|done].
  rewrite (Hstr v) in Hhd by (by left). done.
Qed.

Lemma columnFill_nonempty (method : string) (values : list value) :
  values ≠ [] →
  columnFill method values
  = if isNumeric (numericValues values)
    then numericFill method (numericValues values) else textFill method values.
Proof. intros Hne. unfold columnFill. by destruct values. Qed.



(** A numeric prefix is enough for [parseFloat]: the column [12abc, 7] is
    numeric, the column [12, abc] is not. *)
Lemma numeric_column_examples :
  isNumeric (numericValues [VString "12abc"; VString "7"]) = true
  ∧ isNumeric (numericValues [VString "12"; VString "abc"]) = false.
Proof. split; vm_compute; reflexivity. Qed.

(** ** The apply loop *)

Lemma fillCell_length fillValues colIndex row :
  length (fillCell fillValues colIndex row) = length row.
Proof.
  unfold fillCell. destruct (_ && _); [|done].
  destruct (fillAt fillValues colIndex); by rewrite ?length_insert.
Qed.

Lemma fillCell_lookup_ne fillValues colIndex j (row : list value) :
  colIndex ≠ j → fillCell fillValues colIndex row !! j = row !! j.
Proof.
  intros Hne. unfold fillCell. destruct (_ && _); [|done].
  destruct (fillAt fillValues colIndex); by rewrite ?list_lookup_insert_ne.
Qed.

Lemma fillCell_lookup_eq fillValues colIndex (row : list value) :
  fillCell fillValues colIndex row !! colIndex
  = filledCell fillValues colIndex <$> row !! colIndex.
Proof.
  unfold fillCell, filledCell, cellAt.
  destruct (row !! colIndex) as [val|] eqn:Hrow; simpl; [|by rewrite Hrow].
  apply lookup_lt_Some in Hrow as Hlt.
  destruct (_ && _); [|by rewrite Hrow].
  destruct (fillAt fillValues colIndex);
    by rewrite list_lookup_insert_eq by (by rewrite ?length_insert).
Qed.

Lemma fillRow_from_lookup fillValues (headers : list string) :
  ∀ i (row : list value) j,
    forEachFrom i headers (λ _ colIndex row, fillCell fillValues colIndex row) row !! j
    = if decide (i ≤ j < i + length headers)
      then filledCell fillValues j <$> row !! j else row !! j.
Proof.
  induction headers as [|h headers IH]; intros i row j; simpl.
  - case_decide; [lia | done].
  - rewrite IH. destruct (decide (i = j)) as [->|Hne].
    + rewrite fillCell_lookup_eq. repeat case_decide; (done || lia).
    + rewrite fillCell_lookup_ne by done. repeat case_decide; (done || lia).
Qed.

Lemma fillRow_lookup headers fillValues (row : list value) j :
  fillRow headers fillValues row !! j
  = if decide (j < length headers)
    then filledCell fillValues j <$> row !! j else row !! j.
Proof.
  unfold fillRow. rewrite fillRow_from_lookup. repeat case_decide; (done || lia).
Qed.

Lemma fillRow_length headers fillValues (row : list value) :
  length (fillRow headers fillValues row) = length row.
Proof.
  unfold fillRow. generalize 0. revert row.
  induction headers as [|h headers IH]; intros row i; simpl; [done|].
  by rewrite IH, fillCell_length.
Qed.

Lemma filledCell_nonempty fillValues colIndex (s : string) :
  s ≠ EmptyString → filledCell fillValues colIndex (VString s) = VString s.
Proof. intros Hs. unfold filledCell. simpl. by rewrite bool_decide_eq_false_2. Qed.

Lemma computeFillValues_from method (table : list (list value)) (headers : list string) :
  ∀ i (fillValues : gmap nat value) j,
    forEachFrom i headers
      (λ _ colIndex fillValues,
         match columnFill method (columnValues table colIndex) with
         | Some fill => <[colIndex := fill]> fillValues
         | None => fillValues
         end) fillValues !! j
    = if decide (i ≤ j < i + length headers)
      then match columnFill method (columnValues table j) with
           | Some fill => Some fill
           | None => fillValues !! j
           end
      else fillValues !! j.
Proof.
  induction headers as [|h headers IH]; intros i fillValues j; simpl.
  - case_decide; [lia | done].
  - rewrite IH. destruct (decide (i = j)) as [->|Hne].
    + rewrite decide_False by lia. rewrite decide_True by lia.
      destruct (columnFill _ _); [by rewrite lookup_insert_eq | done].
    + destruct (columnFill method (columnValues table i)).
      * rewrite lookup_insert_ne by done. repeat case_decide; (done || lia).
      * repeat case_decide; (done || lia).
Qed.

Lemma computeFillValues_lookup method headers (table : list (list value)) j :
  computeFillValues method headers table !! j
  = if decide (j < length headers) then columnFill method (columnValues table j) else None.
Proof.
  unfold computeFillValues. rewrite computeFillValues_from, lookup_empty.
  repeat case_decide; try lia; try done. by destruct (columnFill _ _).
Qed.

(** What [processData] returns for a method other than drop. *)
Lemma processData_fill (dataset : Dataset string) (method : string) (knnNeighbors : Z) :
  method ≠ "drop" →
  processData dataset method knnNeighbors
  = mkDataset (headers dataset)
      (map (fillRow (headers dataset)
              (computeFillValues method (headers dataset) (rows (asValues dataset))))
         (rows (asValues dataset)))
      (mkStats (totalRows (stats dataset)) ∅).
Proof. intros Hne. unfold processData. by rewrite bool_decide_eq_false_2. Qed.

(** C10. The strategies mean, median, mode and knn keep the headers, the
    number and order of the rows, the length of each row and every field
    that was not the empty string. *)
Theorem fill_preserves_filled_fields (dataset : Dataset string) (method : string)
    (knnNeighbors : Z) :
  method ∈ ["mean"; "median"; "mode"; "knn"] →
  let cleaned := processData dataset method knnNeighbors in
  headers cleaned = headers dataset
  ∧ length (rows cleaned) = length (rows dataset)
  ∧ ∀ i row, rows dataset !! i = Some row →
      ∃ row', rows cleaned !! i = Some row'
        ∧ length row' = length row
        ∧ ∀ j s, row !! j = Some s → s ≠ EmptyString → row' !! j = Some (VString s).
Proof.
  intros Hmethod cleaned. subst cleaned.
  rewrite processData_fill.
  2:{ intros ->. repeat (apply elem_of_cons in Hmethod as [Hmethod|Hmethod]; [done|]).
      by apply elem_of_nil in Hmethod. }
  simpl. split; [done|]. split; [by rewrite !length_map|].
  intros i row Hrow. eexists. split.
  { rewrite !list_lookup_fmap, Hrow. reflexivity. }
  split; [by rewrite fillRow_length, length_map|].
  intros j s Hj Hs. rewrite fillRow_lookup, list_lookup_fmap, Hj. simpl.
  case_decide; [|done]. by rewrite filledCell_nonempty.
Qed.

Lemma fill_preserves_filled_fields_witness :
  let dataset := mkDataset ["name"; "age"] [["Ann"; "30"]; ["Bob"; ""]] (mkStats 2 ∅) in
  let cleaned := processData dataset "median" 5 in
  headers cleaned = headers dataset
  ∧ length (rows cleaned) = length (rows dataset)
  ∧ ∀ i row, rows dataset !! i = Some row →
      ∃ row', rows cleaned !! i = Some row'
        ∧ length row' = length row
        ∧ ∀ j s, row !! j = Some s → s ≠ EmptyString → row' !! j = Some (VString s).
Proof.
  apply (fill_preserves_filled_fields
           (mkDataset ["name"; "age"] [["Ann"; "30"]; ["Bob"; ""]] (mkStats 2 ∅))
           "median" 5).
  apply list_elem_of_further, list_elem_of_here.
Defined.

(** ** The rounding of a fill value *)

(** *** Texts of decimal digits *)

(** [readDigits] reads a text of digits to its end. *)
Lemma readDigits_allDigits (s rest : string) :
  allDigits s = true →
  ∀ acc len, readDigits (s +:+ rest) acc len
             = readDigits rest (decimal s acc) (len + String.length s).
Proof.
  induction s as [|c s IH]; intros Hs acc len; simpl.
  - by rewrite Nat.add_0_r.
  - simpl in Hs. apply andb_true_iff in Hs as [Hc Hs].
    apply bool_decide_eq_true in Hc as [d Hd]. rewrite Hd. simpl.
    rewrite IH by done. f_equal. lia.
Qed.

Lemma readDigits_digits_only (s : string) :
  allDigits s = true →
  ∀ acc len, readDigits s acc len = (decimal s acc, len + String.length s, EmptyString).
Proof.
  induction s as [|c s IH]; intros Hs acc len; simpl.
  - by rewrite Nat.add_0_r.
  - simpl in Hs. apply andb_true_iff in Hs as [Hc Hs].
    apply bool_decide_eq_true in Hc as [d Hd]. rewrite Hd. simpl.
    rewrite IH by done. do 2 f_equal. lia.
Qed.

Lemma allDigits_app (s t : string) :
  allDigits (s +:+ t) = allDigits s && allDigits t.
Proof. induction s as [|c s IH]; simpl; [done|]. by rewrite IH, andb_assoc. Qed.

Lemma decimal_app (s t : string) (acc : Z) :
  decimal (s +:+ t) acc = decimal t (decimal s acc).
Proof. revert acc. induction s as [|c s IH]; intros acc; simpl; [done|]. by rewrite IH. Qed.

Lemma decimal_acc (s : string) (acc : Z) :
  decimal s acc = (acc * 10 ^ Z.of_nat (String.length s) + decimal s 0)%Z.
Proof.
  revert acc. induction s as [|c s IH]; intros acc.
  - simpl. lia.
  - cbn [decimal String.length]. rewrite IH, (IH (10 * 0 + _)%Z).
    rewrite Nat2Z.inj_succ, Z.pow_succ_r by lia. lia.
Qed.

Lemma splitAt_app (n : nat) (s a b : string) :
  splitAt n s = (a, b) → s = a +:+ b ∧ String.length a = n `min` String.length s.
Proof.
  revert s a b. induction n as [|n IH]; intros s a b.
  - simpl. intros [= <- <-]. done.
  - destruct s as [|c s]; simpl; [by intros [= <- <-]|].
    destruct (splitAt n s) as [a' b'] eqn:Hsplit. intros [= <- <-].
    destruct (IH _ _ _ Hsplit) as [-> Hlen]. simpl. by rewrite Hlen.
Qed.

Lemma length_append (s t : string) :
  String.length (s +:+ t) = String.length s + String.length t.
Proof. induction s as [|c s IH]; simpl; [done|]. by rewrite IH. Qed.

Lemma zeros_digits (n : nat) :
  allDigits (zeros n) = true ∧ String.length (zeros n) = n ∧ decimal (zeros n) 0 = 0%Z.
Proof.
  induction n as [|n (IH1 & IH2 & IH3)]; simpl; [done|].
  by rewrite IH1, IH2.
Qed.

(** The number that the digits of [d] denote after those of [acc]. *)
Lemma of_uint_acc_value (d : Decimal.uint) :
  ∀ acc, Zpos (Pos.of_uint_acc d acc)
         = (Zpos acc * 10 ^ Z.of_nat (Decimal.nb_digits d) + Z.of_N (Pos.of_uint d))%Z.
Proof.
  induction d as [|d IH|d IH|d IH|d IH|d IH|d IH|d IH|d IH|d IH|d IH]; intros acc;
    cbn [Pos.of_uint_acc Pos.of_uint Decimal.nb_digits];
    rewrite ?Nat2Z.inj_succ, ?Z.pow_succ_r by lia;
    [lia | rewrite IH; lia | rewrite IH; cbn [Z.of_N]..].
  - rewrite (IH 1%positive). lia.
  - rewrite (IH 2%positive). lia.
  - rewrite (IH 3%positive). lia.
  - rewrite (IH 4%positive). lia.
  - rewrite (IH 5%positive). lia.
  - rewrite (IH 6%positive). lia.
  - rewrite (IH 7%positive). lia.
  - rewrite (IH 8%positive). lia.
  - rewrite (IH 9%positive). lia.
Qed.

Lemma string_of_uint_digits (d : Decimal.uint) :
  allDigits (NilEmpty.string_of_uint d) = true
  ∧ String.length (NilEmpty.string_of_uint d) = Decimal.nb_digits d
  ∧ decimal (NilEmpty.string_of_uint d) 0 = Z.of_N (Pos.of_uint d).
Proof.
  induction d as [|d IH|d IH|d IH|d IH|d IH|d IH|d IH|d IH|d IH|d IH];
    [done|destruct IH as (IH1 & IH2 & IH3)..];
    cbn [NilEmpty.string_of_uint allDigits String.length Decimal.nb_digits decimal];
    rewrite IH1, IH2; (split; [done|]); (split; [done|]);
    rewrite decimal_acc, IH2, IH3; cbn [Pos.of_uint Z.of_N];
    rewrite ?of_uint_acc_value; vm_compute digitValue; simpl default; lia.
Qed.

(** The digits [toFixed] writes for the natural number [n]. *)
Lemma digits_decimal (n : Z) :
  (0 ≤ n)%Z →
  let m := if (n =? 0)%Z then "0" else digits n in
  allDigits m = true ∧ String.length m ≠ 0 ∧ decimal m 0 = n.
Proof.
  intros Hn. destruct (Z.eqb_spec n 0) as [->|Hne]; simpl; [done|].
  unfold digits. destruct n as [|p|p]; [done| |lia]. simpl Z.to_N.
  change (N.to_uint (Npos p)) with (Pos.to_uint p).
  pose proof (DecimalPos.Unsigned.to_uint_nonnil p) as Hnil.
  pose proof (DecimalPos.Unsigned.of_to p) as Hof.
  destruct (string_of_uint_digits (Pos.to_uint p)) as (H1 & H2 & H3).
  assert (NilZero.string_of_uint (Pos.to_uint p) = NilEmpty.string_of_uint (Pos.to_uint p))
    as ->.
  { unfold NilZero.string_of_uint. by destruct (Pos.to_uint p). }
  rewrite H1, H2, H3, Hof. repeat split. by destruct (Pos.to_uint p).
Qed.

(** *** [parseFloat] after [toFixed] *)

Lemma digit_head (c : ascii) :
  is_Some (digitValue c) →
  isWhiteSpace c = false ∧ c ≠ "-"%char ∧ c ≠ "+"%char ∧ c ≠ "I"%char.
Proof.
  destruct c as [[] [] [] [] [] [] [] []]; vm_compute; intros [d Hd]; try done.
Qed.

(** A sign and a digit: [parseFloat] reads the sign and turns to the
    digits. *)
Lemma parseFloat_unsigned (neg : bool) (c : ascii) (s : string) :
  is_Some (digitValue c) →
  parseFloat ((if neg then "-" else EmptyString) +:+ String c s)
  = let '(ip, ilen, s1) := readDigits (String c s) 0 0 in
    let '(m, flen, s2) :=
      match s1 with
      | String c rest =>
          if bool_decide (c = "."%char) then readDigits rest ip 0 else (ip, 0, s1)
      | EmptyString => (ip, 0, s1)
      end in
    if Nat.eqb (ilen + flen) 0 then nan
    else decimalValue neg m (readExponent s2 - Z.of_nat flen).
Proof.
  intros Hc. destruct (digit_head c Hc) as (Hws & Hminus & Hplus & HI).
  unfold parseFloat.
  assert (readSign (trimStart ((if neg then "-" else EmptyString) +:+ String c s))
          = (neg, String c s)) as ->.
  { destruct neg; simpl; rewrite ?Hws; simpl.
    - done.
    - by rewrite !bool_decide_eq_false_2. }
  assert (String.prefix "Infinity" (String c s) = false) as ->; [|done].
  cbn [String.prefix]. destruct (ascii_dec "I" c); congruence.
Qed.

(** The text [toFixed] writes from the digits [m] of a natural number,
    with [f] of them after the point, is read by [parseFloat] as that
    number of units of [10^-f]. *)
Lemma fixed_text_parses (neg : bool) (f : nat) (m : string) :
  f ≠ 0 → allDigits m = true → String.length m ≠ 0 →
  let m' := if (String.length m <=? f)%nat then zeros (f + 1 - String.length m) +:+ m else m in
  parseFloat ((if neg then "-" else EmptyString)
              +:+ (let '(a, b) := splitAt (String.length m' - f) m' in a +:+ "." +:+ b))
  = decimalValue neg (decimal m 0) (- Z.of_nat f).
Proof.
  intros Hf Hm Hlen m'.
  assert (allDigits m' = true ∧ f < String.length m' ∧ decimal m' 0 = decimal m 0)
    as (Hm' & Hlen' & Hval).
  { subst m'. destruct (Nat.leb_spec (String.length m) f) as [Hle|Hlt]; [|done].
    destruct (zeros_digits (f + 1 - String.length m)) as (Hz1 & Hz2 & Hz3).
    rewrite allDigits_app, length_append, decimal_app, Hz1, Hz2, Hz3, Hm.
    repeat split. lia. }
  clearbody m'. clear Hm Hlen. rewrite <- Hval. clear Hval m.
  destruct (splitAt (String.length m' - f) m') as [a b] eqn:Hsplit.
  apply splitAt_app in Hsplit as [-> Ha].
  rewrite allDigits_app in Hm'. apply andb_true_iff in Hm' as [Hda Hdb].
  rewrite length_append in Ha, Hlen'.
  destruct a as [|c a]; [simpl in Ha, Hlen'; lia|].
  assert (is_Some (digitValue c)) as Hc.
  { simpl in Hda. apply andb_true_iff in Hda as [Hc _]. by apply bool_decide_eq_true in Hc. }
  change (String c a +:+ "." +:+ b) with (String c (a +:+ "." +:+ b)).
  rewrite (parseFloat_unsigned neg c _ Hc).
  change (String c (a +:+ "." +:+ b)) with (String c a +:+ String "." b).
  rewrite (readDigits_allDigits _ _ Hda). cbn [readDigits].
  change (digitValue ".") with (@None Z). cbn iota. rewrite bool_decide_eq_true_2 by done.
  rewrite (readDigits_digits_only _ Hdb).
  rewrite <- decimal_app.
  assert (String.length b = f) as -> by lia.
  destruct (Nat.eqb_spec (0 + String.length (String c a) + (0 + f)) 0) as [Heq|_]; [lia|].
  simpl readExponent. f_equal.
Qed.

Lemma exactValue_positive (m : positive) (e : Z) :
  (0 < (exactValue m e).1 ∧ 0 < (exactValue m e).2)%Z.
Proof.
  unfold exactValue. destruct (Z.leb_spec 0 e); simpl.
  - split; [|lia]. apply Z.mul_pos_pos; [lia|]. by apply Z.pow_pos_nonneg.
  - split; [lia|]. apply Z.pow_pos_nonneg; lia.
Qed.

Lemma roundFill_rounded (x : float) : below1e21 x → roundedTo 4 x (roundFill x).
Proof.
  unfold below1e21, roundedTo, roundFill, toFixed, numberToString.
  pose proof (SF2Prim_Prim2SF x) as Hx.
  destruct (Prim2SF x) as [s|s| |neg m e]; intros Hbelow.
  - by vm_compute.
  - rewrite <- Hx. by destruct s; vm_compute.
  - rewrite <- Hx. by vm_compute.
  - clear Hx. pose proof (exactValue_positive m e) as [Hp Hq].
    destruct (exactValue m e) as [p q]. simpl in Hp, Hq.
    destruct (Z.leb_spec (10 ^ 21 * q) p) as [Hle|_]; [lia|].
    set (n := ((2 * p * 10 ^ Z.of_nat 4 + q) / (2 * q))%Z).
    assert (0 ≤ n)%Z as Hn.
    { apply Z.div_pos; [|lia]. assert (0 ≤ 2 * p * 10 ^ Z.of_nat 4)%Z; [|lia].
      apply Z.mul_nonneg_nonneg; [lia|]. by apply Z.pow_nonneg. }
    destruct (digits_decimal n Hn) as (Hdigits & Hlen & Hval).
    exists n. split.
    + pose proof (Z.div_mod (2 * p * 10 ^ Z.of_nat 4 + q) (2 * q) ltac:(lia)) as Hdiv.
      pose proof (Z.mod_pos_bound (2 * p * 10 ^ Z.of_nat 4 + q) (2 * q) ltac:(lia)) as Hmod.
      fold n in Hdiv. lia.
    + etransitivity; [exact (fixed_text_parses neg 4 _ ltac:(done) Hdigits Hlen)|].
      by rewrite Hval.
Qed.

(** One Number only is [x] rounded to [f] decimals. *)
Lemma roundedTo_unique (f : nat) (x y y' : float) :
  roundedTo f x y → roundedTo f x y' → y = y'.
Proof.
  unfold roundedTo. destruct (Prim2SF x) as [s|s| |neg m e]; try congruence.
  pose proof (exactValue_positive m e) as [_ Hq].
  destruct (exactValue m e) as [p q]. simpl in Hq.
  intros (n & Hn & ->) (n' & Hn' & ->). f_equal. nia.
Qed.

(** [parseFloat(x.toFixed(4))] is [x] rounded to four decimals, and nothing
    else is. *)
Lemma roundFill_spec (x y : float) :
  below1e21 x → roundedTo 4 x y ↔ y = roundFill x.
Proof.
  intros Hx. split.
  - intros Hy. apply (roundedTo_unique 4 x); [done|]. by apply roundFill_rounded.
  - intros ->. by apply roundFill_rounded.
Qed.

(** *** Sums *)

Lemma addsUpTo_reduce (numbers : list float) :
  addsUpTo numbers (fold_left PrimFloat.add numbers zero).
Proof.
  induction numbers as [|x numbers IH] using rev_ind; [constructor|].
  rewrite fold_left_app. simpl. by constructor.
Qed.

Lemma addsUpTo_unique (numbers : list float) (sum : float) :
  addsUpTo numbers sum → sum = fold_left PrimFloat.add numbers zero.
Proof.
  induction 1 as [|numbers sum x _ IH]; [done|].
  rewrite fold_left_app. simpl. by rewrite IH.
Qed.

(** ** The strategy mean *)

(** C8. On a column handled as numeric the strategy mean assigns the
    arithmetic mean of the parsed Numbers, their sum divided by their
    number, and every empty field of the column receives it rounded to
    four decimals: the Number of the decimal with four digits after the
    point that is nearest to it.  The means of 30, 25 and of 1, 2 fill as
    27.5 and 1.5, the mean of 1, 2, 6 is 3, and the mean of 1, 2, 2 fills
    as 1.6667. *)
Theorem mean_fills_numeric_column :
  (∀ (dataset : Dataset string) (colIndex : nat) (knnNeighbors : Z),
     let values := columnValues (rows (asValues dataset)) colIndex in
     let cleaned := processData dataset "mean" knnNeighbors in
     colIndex < length (headers dataset) →
     values ≠ [] →
     isNumeric (numericValues values) = true →
     computeFillValues "mean" (headers dataset) (rows (asValues dataset)) !! colIndex
     = Some (VNumber (mean (parsedNumbers values)))
     ∧ ∀ i row, rows dataset !! i = Some row → row !! colIndex = Some EmptyString →
         ∃ row', rows cleaned !! i = Some row'
           ∧ row' !! colIndex = Some (VNumber (roundFill (mean (parsedNumbers values)))))
  ∧ (∀ numbers, ∃ sum, addsUpTo numbers sum)
  ∧ (∀ numbers sum, addsUpTo numbers sum →
       mean numbers = PrimFloat.div sum (ofNat (length numbers)))
  ∧ (∀ x y, below1e21 x → roundedTo 4 x y ↔ y = roundFill x)
  ∧ roundFill (mean (parsedNumbers [VString "30"; VString "25"])) = 27.5%float
  ∧ roundFill (mean (parsedNumbers [VString "1"; VString "2"])) = 1.5%float
  ∧ mean (parsedNumbers [VString "1"; VString "2"; VString "6"]) = 3%float
  ∧ roundFill (mean (parsedNumbers [VString "1"; VString "2"; VString "2"]))
    = PrimFloat.div 16667 10000.
Proof.
  split; [|split; [|split; [|split; [|repeat split; vm_compute; reflexivity]]]].
  2:{ intros numbers. eexists. apply addsUpTo_reduce. }
  2:{ intros numbers sum Hsum. unfold mean. by rewrite (addsUpTo_unique _ _ Hsum). }
  2:{ apply roundFill_spec. }
  intros dataset colIndex knnNeighbors values cleaned Hcol Hne Hnum.
  assert (computeFillValues "mean" (headers dataset) (rows (asValues dataset)) !! colIndex
          = Some (VNumber (mean (parsedNumbers values)))) as Hfill.
  { rewrite computeFillValues_lookup, decide_True by done. fold values.
    rewrite columnFill_nonempty, Hnum by done.
    change (numericFill "mean" (numericValues values))
      with (Some (VNumber (mean (map numberOf (numericValues values))))).
    rewrite numberOf_numericValues; [done..|].
    intros val. apply columnValues_strings. }
  split; [exact Hfill|].
  intros i row Hrow Hempty. subst cleaned. rewrite processData_fill by done. simpl.
  eexists. split.
  { rewrite !list_lookup_fmap, Hrow. reflexivity. }
  rewrite fillRow_lookup, decide_True, list_lookup_fmap, Hempty by done. simpl.
  unfold filledCell, fillAt. simpl in Hfill. rewrite Hfill. reflexivity.
Qed.

Lemma mean_fills_numeric_column_witness :
  let dataset :=
    mkDataset ["name"; "age"] [["Ann"; "30"]; ["Bob"; ""]; [""; "25"]] (mkStats 3 ∅) in
  computeFillValues "mean" (headers dataset) (rows (asValues dataset)) !! 1
  = Some (VNumber (mean (parsedNumbers [VString "30"; VString "25"])))
  ∧ ∀ i row, rows dataset !! i = Some row → row !! 1 = Some EmptyString →
      ∃ row', rows (processData dataset "mean" 5) !! i = Some row'
        ∧ row' !! 1
          = Some (VNumber (roundFill (mean (parsedNumbers [VString "30"; VString "25"])))).
Proof.
  apply (proj1 mean_fills_numeric_column
           (mkDataset ["name"; "age"] [["Ann"; "30"]; ["Bob"; ""]; [""; "25"]] (mkStats 3 ∅))
           1 5%Z).
  - simpl. lia.
  - vm_compute. discriminate.
  - vm_compute. reflexivity.
Defined.

(** ** The statistics of [parseCSV] *)

(** Two [decide]s on a bound and a lookup disagreed. *)
Ltac decide_mismatch :=
  repeat match goal with H : _ ∧ _ |- _ => destruct H end;
  match goal with
  | H : ¬ (_ ∧ _) |- _ => apply H; split; (lia || done)
  | H : _ ≠ _ |- _ => by apply H
  | _ => lia
  end.

Section MissingValues.
Variable headers : list string.
Variable key : string.
Hypothesis key_own : inherited key = false.

Lemma key_not_proto : key ≠ "__proto__".
Proof using key_own. intros ->. discriminate key_own. Qed.

Lemma recordMissing_same missingValues n :
  tally key missingValues n → tally key (recordMissing missingValues key) (S n).
Proof using key_own.
  unfold tally, recordMissing, getProp, setProp. intros Hn.
  pose proof key_not_proto as Hproto.
  rewrite Hn, key_own. destruct n as [|n]; simpl;
    repeat (rewrite decide_False by done).
  - by rewrite !lookup_insert_eq.
  - by rewrite Hn, lookup_insert_eq.
Qed.

Lemma recordMissing_other missingValues other :
  other ≠ key → recordMissing missingValues other !! key = missingValues !! key.
Proof.
  intros Hne. unfold recordMissing, setProp.
  destruct (decide (other = "__proto__")); [by destruct (falsy _)|].
  destruct (falsy _); by rewrite !lookup_insert_ne.
Qed.

Lemma countBody_acc values : ∀ i n,
  forEachFrom i values (countBody headers key) n = n + forEachFrom i values (countBody headers key) 0.
Proof.
  induction values as [|val values IH]; intros i n; simpl; [lia|].
  rewrite (IH _ ((countBody headers key) val i n)), (IH _ ((countBody headers key) val i 0)).
  unfold countBody. destruct (_ && _); lia.
Qed.

Lemma trackMissing_tally values : ∀ i missingValues n,
  tally key missingValues n →
  tally key
    (forEachFrom i values
       (λ val idx missingValues,
          if bool_decide (val = EmptyString)
          then recordMissing missingValues (headerKey headers idx)
          else missingValues) missingValues)
    (forEachFrom i values (countBody headers key) n).
Proof using key_own.
  induction values as [|val values IH]; intros i missingValues n Hn; simpl; [done|].
  apply IH. unfold countBody.
  case_bool_decide; simpl; [|done].
  case_bool_decide as Hkey; simpl.
  - rewrite Hkey. by apply recordMissing_same.
  - unfold tally. by rewrite recordMissing_other.
Qed.

Lemma parseRows_tally lines : ∀ table missingValues n,
  tally key missingValues n →
  fst (parseRows headers lines table missingValues) = table ++ map parseCSVLine lines
  ∧ tally key (snd (parseRows headers lines table missingValues))
      (n + emptyFieldsNamed headers key (map parseCSVLine lines)).
Proof using key_own.
  induction lines as [|line lines IH]; intros table missingValues n Hn; simpl.
  - rewrite app_nil_r. split; [done|]. unfold emptyFieldsNamed. simpl.
    by rewrite Nat.add_0_r.
  - destruct (IH (table ++ [parseCSVLine line])
                (trackMissing headers (parseCSVLine line) missingValues)
                (n + emptyUnder headers key (parseCSVLine line))) as [Hrows Htally].
    { unfold emptyUnder. fold (countBody headers key). rewrite <- countBody_acc.
      by apply trackMissing_tally. }
    split; [by rewrite Hrows, <- app_assoc|].
    unfold emptyFieldsNamed in *. simpl. by rewrite Nat.add_assoc.
Qed.

Lemma missingCount_tally missingValues n :
  tally key missingValues n → missingCount missingValues key = Some n.
Proof using key_own.
  unfold tally, missingCount, getProp. intros ->. rewrite key_own. by destruct n.
Qed.

(** When [key] names the single column [colIndex], a row has one empty
    field under it or none. *)
Lemma emptyUnder_single colIndex values :
  (∀ idx, idx < length values → headerKey headers idx = key ↔ idx = colIndex) →
  emptyUnder headers key values
  = if decide (values !! colIndex = Some EmptyString) then 1 else 0.
Proof using Type.
  unfold emptyUnder. fold (countBody headers key).
  assert (∀ i,
    (∀ idx, idx < length values → headerKey headers (i + idx) = key ↔ i + idx = colIndex) →
    forEachFrom i values (countBody headers key) 0
    = if decide (i ≤ colIndex ∧ values !! (colIndex - i) = Some EmptyString)
      then 1 else 0) as Hgen.
  { induction values as [|val values IH]; intros i Hkey; simpl.
    - case_decide as Hd; [by destruct Hd as [_ Hd]|done].
    - rewrite countBody_acc, IH.
      2:{ intros idx Hidx. replace (S i + idx) with (i + S idx) by lia.
          apply Hkey. simpl. lia. }
      pose proof (Hkey 0 ltac:(simpl; lia)) as Hhere. rewrite Nat.add_0_r in Hhere.
      unfold countBody. destruct (decide (i = colIndex)) as [->|Hne].
      + rewrite Nat.sub_diag. simpl.
        rewrite (bool_decide_eq_true_2 (headerKey _ _ = _)) by by apply Hhere.
        rewrite andb_true_r, (decide_False (P := S colIndex ≤ colIndex ∧ _)) by lia.
        case_bool_decide as Hval; case_decide as Hd; try done; try lia.
        * exfalso. apply Hd. split; [lia|]. by rewrite Hval.
        * exfalso. destruct Hd as [_ Hd]. by injection Hd.
      + rewrite (bool_decide_eq_false_2 (headerKey _ _ = _))
          by (intros Heq; by apply Hhere in Heq).
        rewrite andb_false_r. simpl.
        destruct (decide (i ≤ colIndex)) as [Hle|Hgt].
        * replace (colIndex - i) with (S (colIndex - S i)) by lia. simpl.
          repeat case_decide; try done; exfalso; decide_mismatch.
        * repeat case_decide; try done; exfalso; decide_mismatch. }
  intros Hkey. rewrite Hgen by (intros; simpl; by apply Hkey).
  rewrite Nat.sub_0_r. repeat case_decide; try done; exfalso; decide_mismatch.
Qed.

Lemma emptyFieldsNamed_single colIndex (table : list (list string)) :
  headers !! colIndex = Some key →
  (∀ j, headers !! j = Some key → j = colIndex) →
  key ≠ "undefined" ∨ Forall (λ row, length row ≤ length headers) table →
  emptyFieldsNamed headers key table = emptyInColumn table colIndex.
Proof using Type.
  clear key_own.
  intros Hcol Huniq Hshape. unfold emptyFieldsNamed, emptyInColumn.
  induction table as [|row table IH]; [done|].
  simpl. rewrite filter_cons, IH.
  2:{ destruct Hshape as [?|Hall]; [by left|right]. by inversion Hall. }
  rewrite (emptyUnder_single colIndex); [by case_decide|].
  intros idx Hidx. unfold headerKey. split.
  - destruct (headers !! idx) as [h|] eqn:Hh; [intros ->; by apply Huniq|].
    intros Hundef. destruct Hshape as [Hk|Hall]; [done|].
    apply lookup_ge_None in Hh. inversion Hall; subst. lia.
  - intros ->. by rewrite Hcol.
Qed.
End MissingValues.

(** C2 fails as stated: under the header line [a,a] each column has one
    empty field, and the count recorded for [a] is 2. *)
Lemma duplicate_headers_merge_counts :
  ∃ dataset, parseCSV duplicateHeaders = Some dataset
    ∧ headers dataset = ["a"; "a"]
    ∧ emptyInColumn (rows dataset) 0 = 1
    ∧ emptyInColumn (rows dataset) 1 = 1
    ∧ missingCount (missingValues (stats dataset)) "a" = Some 2.
Proof. eexists. split; [reflexivity|]. repeat split; vm_compute; reflexivity. Qed.

(** C2, amended. For a header name that is not a property of
    Object.prototype, the count recorded by parseCSV is the number of empty
    fields in all the columns of that name (fields beyond the header line
    count under the name undefined); when the name belongs to one column
    only, and is not undefined or no row is longer than the header line, it
    is the number of rows whose field in that column is empty. *)
Theorem missingValues_counts_fields_by_name (content : string) (dataset : Dataset string)
    (h : string) :
  parseCSV content = Some dataset →
  inherited h = false →
  missingCount (missingValues (stats dataset)) h
  = Some (emptyFieldsNamed (headers dataset) h (rows dataset))
  ∧ ∀ colIndex,
      headers dataset !! colIndex = Some h →
      (∀ j, headers dataset !! j = Some h → j = colIndex) →
      h ≠ "undefined" ∨ Forall (λ row, length row ≤ length (headers dataset)) (rows dataset) →
      missingCount (missingValues (stats dataset)) h
      = Some (emptyInColumn (rows dataset) colIndex).
Proof.
  unfold parseCSV. intros Hparse Hown.
  destruct (nonBlankLines content) as [|line0 rest]; [done|].
  pose proof (parseRows_tally (parseCSVLine line0) h Hown rest [] ∅ 0 (lookup_empty _))
    as [Hrows Htally].
  destruct (parseRows _ _ _ _) as [table missingValues]. simpl in *.
  injection Hparse as <-. simpl. subst table.
  apply missingCount_tally in Htally; [|done].
  split; [done|]. intros colIndex Hcol Huniq Hshape.
  by rewrite Htally, (emptyFieldsNamed_single _ _ colIndex).
Qed.

Lemma missingValues_counts_fields_by_name_witness :
  let content :=
    "name,age" +:+ String newline ("Bob," +:+ String newline (",25" +:+ String newline EmptyString)) in
  let dataset :=
    mkDataset ["name"; "age"] [["Bob"; ""]; [""; "25"]]
      (mkStats 2 (<["name" := CNum 1]> (<["age" := CNum 1]> ∅))) in
  missingCount (missingValues (stats dataset)) "age"
  = Some (emptyFieldsNamed (headers dataset) "age" (rows dataset))
  ∧ ∀ colIndex,
      headers dataset !! colIndex = Some "age" →
      (∀ j, headers dataset !! j = Some "age" → j = colIndex) →
      "age" ≠ "undefined" ∨ Forall (λ row, length row ≤ length (headers dataset)) (rows dataset) →
      missingCount (missingValues (stats dataset)) "age"
      = Some (emptyInColumn (rows dataset) colIndex).
Proof.
  apply (missingValues_counts_fields_by_name
           ("name,age" +:+ String newline ("Bob," +:+ String newline (",25" +:+ String newline EmptyString)))).
  - vm_compute. reflexivity.
  - reflexivity.
Defined.

(** ** The mode of a column *)

Lemma occurrences_snoc key values val :
  occurrences key (values ++ [val])
  = occurrences key values + (if decide (toString val = key) then 1 else 0).
Proof.
  unfold occurrences. rewrite filter_app, length_app, filter_cons, filter_nil.
  by case_decide.
Qed.

Lemma modeStep_invariant seen state val :
  inherited (toString val) = false →
  modeInvariant seen state → modeInvariant (seen ++ [val]) (modeStep val state).
Proof.
  destruct state as [[frequency max] mode]. intros Hown (Hfreq & Hmax & Hmode).
  assert (toString val ≠ "__proto__") as Hproto by (intros Heq; by rewrite Heq in Hown).
  unfold modeStep, getProp, setProp. rewrite decide_False by done.
  rewrite lookup_insert_eq, (Hfreq (toString val)), Hown.
  assert (nextFrequency
            match occurrences (toString val) seen with
            | O => RUndefined
            | S n => ROwn (FCount (S n))
            end = FCount (S (occurrences (toString val) seen))) as Hnext.
  { destruct (occurrences (toString val) seen); simpl; [done|]. f_equal. lia. }
  replace (nextFrequency _) with (FCount (S (occurrences (toString val) seen)))
    by (by destruct (occurrences (toString val) seen)).
  assert (∀ key,
    <[toString val := FCount (S (occurrences (toString val) seen))]> frequency !! key
    = match occurrences key (seen ++ [val]) with
      | O => None
      | S n => Some (FCount (S n))
      end) as Hfreq'.
  { intros key. rewrite occurrences_snoc. case_decide as Hkey.
    - subst key. rewrite lookup_insert_eq, Nat.add_1_r. done.
    - rewrite lookup_insert_ne, Nat.add_0_r by done. apply Hfreq. }
  destruct (Nat.ltb_spec max (S (occurrences (toString val) seen))) as [Hlt|Hge].
  - split; [exact Hfreq'|]. split.
    + intros key. rewrite occurrences_snoc. specialize (Hmax key).
      case_decide as Hkey; [subst key|]; lia.
    + right. exists seen, []. split; [done|]. split.
      * rewrite occurrences_snoc, decide_True by done. lia.
      * intros key. specialize (Hmax key). lia.
  - split; [exact Hfreq'|]. split.
    + intros key. rewrite occurrences_snoc. specialize (Hmax key).
      case_decide as Hkey; [subst key|]; lia.
    + right. destruct Hmode as [[-> ->]|(before & after & -> & Hreach & Hbefore)]; [lia|].
      exists before, (after ++ [val]). split; [by rewrite <- app_assoc|]. done.
Qed.

Lemma modeLoop_invariant values : ∀ seen state,
  (∀ val, val ∈ values → inherited (toString val) = false) →
  modeInvariant seen state →
  modeInvariant (seen ++ values) (fold_left (λ state val, modeStep val state) values state).
Proof.
  induction values as [|val values IH]; intros seen state Hown Hinv; simpl.
  - by rewrite app_nil_r.
  - rewrite (cons_middle val), app_assoc. apply IH.
    + intros v Hv. apply Hown. by right.
    + apply modeStep_invariant; [apply Hown; by left | done].
Qed.

(** Outside the keys found on Object.prototype the loop computes the mode:
    the result is the value whose count is the first to reach the greatest
    number of occurrences. *)
Lemma modeOf_first_to_reach_max (values : list value) :
  values ≠ [] →
  (∀ val, val ∈ values → inherited (toString val) = false) →
  ∃ before after,
    values = before ++ modeOf values :: after
    ∧ (∀ key, occurrences key values
              ≤ occurrences (toString (modeOf values)) (before ++ [modeOf values]))
    ∧ (∀ key, occurrences key before
              < occurrences (toString (modeOf values)) (before ++ [modeOf values])).
Proof.
  intros Hne Hown. unfold modeOf.
  pose proof (modeLoop_invariant values [] (∅, 0, cellAt values 0) Hown) as Hinv.
  destruct (fold_left _ values _) as [[frequency max] mode].
  destruct Hinv as (_ & Hmax & Hmode).
  { split; [intros key; by rewrite lookup_empty|].
    split; [intros key; unfold occurrences; by rewrite filter_nil|].
    by left. }
  simpl in Hmode. destruct Hmode as [[-> _]|(before & after & Hsplit & Hreach & Hbefore)];
    [done|].
  exists before, after. rewrite Hreach. auto.
Qed.

(** *** Numbers as keys

    The text of a Number starts with a digit, a minus sign, or the first
    letter of NaN or Infinity: it is never a key of Object.prototype. *)

Lemma digits_head (n : Z) :
  ∃ c rest, digits n = String c rest ∧ numberHead c = true.
Proof.
  unfold digits. destruct (N.to_uint (Z.to_N n)); simpl; by eexists _, _.
Qed.

Lemma shortestDigits_head fuel x p q n k :
  ∃ c rest, fst (shortestDigits fuel x p q n k) = String c rest ∧ numberHead c = true.
Proof.
  revert k. induction fuel as [|fuel IH]; intros k; simpl; [apply digits_head|].
  destruct (if (0 <=? n - k)%Z then _ else _) as [num den].
  repeat match goal with
         | |- context [if ?b then _ else _] => destruct b; simpl
         end; auto using digits_head.
Qed.

Lemma append_head c (s t : string) : String c s +:+ t = String c (s +:+ t).
Proof. reflexivity. Qed.

Lemma splitAt_head n c (s : string) :
  ∃ rest, fst (splitAt (S n) (String c s)) = String c rest.
Proof. simpl. destruct (splitAt n s). by eexists. Qed.

Lemma numberToString_head (x : float) :
  ∃ c rest, numberToString x = String c rest ∧ numberHead c = true.
Proof.
  unfold numberToString. destruct (Prim2SF x) as [neg|neg| |neg m e].
  - by eexists _, _.
  - destruct neg; by eexists _, _.
  - by eexists _, _.
  - destruct (exactValue m e) as [p q].
    destruct (shortestDigits_head 17 (PrimFloat.abs x) p q (decimalExponent p q) 1)
      as (c & rest & Hs & Hc).
    destruct (shortestDigits _ _ _ _ _ _) as [s n]. simpl in Hs. subst s.
    destruct neg; [by eexists _, _|].
    destruct ((_ <=? n)%Z && (n <=? 21)%Z); [by eexists _, _|].
    destruct ((0 <? n)%Z && (n <=? 21)%Z) eqn:Hn.
    { apply andb_true_iff in Hn as [Hn _]. apply Z.ltb_lt in Hn.
      destruct (Z.to_nat n) as [|n'] eqn:Hnat; [lia|].
      destruct (splitAt_head n' c rest) as [a Ha].
      destruct (splitAt (S n') (String c rest)) as [a' b]. simpl in Ha. subst a'.
      by eexists _, _. }
    destruct ((-6 <? n)%Z && (n <=? 0)%Z); [by eexists _, _|].
    destruct (splitAt_head 0 c rest) as [a Ha].
    destruct (splitAt 1 (String c rest)) as [a' b]. simpl in Ha. subst a'.
    destruct (_ =? 1)%Z; by eexists _, _.
Qed.

Lemma numberHead_not_inherited c (rest : string) :
  numberHead c = true → inherited (String c rest) = false.
Proof.
  intros Hc. apply bool_decide_eq_false. intros Hin.
  repeat (apply elem_of_cons in Hin as [Heq|Hin];
          [injection Heq as -> _; by vm_compute in Hc|]).
  by apply elem_of_nil in Hin.
Qed.

Lemma number_key_not_inherited (val : value) :
  isNumber val = true → inherited (toString val) = false.
Proof.
  destruct val as [| |x]; try done. intros _. simpl.
  destruct (numberToString_head x) as (c & rest & -> & Hc).
  by apply numberHead_not_inherited.
Qed.

(** On a numeric column the loop always computes the mode. *)
Lemma modeOf_numeric_column (values : list value) :
  values ≠ [] → isNumeric values = true →
  ∃ before after,
    values = before ++ modeOf values :: after
    ∧ (∀ key, occurrences key values
              ≤ occurrences (toString (modeOf values)) (before ++ [modeOf values]))
    ∧ (∀ key, occurrences key before
              < occurrences (toString (modeOf values)) (before ++ [modeOf values])).
Proof.
  intros Hne Hnum. apply modeOf_first_to_reach_max; [done|].
  intros val Hin. apply number_key_not_inherited.
  unfold isNumeric in Hnum. rewrite forallb_forall in Hnum.
  by apply Hnum, list_elem_of_In.
Qed.

(** With mode and knn the fill value of a non-empty column is the result
    of the mode loop, on the parsed Numbers or on the texts. *)
Lemma mode_fill_value (dataset : Dataset string) (method : string) (colIndex : nat) :
  method = "mode" ∨ method = "knn" →
  colIndex < length (headers dataset) →
  let values := columnValues (rows (asValues dataset)) colIndex in
  values ≠ [] →
  computeFillValues method (headers dataset) (rows (asValues dataset)) !! colIndex
  = Some (if isNumeric (numericValues values)
          then modeOf (numericValues values) else modeOf values).
Proof.
  intros Hmethod Hcol values Hne.
  rewrite computeFillValues_lookup, decide_True by done. fold values.
  rewrite columnFill_nonempty by done.
  destruct Hmethod as [-> | ->]; by destruct (isNumeric _).
Qed.

(** The example of the specification, and a tie: in [a, b, b, a] the
    count of [b] reaches 2 first. *)
Lemma modeOf_examples :
  modeOf [VString "a"; VString "b"; VString "a"; VString "c"] = VString "a"
  ∧ modeOf [VString "a"; VString "b"; VString "b"; VString "a"] = VString "b"
  ∧ modeOf [VNumber 3; VNumber 1; VNumber 1; VNumber 3] = VNumber 1.
Proof. repeat split; vm_compute; reflexivity. Qed.

(** C4. The most frequent value of the column is [constructor], a key that
    every object inherits: its counter never becomes a number, and the
    empty field is filled with [a]. *)
Theorem mode_misses_inherited_key :
  ∃ dataset, parseCSV inheritedKeyInput = Some dataset
    ∧ columnValues (rows (asValues dataset)) 1
      = [VString "constructor"; VString "constructor"; VString "a"]
    ∧ occurrences "constructor" (columnValues (rows (asValues dataset)) 1) = 2
    ∧ occurrences "a" (columnValues (rows (asValues dataset)) 1) = 1
    ∧ modeOf (columnValues (rows (asValues dataset)) 1) = VString "a"
    ∧ rows (processData dataset "mode" 5) !! 3 = Some [VString "4"; VString "a"].
Proof. eexists. split; [reflexivity|]. repeat split; vm_compute; reflexivity. Qed.

(** ** Strings *)

Local Arguments String.append !_ _ / : simpl nomatch.

Lemma append_nil_r (s : string) : s +:+ EmptyString = s.
Proof. induction s as [|c s IH]; simpl; [done | by rewrite IH]. Qed.

Lemma append_assoc (s t u : string) : (s +:+ t) +:+ u = s +:+ t +:+ u.
Proof. induction s as [|c s IH]; simpl; [done | by rewrite IH]. Qed.

Lemma includes_append c (s t : string) :
  includes c (s +:+ t) = includes c s || includes c t.
Proof. induction s as [|a s IH]; simpl; [done|]. by case_decide. Qed.

Lemma whitespace_neq a c : isWhiteSpace a = true → isWhiteSpace c = false → a ≠ c.
Proof. intros Ha Hc ->. congruence. Qed.

Lemma includes_trimStart c s :
  isWhiteSpace c = false → includes c (trimStart s) = includes c s.
Proof.
  intros Hc. induction s as [|a s IH]; simpl; [done|].
  destruct (isWhiteSpace a) eqn:Ha; [|done].
  by rewrite IH, decide_False by by apply whitespace_neq.
Qed.

Lemma includes_trimEnd c s :
  isWhiteSpace c = false → includes c (trimEnd s) = includes c s.
Proof.
  intros Hc. induction s as [|a s IH]; simpl; [done|].
  destruct (trimEnd s) as [|b t] eqn:Ht.
  - simpl in IH. rewrite <- IH. destruct (isWhiteSpace a) eqn:Ha; simpl; [|done].
    by rewrite decide_False by by apply whitespace_neq.
  - simpl. simpl in IH. by rewrite IH.
Qed.

Lemma trimStart_without c s : includes c s = false → includes c (trimStart s) = false.
Proof.
  induction s as [|a s IH]; simpl; [done|].
  case_decide; [done|]. intros Hs. destruct (isWhiteSpace a); [by apply IH|].
  simpl. by rewrite decide_False.
Qed.

Lemma trimEnd_without c s : includes c s = false → includes c (trimEnd s) = false.
Proof.
  induction s as [|a s IH]; simpl; [done|].
  case_decide as Ha; [done|]. intros Hs. specialize (IH Hs).
  destruct (trimEnd s) as [|b t]; simpl.
  - destruct (isWhiteSpace a); simpl; [done|]. by rewrite decide_False.
  - rewrite decide_False by done. exact IH.
Qed.

Lemma trim_without c s : includes c s = false → includes c (trim s) = false.
Proof. intros Hs. by apply trimEnd_without, trimStart_without. Qed.

Lemma trim_nonblank c s :
  isWhiteSpace c = false → includes c s = true → trim s ≠ EmptyString.
Proof.
  intros Hc Hs Htrim. unfold trim in Htrim.
  assert (includes c (trimEnd (trimStart s)) = true) as Hin
    by by rewrite includes_trimEnd, includes_trimStart.
  by rewrite Htrim in Hin.
Qed.

Lemma trimStart_head s :
  trimStart s = EmptyString
  ∨ ∃ c t, trimStart s = String c t ∧ isWhiteSpace c = false.
Proof.
  induction s as [|a s IH]; simpl; [by left|].
  destruct (isWhiteSpace a) eqn:Ha; [done|]. right. eauto.
Qed.

Lemma trimEnd_idem s : trimEnd (trimEnd s) = trimEnd s.
Proof.
  induction s as [|a s IH]; simpl; [done|].
  destruct (trimEnd s) as [|b t] eqn:Ht.
  - destruct (isWhiteSpace a) eqn:Ha; simpl; [done|]. by rewrite Ha.
  - change (trimEnd (String a (String b t))) with
      (match trimEnd (String b t) with
       | EmptyString => if isWhiteSpace a then EmptyString else String a EmptyString
       | u => String a u
       end).
    by rewrite IH.
Qed.

Lemma trimEnd_head c s :
  isWhiteSpace c = false → ∃ t, trimEnd (String c s) = String c t.
Proof.
  intros Hc. simpl. destruct (trimEnd s); [rewrite Hc|]; eauto.
Qed.

Lemma trim_idem s : trim (trim s) = trim s.
Proof.
  unfold trim. destruct (trimStart_head s) as [->|(c & t & -> & Hc)]; [done|].
  destruct (trimEnd_head c t Hc) as [u Hu]. rewrite Hu. simpl trimStart. rewrite Hc.
  by rewrite <- Hu, trimEnd_idem.
Qed.

(** ** [split] and [join] *)

Lemma split_nonempty sep s : split sep s ≠ [].
Proof. destruct s as [|c s]; simpl; [done|]. case_decide; [done|]. by destruct (split sep s). Qed.

Lemma join_cons sep f (rest : list string) :
  rest ≠ [] → join sep (f :: rest) = f +:+ String sep (join sep rest).
Proof. by destruct rest. Qed.

Lemma join_split sep s : join sep (split sep s) = s.
Proof.
  induction s as [|c s IH]; simpl; [done|].
  pose proof (split_nonempty sep s) as Hne. case_decide as Hc.
  - rewrite join_cons by done. simpl. by rewrite IH, Hc.
  - destruct (split sep s) as [|piece pieces]; [done|].
    destruct pieces as [|piece' pieces].
    + simpl in *. by rewrite IH.
    + rewrite join_cons by done. rewrite join_cons in IH by done.
      by rewrite <- IH.
Qed.

Lemma split_plain sep f : includes sep f = false → split sep f = [f].
Proof.
  induction f as [|c f IH]; simpl; [done|].
  case_decide; [done|]. intros Hf. by rewrite IH.
Qed.

Lemma split_append sep f t :
  includes sep f = false → split sep (f +:+ String sep t) = f :: split sep t.
Proof.
  induction f as [|c f IH]; simpl.
  - intros _. by rewrite decide_True.
  - case_decide; [done|]. intros Hf. by rewrite IH.
Qed.

Lemma split_join sep (fields : list string) :
  fields ≠ [] → Forall (λ f, includes sep f = false) fields →
  split sep (join sep fields) = fields.
Proof.
  induction fields as [|f fields IH]; [done|]. intros _ Hall.
  apply Forall_cons in Hall as [Hf Hall].
  destruct fields as [|g fields]; [by apply split_plain|].
  rewrite join_cons, split_append by done. by rewrite IH.
Qed.

Lemma split_pieces sep s : Forall (λ piece, includes sep piece = false) (split sep s).
Proof.
  induction s as [|c s IH]; simpl; [by repeat constructor|].
  case_decide; [by constructor|].
  destruct (split sep s) as [|piece pieces]; [by repeat constructor; simpl; rewrite decide_False|].
  apply Forall_cons in IH as [Hp Hps]. constructor; [|done].
  simpl. by rewrite decide_False.
Qed.

Lemma split_pieces_without c sep s :
  includes c s = false → Forall (λ piece, includes c piece = false) (split sep s).
Proof.
  induction s as [|a s IH]; simpl; [by repeat constructor|].
  case_decide as Ha; [done|]. intros Hs. specialize (IH Hs).
  case_decide; [by constructor|].
  destruct (split sep s) as [|piece pieces];
    [by repeat constructor; simpl; rewrite decide_False|].
  apply Forall_cons in IH as [Hp Hps]. constructor; [|done].
  simpl. by rewrite decide_False.
Qed.

Lemma includes_join c sep (fields : list string) :
  c ≠ sep → Forall (λ f, includes c f = false) fields →
  includes c (join sep fields) = false.
Proof.
  intros Hc. induction fields as [|f fields IH]; [done|].
  intros [Hf Hall]%Forall_cons. destruct fields as [|g fields]; [done|].
  rewrite join_cons, includes_append, Hf by done. simpl.
  rewrite decide_False by done. by apply IH.
Qed.

(** ** Lines without quotes *)

Lemma parseCSVLine_loop_plain line :
  includes dquote line = false →
  ∀ result currentField,
    parseCSVLine_loop line result false currentField
    = result ++ match split comma line with
                | piece :: pieces => trim (currentField +:+ piece) :: map trim pieces
                | [] => []
                end.
Proof.
  induction line as [|c line IH]; intros Hplain result currentField; simpl.
  - by rewrite append_nil_r.
  - simpl in Hplain. case_decide as Hq; [done|].
    rewrite (bool_decide_eq_false_2 (c = dquote)) by done.
    specialize (IH Hplain). pose proof (split_nonempty comma line) as Hne.
    case_bool_decide as Hc; simpl.
    + destruct (decide (c = comma)); [|done]. rewrite IH.
      destruct (split comma line) as [|piece pieces]; [done|].
      by rewrite <- app_assoc, append_nil_r.
    + destruct (decide (c = comma)); [done|]. rewrite IH.
      destruct (split comma line) as [|piece pieces]; [done|].
      by rewrite append_assoc.
Qed.

Lemma parseCSVLine_plain line :
  includes dquote line = false → parseCSVLine line = map trim (split comma line).
Proof.
  intros Hplain. unfold parseCSVLine. rewrite parseCSVLine_loop_plain by done.
  pose proof (split_nonempty comma line). by destruct (split comma line).
Qed.

Lemma dquote_not_comma : dquote ≠ comma.
Proof. done. Qed.

Lemma newline_not_comma : newline ≠ comma.
Proof. done. Qed.

Lemma parseCSVLine_join fields :
  canonicalRow fields → parseCSVLine (join comma fields) = fields.
Proof.
  intros (Hne & Hplain & _).
  rewrite parseCSVLine_plain.
  - rewrite split_join; [|done|].
    + clear Hne. induction Hplain as [|f fields (_ & _ & _ & Htrim) _ IH]; [done|].
      simpl. by rewrite Htrim, IH.
    + eapply Forall_impl; [exact Hplain|]. by intros f (? & _).
  - apply includes_join; [apply dquote_not_comma|].
    eapply Forall_impl; [exact Hplain|]. by intros f (_ & _ & ? & _).
Qed.

Lemma parseCSVLine_canonical line :
  includes dquote line = false → includes newline line = false →
  trim line ≠ EmptyString → canonicalRow (parseCSVLine line).
Proof.
  intros Hq Hnl Hblank. rewrite parseCSVLine_plain by done.
  pose proof (split_nonempty comma line) as Hne.
  pose proof (split_pieces comma line) as Hcomma.
  pose proof (split_pieces_without dquote comma line Hq) as Hquote.
  pose proof (split_pieces_without newline comma line Hnl) as Hline.
  pose proof (join_split comma line) as Hjoin.
  split; [by destruct (split comma line)|]. split.
  - clear Hne Hjoin. induction (split comma line) as [|piece pieces IH]; [constructor|].
    apply Forall_cons in Hcomma as [? ?]. apply Forall_cons in Hquote as [? ?].
    apply Forall_cons in Hline as [? ?]. simpl. constructor; [|by apply IH].
    repeat split; auto using trim_without, trim_idem.
  - destruct (split comma line) as [|piece [|piece' pieces]]; [done| |].
    + simpl in *. subst piece. by rewrite trim_idem.
    + change (map trim (piece :: piece' :: pieces))
        with (trim piece :: map trim (piece' :: pieces)).
      rewrite join_cons by done. apply (trim_nonblank comma); [done|].
      rewrite includes_append. simpl. apply orb_true_r.
Qed.

(** ** Texts made of lines *)

Lemma split_unlines (lines : list string) :
  Forall (λ line, includes newline line = false) lines →
  split newline (unlines lines) = lines ++ [EmptyString].
Proof.
  induction 1 as [|line lines Hline _ IH]; [done|].
  simpl. by rewrite split_append, IH.
Qed.

Lemma nonBlankLines_unlines (lines : list string) :
  Forall (λ line, includes newline line = false) lines →
  Forall (λ line, trim line ≠ EmptyString) lines →
  nonBlankLines (unlines lines) = lines.
Proof.
  intros Hnl Hblank. unfold nonBlankLines. rewrite split_unlines by done.
  rewrite filter_app, filter_cons, filter_nil, decide_False, app_nil_r by (by intros []).
  induction Hblank as [|line lines Hline _ IH]; [done|].
  apply Forall_cons in Hnl as [_ Hnl]. by rewrite filter_cons, decide_True, IH.
Qed.

Lemma nonBlankLines_plain content line :
  line ∈ nonBlankLines content →
  includes newline line = false ∧ trim line ≠ EmptyString
  ∧ (includes dquote content = false → includes dquote line = false).
Proof.
  unfold nonBlankLines. rewrite list_elem_of_filter. intros [Hblank Hin].
  split; [|split; [done|]].
  - pose proof (split_pieces newline content) as Hall.
    rewrite Forall_forall in Hall. by apply Hall.
  - intros Hq. pose proof (split_pieces_without dquote newline content Hq) as Hall.
    rewrite Forall_forall in Hall. by apply Hall.
Qed.

Lemma canonicalRow_line fields :
  canonicalRow fields →
  includes newline (join comma fields) = false ∧ trim (join comma fields) ≠ EmptyString.
Proof.
  intros (_ & Hplain & Hblank). split; [|done].
  apply includes_join; [apply newline_not_comma|].
  eapply Forall_impl; [exact Hplain|]. by intros f (_ & ? & _).
Qed.

(** ** The CSV text of a table of plain fields *)

Lemma csvContent_unlines (table : list (list value)) (start : string) f :
  fold_left (λ csvContent row, csvContent +:+ f row +:+ String newline EmptyString)
    table start
  = start +:+ unlines (map f table).
Proof.
  revert start. induction table as [|row table IH]; intros start; simpl.
  - by rewrite append_nil_r.
  - by rewrite IH, !append_assoc.
Qed.

Lemma row_text_plain (fields : list string) :
  Forall plainField fields →
  map (λ field, joinText (quoteField field)) (map VString fields) = fields.
Proof.
  induction 1 as [|f fields (Hc & Hn & _) _ IH]; [done|].
  simpl. by rewrite Hc, Hn, IH.
Qed.

Lemma csvContent_canonical (dataset : Dataset string) :
  Forall canonicalRow (rows dataset) →
  csvContent (asValues dataset)
  = unlines (map (join comma) (headers dataset :: rows dataset)).
Proof.
  intros Hrows. unfold csvContent. rewrite csvContent_unlines. simpl.
  rewrite append_assoc. simpl. do 2 f_equal. rewrite map_map.
  induction Hrows as [|row table (_ & Hplain & _) _ IH]; [done|].
  simpl. by rewrite row_text_plain, IH.
Qed.

Lemma parseRows_rows headers lines : ∀ table missingValues,
  fst (parseRows headers lines table missingValues) = table ++ map parseCSVLine lines.
Proof.
  induction lines as [|line lines IH]; intros table missingValues; simpl.
  - by rewrite app_nil_r.
  - by rewrite IH, <- app_assoc.
Qed.

(** What [parseCSV] reads: the header and the rows of the lines kept. *)
Lemma parseCSV_lines content :
  match nonBlankLines content with
  | [] => parseCSV content = None
  | line0 :: rest =>
      ∃ dataset, parseCSV content = Some dataset
        ∧ headers dataset = parseCSVLine line0
        ∧ rows dataset = map parseCSVLine rest
  end.
Proof.
  unfold parseCSV. destruct (nonBlankLines content) as [|line0 rest]; [done|].
  pose proof (parseRows_rows (parseCSVLine line0) rest [] ∅) as Hrows.
  destruct (parseRows _ _ _ _) as [table missingValues]. simpl in Hrows.
  eexists. split; [done|]. by split.
Qed.

Lemma map_parseCSVLine_join (table : list (list string)) :
  Forall canonicalRow table → map parseCSVLine (map (join comma) table) = table.
Proof.
  induction 1 as [|row table Hrow _ IH]; [done|].
  simpl. by rewrite parseCSVLine_join, IH.
Qed.

(** Reading the text of a canonical table gives the table back. *)
Lemma parseCSV_unlines (header : list string) (table : list (list string)) :
  canonicalRow header → Forall canonicalRow table →
  ∃ dataset, parseCSV (unlines (map (join comma) (header :: table))) = Some dataset
    ∧ headers dataset = header ∧ rows dataset = table.
Proof.
  intros Hheader Htable.
  pose proof (parseCSV_lines (unlines (map (join comma) (header :: table)))) as Hparse.
  rewrite nonBlankLines_unlines in Hparse.
  - simpl in Hparse. destruct Hparse as (dataset & Hparse & Hh & Hr).
    exists dataset. split; [done|].
    by rewrite Hh, Hr, parseCSVLine_join, map_parseCSVLine_join.
  - apply Forall_fmap. eapply Forall_impl; [exact (Forall_cons_2 _ _ _ Hheader Htable)|].
    intros row Hrow. by apply canonicalRow_line.
  - apply Forall_fmap. eapply Forall_impl; [exact (Forall_cons_2 _ _ _ Hheader Htable)|].
    intros row Hrow. by apply canonicalRow_line.
Qed.

(** A text without quotes parses to a canonical table. *)
Lemma parseCSV_canonical content dataset :
  includes dquote content = false → parseCSV content = Some dataset →
  canonicalRow (headers dataset) ∧ Forall canonicalRow (rows dataset).
Proof.
  intros Hq Hparse. pose proof (parseCSV_lines content) as Hlines.
  pose proof (nonBlankLines_plain content) as Hplain.
  destruct (nonBlankLines content) as [|line0 rest]; [congruence|].
  destruct Hlines as (dataset' & Hparse' & Hh & Hr).
  assert (dataset' = dataset) as -> by congruence.
  assert (∀ line, line ∈ line0 :: rest → canonicalRow (parseCSVLine line)) as Hcanon.
  { intros line Hin. destruct (Hplain line Hin) as (Hnl & Hblank & Hquote).
    apply parseCSVLine_canonical; auto. }
  rewrite Hh, Hr. split.
  - apply Hcanon. by left.
  - apply Forall_fmap, Forall_forall. intros line Hin. apply Hcanon. by right.
Qed.

(** Writing a parsed text back is idempotent as soon as the text holds no
    double quote. *)
Lemma parseThenSerialize_idempotent content text :
  includes dquote content = false →
  parseThenSerialize content = Some text → parseThenSerialize text = Some text.
Proof.
  unfold parseThenSerialize. intros Hq Hfirst.
  destruct (parseCSV content) as [dataset|] eqn:Hparse; [|done].
  injection Hfirst as <-.
  destruct (parseCSV_canonical content dataset Hq Hparse) as [Hheader Hrows].
  rewrite csvContent_canonical by done.
  destruct (parseCSV_unlines (headers dataset) (rows dataset) Hheader Hrows)
    as (dataset' & -> & Hh & Hr).
  f_equal. rewrite csvContent_canonical by (by rewrite Hr). by rewrite Hh, Hr.
Qed.

(** The first pass yields a text exactly when a line is left to parse. *)
Lemma parseThenSerialize_defined content :
  is_Some (parseThenSerialize content) ↔ nonBlankLines content ≠ [].
Proof.
  unfold parseThenSerialize. pose proof (parseCSV_lines content) as Hlines.
  destruct (nonBlankLines content) as [|line0 rest].
  - rewrite Hlines. split; [by intros [? ?]|done].
  - destruct Hlines as (dataset & -> & _). split; [done|]. by eexists.
Qed.

Lemma rawFields_without_quotes content :
  Forall plainField (rawFields content) → includes dquote content = false.
Proof.
  unfold rawFields. intros Hplain.
  rewrite <- (join_split newline content).
  apply includes_join; [done|].
  rewrite Forall_concat, Forall_fmap in Hplain.
  eapply Forall_impl; [exact Hplain|]. intros line Hline. simpl in Hline.
  rewrite <- (join_split comma line). apply includes_join; [apply dquote_not_comma|].
  eapply Forall_impl; [exact Hline|]. by intros f (_ & _ & ? & _).
Qed.

(** C6. For a text whose fields hold no comma, no line break, no double
    quote and no surrounding white space, parsing and writing back is
    idempotent: applied to its own output it returns that output. *)
Theorem serialize_after_parse_idempotent (content text : string) :
  Forall plainField (rawFields content) →
  parseThenSerialize content = Some text →
  parseThenSerialize text = Some text.
Proof.
  intros Hplain. apply parseThenSerialize_idempotent.
  by apply rawFields_without_quotes.
Qed.

Lemma serialize_after_parse_idempotent_witness :
  let content :=
    "name,age" +:+ String newline (String newline ("Ann,30" +:+ String newline "Bob,") ) in
  let text :=
    "name,age" +:+ String newline ("Ann,30" +:+ String newline ("Bob," +:+ String newline EmptyString)) in
  parseThenSerialize text = Some text.
Proof.
  apply (serialize_after_parse_idempotent
           ("name,age" +:+ String newline (String newline ("Ann,30" +:+ String newline "Bob,")))).
  - repeat (constructor; [repeat split; reflexivity|]). constructor.
  - vm_compute. reflexivity.
Defined.

(** ** Computations on the heap *)

Section Heap.
Implicit Types (h : heap) (l : loc) (o : object).

Lemma wp_ret {A} (a : A) h (Q : A → heap → Prop) : Q a h → wp (ret a) h Q.
Proof. intros HQ. by exists a, h. Qed.

Lemma wp_bind {A B} (c : M A) (k : A → M B) h (Q : B → heap → Prop) :
  wp c h (λ a h', wp (k a) h' Q) → wp (bind c k) h Q.
Proof.
  intros (a & h' & Hc & b & h'' & Hk & HQ). exists b, h''.
  unfold bind. by rewrite Hc.
Qed.

Lemma wp_mono {A} (c : M A) h (Q Q' : A → heap → Prop) :
  wp c h Q → (∀ a h', Q a h' → Q' a h') → wp c h Q'.
Proof. intros (a & h' & Hc & HQ) Himpl. exists a, h'. auto. Qed.

Lemma wp_alloc o h (Q : loc → heap → Prop) :
  (∀ l, h !! l = None → Q l (<[l := o]> h)) → wp (alloc o) h Q.
Proof.
  intros HQ. eexists _, _. split; [reflexivity|]. apply HQ.
  apply not_elem_of_dom, is_fresh.
Qed.

Lemma wp_load l o h (Q : object → heap → Prop) :
  h !! l = Some o → Q o h → wp (load l) h Q.
Proof. intros Hl HQ. exists o, h. unfold load. by rewrite Hl. Qed.

Lemma wp_store l o o' h (Q : unit → heap → Prop) :
  h !! l = Some o' → Q tt (<[l := o]> h) → wp (store l o) h Q.
Proof. intros Hl HQ. eexists _, _. unfold store. by rewrite Hl. Qed.

Lemma wp_loadRow l cells h (Q : list value → heap → Prop) :
  h !! l = Some (ORow cells) → Q cells h → wp (loadRow l) h Q.
Proof. intros Hl HQ. apply wp_bind, (wp_load l (ORow cells)); [done|]. by apply wp_ret. Qed.

(** *** Rows in the store *)

Lemma viewRows_lookup h rowLocs table l :
  viewRows h rowLocs = Some table → l ∈ rowLocs → ∃ cells, h !! l = Some (ORow cells).
Proof.
  revert table. induction rowLocs as [|l' rowLocs IH]; intros table Hview Hin.
  - by apply elem_of_nil in Hin.
  - simpl in Hview. destruct (h !! l') as [[]|] eqn:Hl'; try done.
    destruct (viewRows h rowLocs) as [table'|]; [|done].
    apply elem_of_cons in Hin as [->|Hin]; eauto.
Qed.

Lemma viewRows_agree h h' rowLocs :
  (∀ l, l ∈ rowLocs → h' !! l = h !! l) → viewRows h' rowLocs = viewRows h rowLocs.
Proof.
  induction rowLocs as [|l rowLocs IH]; intros Hagree; simpl; [done|].
  rewrite Hagree by (by left). rewrite IH; [done|]. intros; apply Hagree; by right.
Qed.

Lemma viewRows_mono h h' rowLocs table :
  h ⊆ h' → viewRows h rowLocs = Some table → viewRows h' rowLocs = Some table.
Proof.
  intros Hsub Hview. rewrite <- Hview. apply viewRows_agree.
  intros l Hin. destruct (viewRows_lookup h rowLocs table l Hview Hin) as [cells Hl].
  rewrite Hl. by eapply lookup_weaken.
Qed.

(** Updating an object that is not a row leaves the rows as they are. *)
Lemma viewRows_insert h rowLocs table l o :
  viewRows h rowLocs = Some table → (∀ cells, h !! l ≠ Some (ORow cells)) →
  viewRows (<[l := o]> h) rowLocs = Some table.
Proof.
  intros Hview Hl. rewrite <- Hview. apply viewRows_agree.
  intros l' Hin. destruct (viewRows_lookup h rowLocs table l' Hview Hin) as [cells Hl'].
  rewrite lookup_insert_ne; [done|]. intros ->. by eapply Hl.
Qed.

Lemma viewRows_length h rowLocs table :
  viewRows h rowLocs = Some table → length table = length rowLocs.
Proof.
  revert table. induction rowLocs as [|l rowLocs IH]; intros table Hview; simpl in *.
  - by injection Hview as <-.
  - destruct (h !! l) as [[]|]; try done.
    destruct (viewRows h rowLocs) as [table'|]; [|done].
    injection Hview as <-. simpl. by rewrite (IH table').
Qed.

(** *** The loops *)

(** [rows.map(row => [...row])]: the copies are new, distinct arrays with
    the cells of the originals. *)
Lemma wp_copyRows rowLocs : ∀ h table,
  viewRows h rowLocs = Some table →
  wp (mapM copyRow rowLocs) h
    (λ rows' h', h ⊆ h' ∧ viewRows h' rows' = Some table
                 ∧ NoDup rows' ∧ Forall (λ l, h !! l = None) rows').
Proof.
  induction rowLocs as [|l rowLocs IH]; intros h table Hview; simpl in *.
  - injection Hview as <-. apply wp_ret.
    split; [done|]. split; [done|]. split; constructor.
  - destruct (h !! l) as [[| cells | | | |]|] eqn:Hl; try done.
    destruct (viewRows h rowLocs) as [table'|] eqn:Hrest; [|done].
    injection Hview as <-.
    apply wp_bind. unfold copyRow. apply wp_bind, (wp_loadRow l cells); [done|].
    apply wp_alloc. intros l' Hfresh.
    assert (h ⊆ <[l' := ORow cells]> h) as Hsub by by apply insert_subseteq.
    apply wp_bind. eapply wp_mono.
    { apply (IH _ table'). by eapply viewRows_mono. }
    intros rows' h' (Hsub' & Hview' & Hnodup & Hnew). apply wp_ret.
    assert (h' !! l' = Some (ORow cells)) as Hl'
      by (eapply lookup_weaken; [apply lookup_insert_eq | done]).
    assert (l' ∉ rows') as Hnotin.
    { intros Hin. rewrite Forall_forall in Hnew. specialize (Hnew l' Hin).
      by rewrite lookup_insert_eq in Hnew. }
    split; [by etrans|]. split; [simpl; by rewrite Hl', Hview'|].
    split; [by constructor|]. constructor; [done|].
    eapply Forall_impl; [exact Hnew|]. intros l'' Hl''. simpl in Hl''.
    by apply lookup_insert_None in Hl'' as [? _].
Qed.

Lemma wp_loadTable rowLocs : ∀ h table (Q : list (list value) → heap → Prop),
  viewRows h rowLocs = Some table → Q table h → wp (mapM loadRow rowLocs) h Q.
Proof.
  induction rowLocs as [|l rowLocs IH]; intros h table Q Hview HQ; simpl in *.
  - injection Hview as <-. by apply wp_ret.
  - destruct (h !! l) as [[| cells | | | |]|] eqn:Hl; try done.
    destruct (viewRows h rowLocs) as [table'|] eqn:Hrest; [|done].
    injection Hview as <-.
    apply wp_bind, (wp_loadRow l cells); [done|].
    apply wp_bind, (IH _ table'); [done|]. by apply wp_ret.
Qed.

(** [result.rows.filter(row => !row.some(cell => cell === ''))] *)
Lemma wp_filterRows rowLocs : ∀ h table,
  viewRows h rowLocs = Some table →
  wp (filterM (λ row, let* cells := loadRow row in ret (complete cells)) rowLocs) h
    (λ kept h', h' = h
                ∧ viewRows h kept = Some (filter (λ row, complete row = true) table)).
Proof.
  induction rowLocs as [|l rowLocs IH]; intros h table Hview; simpl in *.
  - injection Hview as <-. by apply wp_ret.
  - destruct (h !! l) as [[| cells | | | |]|] eqn:Hl; try done.
    destruct (viewRows h rowLocs) as [table'|] eqn:Hrest; [|done].
    injection Hview as <-.
    apply wp_bind, wp_bind, (wp_loadRow l cells); [done|]. apply wp_ret.
    apply wp_bind. eapply wp_mono; [by apply (IH _ table')|].
    intros kept h' [-> Hkept]. apply wp_ret. split; [done|].
    rewrite filter_cons. destruct (decide (complete cells = true)) as [Hc|Hc].
    + rewrite Hc. simpl. by rewrite Hl, Hkept.
    + apply not_true_is_false in Hc. by rewrite Hc.
Qed.

Lemma bind_run {A B} (c : M A) (k : A → M B) h a h' :
  c h = Some (a, h') → bind c k h = k a h'.
Proof. intros Hc. unfold bind. by rewrite Hc. Qed.

Lemma loadRow_run l cells h :
  h !! l = Some (ORow cells) → loadRow l h = Some (cells, h).
Proof. intros Hl. unfold loadRow, bind, load. by rewrite Hl. Qed.

Lemma store_run l o o' h :
  h !! l = Some o' → store l o h = Some (tt, <[l := o]> h).
Proof. intros Hl. unfold store. by rewrite Hl. Qed.

Lemma fillCellAt_run fillValues l colIndex cells h :
  h !! l = Some (ORow cells) →
  fillCellAt fillValues l colIndex h
  = Some (tt, <[l := ORow (fillCell fillValues colIndex cells)]> h).
Proof.
  intros Hl. unfold fillCellAt, fillCell.
  rewrite (bind_run _ _ _ _ _ (loadRow_run _ _ _ Hl)).
  destruct (_ && _); [|unfold ret; by rewrite insert_id].
  rewrite (bind_run _ _ _ _ _ (store_run _ _ _ _ Hl)).
  destruct (fillAt fillValues colIndex); try done.
  rewrite (bind_run _ _ _ _ _ (loadRow_run _ _ _ (lookup_insert_eq _ _ _))).
  rewrite (store_run _ _ _ _ (lookup_insert_eq _ _ _)).
  by rewrite insert_insert_eq.
Qed.

Lemma fillRowAt_from fillValues l (headers : list string) : ∀ i cells h,
  h !! l = Some (ORow cells) →
  forEachFromM i headers (λ _ colIndex, fillCellAt fillValues l colIndex) h
  = Some (tt, <[l := ORow (forEachFrom i headers
                             (λ _ colIndex row, fillCell fillValues colIndex row) cells)]> h).
Proof.
  induction headers as [|name headers IH]; intros i cells h Hl; simpl.
  - unfold ret. by rewrite insert_id.
  - rewrite (bind_run _ _ _ _ _ (fillCellAt_run _ _ _ cells _ Hl)).
    rewrite (IH _ (fillCell fillValues i cells)) by apply lookup_insert_eq.
    by rewrite insert_insert_eq.
Qed.

(** The apply loop rewrites each row array in place and nothing else. *)
Lemma wp_fillRows headers fillValues rowLocs : ∀ i h table,
  NoDup rowLocs → viewRows h rowLocs = Some table →
  wp (forEachFromM i rowLocs (λ row _, fillRowAt headers fillValues row)) h
    (λ _ h', viewRows h' rowLocs = Some (map (fillRow headers fillValues) table)
             ∧ ∀ l, l ∉ rowLocs → h' !! l = h !! l).
Proof.
  induction rowLocs as [|l rowLocs IH]; intros i h table Hnodup Hview; simpl in *.
  - injection Hview as <-. by apply wp_ret.
  - destruct (h !! l) as [[| cells | | | |]|] eqn:Hl; try done.
    destruct (viewRows h rowLocs) as [table'|] eqn:Hrest; [|done].
    injection Hview as <-. apply NoDup_cons in Hnodup as [Hnotin Hnodup].
    apply wp_bind. eexists tt, _. split; [by apply fillRowAt_from|].
    fold (fillRow headers fillValues cells).
    eapply wp_mono.
    { apply (IH _ _ table'); [done|]. rewrite <- Hrest. apply viewRows_agree.
      intros l' Hin. apply lookup_insert_ne. by intros ->. }
    intros [] h' [Hview' Hother]. split.
    + simpl. by rewrite Hother, lookup_insert_eq, Hview'.
    + intros l' Hl'. apply not_elem_of_cons in Hl' as [Hne Hl'].
      by rewrite Hother, lookup_insert_ne.
Qed.
End Heap.

(** ** [processData] leaves the global dataset alone *)

Lemma view_inv (h : heap) (d : loc) (dataset : Dataset value) :
  view h d = Some dataset →
  ∃ headersAt rowsAt statsAt countsAt rowLocs,
    h !! d = Some (ODataset headersAt rowsAt statsAt)
    ∧ h !! headersAt = Some (OHeaders (headers dataset))
    ∧ h !! rowsAt = Some (ORows rowLocs)
    ∧ h !! statsAt = Some (OStats (totalRows (stats dataset)) countsAt)
    ∧ h !! countsAt = Some (OCounts (missingValues (stats dataset)))
    ∧ viewRows h rowLocs = Some (rows dataset).
Proof.
  unfold view. intros Hview.
  destruct (h !! d) as [[| | | | |headersAt rowsAt statsAt]|]; try done.
  destruct (h !! headersAt) as [[names| | | | |]|] eqn:Hh; try done.
  destruct (h !! rowsAt) as [[| |rowLocs| | |]|] eqn:Hr; try done.
  destruct (h !! statsAt) as [[| | | |total countsAt|]|] eqn:Hs; try done.
  destruct (viewRows h rowLocs) as [table|] eqn:Ht; try done.
  destruct (h !! countsAt) as [[| | |props| |]|] eqn:Hc; try done.
  injection Hview as <-. by exists headersAt, rowsAt, statsAt, countsAt, rowLocs.
Qed.

Lemma view_intro (h : heap) (d headersAt rowsAt statsAt countsAt : loc) names rowLocs
    table total props :
  h !! d = Some (ODataset headersAt rowsAt statsAt) →
  h !! headersAt = Some (OHeaders names) →
  h !! rowsAt = Some (ORows rowLocs) →
  h !! statsAt = Some (OStats total countsAt) →
  h !! countsAt = Some (OCounts props) →
  viewRows h rowLocs = Some table →
  view h d = Some (mkDataset names table (mkStats total props)).
Proof. intros Hd Hh Hr Hs Hc Ht. unfold view. by rewrite Hd, Hh, Hr, Hs, Ht, Hc. Qed.

(** A store that only grew denotes the same dataset. *)
Lemma view_mono (h h' : heap) (d : loc) (dataset : Dataset value) :
  h ⊆ h' → view h d = Some dataset → view h' d = Some dataset.
Proof.
  intros Hsub Hview.
  destruct (view_inv h d dataset Hview)
    as (headersAt & rowsAt & statsAt & countsAt & rowLocs & Hd & Hh & Hr & Hs & Hc & Ht).
  destruct dataset as [names table [total props]]. simpl in *.
  eapply view_intro; eauto using lookup_weaken, viewRows_mono.
Qed.

Lemma processDataAt_spec (h : heap) (d : loc) (dataset : Dataset string)
    (method : string) (knnNeighbors : Z) :
  view h d = Some (asValues dataset) →
  wp (processDataAt d method knnNeighbors) h
    (λ result h', h ⊆ h' ∧ view h' result = Some (processData dataset method knnNeighbors)).
Proof.
  intros Hview.
  destruct (view_inv h d _ Hview)
    as (headersAt & rowsAt & statsAt & countsAt & rowLocs & Hd & Hh & Hr & Hs & Hc & Ht).
  simpl in Hh, Hs, Hc, Ht.
  set (names := headers dataset) in *. set (table := map (map VString) (rows dataset)) in *.
  set (total := totalRows (stats dataset)) in *.
  set (counts := missingValues (stats dataset)) in *.
  unfold processDataAt.
  apply wp_bind, wp_bind, (wp_load d _ _ _ Hd), wp_ret.
  apply wp_bind, wp_bind, (wp_load headersAt _ _ _ Hh), wp_ret.
  apply wp_bind, wp_bind, (wp_load rowsAt _ _ _ Hr), wp_ret.
  apply wp_bind, wp_bind, (wp_load statsAt _ _ _ Hs), wp_ret.
  apply wp_bind, wp_bind, (wp_load countsAt _ _ _ Hc), wp_ret.
  apply wp_bind, wp_alloc. intros lh Hlh.
  apply wp_bind. eapply wp_mono.
  { apply (wp_copyRows rowLocs _ table). eapply viewRows_mono; [|exact Ht].
    by apply insert_subseteq. }
  intros rows' h2 (Hsub2 & Hrows2 & Hnodup & Hnew).
  assert (h ⊆ h2) as Hsub by (etrans; [by apply insert_subseteq | done]).
  assert (h2 !! lh = Some (OHeaders names)) as Hlh2
    by (eapply lookup_weaken; [apply lookup_insert_eq | done]).
  apply wp_bind, wp_alloc. intros lr Hlr.
  apply wp_bind, wp_alloc. intros lc Hlc.
  apply wp_bind, wp_alloc. intros ls Hls.
  apply wp_bind, wp_alloc. intros res Hres.
  apply lookup_insert_None in Hlc as [Hlc Hlc_lr].
  apply lookup_insert_None in Hls as [Hls Hls_lc].
  apply lookup_insert_None in Hls as [Hls Hls_lr].
  apply lookup_insert_None in Hres as [Hres Hres_ls].
  apply lookup_insert_None in Hres as [Hres Hres_lc].
  apply lookup_insert_None in Hres as [Hres Hres_lr].
  pose proof (not_eq_sym Hlc_lr). pose proof (not_eq_sym Hls_lc).
  pose proof (not_eq_sym Hls_lr). pose proof (not_eq_sym Hres_ls).
  pose proof (not_eq_sym Hres_lc). pose proof (not_eq_sym Hres_lr).
  assert (∀ l, h2 !! l = None → l ≠ lh) as Hfresh_lh by (intros l Hl ->; congruence).
  pose proof (Hfresh_lh lr Hlr). pose proof (Hfresh_lh lc Hlc).
  pose proof (Hfresh_lh ls Hls). pose proof (Hfresh_lh res Hres).
  assert (∀ l, h2 !! l = None → l ∉ rows') as Hfresh_rows.
  { intros l Hl Hin. destruct (viewRows_lookup h2 rows' table l Hrows2 Hin). congruence. }
  set (h6 := <[res := ODataset lh lr ls]>
               (<[ls := OStats total lc]> (<[lc := OCounts counts]> (<[lr := ORows rows']> h2)))).
  assert (h2 ⊆ h6) as Hsub6.
  { unfold h6. repeat (etrans; [|apply insert_subseteq]); [done|..];
      by rewrite ?lookup_insert_ne by done. }
  assert (viewRows h6 rows' = Some table) as Hrows6 by by eapply viewRows_mono.
  assert (h6 !! res = Some (ODataset lh lr ls)) as Hres6 by apply lookup_insert_eq.
  assert (h6 !! ls = Some (OStats total lc)) as Hls6
    by (unfold h6; by rewrite lookup_insert_ne, lookup_insert_eq by done).
  assert (h6 !! lc = Some (OCounts counts)) as Hlc6
    by (unfold h6; by rewrite !lookup_insert_ne, lookup_insert_eq by done).
  assert (h6 !! lr = Some (ORows rows')) as Hlr6
    by (unfold h6; by rewrite !lookup_insert_ne, lookup_insert_eq by done).
  assert (h6 !! lh = Some (OHeaders names)) as Hlh6 by by eapply lookup_weaken.
  assert (h ⊆ h6) as Hsub06 by by etrans.
  assert (h !! res = None ∧ h !! ls = None) as [Hres0 Hls0].
  { split; eapply lookup_weaken_None; eauto. }
  clearbody h6.
  case_bool_decide as Hmethod.
  - (* drop *)
    subst method. apply wp_bind. eapply wp_mono; [by apply (wp_filterRows rows' h6 table)|].
    intros kept h' [-> Hkept].
    apply wp_bind, wp_alloc. intros lk Hlk.
    assert (lk ≠ res ∧ lk ≠ ls ∧ lk ≠ lc ∧ lk ≠ lh) as (? & ? & ? & ?)
      by (repeat split; intros ->; congruence).
    apply wp_bind, (wp_store res _ (ODataset lh lr ls));
      [by rewrite lookup_insert_ne by done|].
    apply wp_bind, (wp_store ls _ (OStats total lc));
      [by rewrite !lookup_insert_ne by done|].
    apply wp_ret. split.
    + apply insert_subseteq_r; [done|]. apply insert_subseteq_r; [done|].
      etrans; [exact Hsub06|]. by apply insert_subseteq.
    + unfold processData. rewrite bool_decide_eq_true_2 by done. simpl. fold table.
      apply (view_intro _ res lh lk ls lc _ kept).
      * by rewrite lookup_insert_ne, lookup_insert_eq by done.
      * by rewrite !lookup_insert_ne by done.
      * by rewrite !lookup_insert_ne, lookup_insert_eq by done.
      * rewrite lookup_insert_eq. do 3 f_equal.
        symmetry. by eapply viewRows_length.
      * by rewrite !lookup_insert_ne by done.
      * repeat apply viewRows_insert; try done; intros cells.
        -- by rewrite Hlk.
        -- by rewrite lookup_insert_ne, Hres6 by done.
        -- by rewrite !lookup_insert_ne, Hls6 by done.
  - (* mean, median, mode, knn *)
    apply wp_bind, (wp_loadTable rows' h6 table); [done|].
    apply wp_bind. eapply wp_mono; [by apply (wp_fillRows names _ rows' 0 h6 table)|].
    intros [] h7 [Hrows7 Hother].
    assert (lh ∉ rows') as Hlh_rows.
    { intros Hin. rewrite Forall_forall in Hnew. specialize (Hnew lh Hin).
      by rewrite lookup_insert_eq in Hnew. }
    assert (h7 !! res = Some (ODataset lh lr ls)) as Hres7 by (rewrite Hother; auto).
    assert (h7 !! ls = Some (OStats total lc)) as Hls7 by (rewrite Hother; auto).
    assert (h7 !! lr = Some (ORows rows')) as Hlr7 by (rewrite Hother; auto).
    assert (h7 !! lh = Some (OHeaders names)) as Hlh7 by (rewrite Hother; auto).
    assert (h ⊆ h7) as Hsub07.
    { apply map_subseteq_spec. intros l o Hl. rewrite Hother.
      - by eapply lookup_weaken.
      - intros Hin. rewrite Forall_forall in Hnew. specialize (Hnew l Hin).
        apply lookup_insert_None in Hnew as [? _]. congruence. }
    apply wp_bind, wp_alloc. intros le Hle.
    assert (le ≠ res ∧ le ≠ ls ∧ le ≠ lr ∧ le ≠ lh) as (? & ? & ? & ?)
      by (repeat split; intros ->; congruence).
    apply wp_bind, (wp_store ls _ (OStats total lc));
      [by rewrite lookup_insert_ne by done|].
    apply wp_ret. split.
    + apply insert_subseteq_r; [done|]. etrans; [exact Hsub07|]. by apply insert_subseteq.
    + rewrite processData_fill by done. simpl. fold table names total.
      apply (view_intro _ res lh lr ls le _ rows').
      * by rewrite !lookup_insert_ne by done.
      * by rewrite !lookup_insert_ne by done.
      * by rewrite !lookup_insert_ne by done.
      * by rewrite lookup_insert_eq.
      * by rewrite lookup_insert_ne, lookup_insert_eq by done.
      * repeat apply viewRows_insert; try done; intros cells.
        -- by rewrite Hle.
        -- by rewrite lookup_insert_ne, Hls7 by done.
Qed.

(** C9. [processData] returns, and every array and object that existed
    before the call is unchanged afterwards: the global dataset still has
    its headers, rows, totalRows and missingValues, and the result is the
    dataset of the pure function. *)
Theorem processData_leaves_dataset_unchanged (h : heap) (d : loc)
    (dataset : Dataset string) (method : string) (knnNeighbors : Z) :
  view h d = Some (asValues dataset) →
  ∃ result h',
    processDataAt d method knnNeighbors h = Some (result, h')
    ∧ (∀ l o, h !! l = Some o → h' !! l = Some o)
    ∧ view h' d = Some (asValues dataset)
    ∧ view h' result = Some (processData dataset method knnNeighbors).
Proof.
  intros Hview.
  destruct (processDataAt_spec h d dataset method knnNeighbors Hview)
    as (result & h' & Hrun & Hsub & Hresult).
  exists result, h'. split; [done|]. split; [|split; [|done]].
  - intros l o Hl. by eapply lookup_weaken.
  - by eapply view_mono.
Qed.

Lemma processData_leaves_dataset_unchanged_witness :
  ∃ result h',
    processDataAt 1 "mean" 5 sampleHeap = Some (result, h')
    ∧ (∀ l o, sampleHeap !! l = Some o → h' !! l = Some o)
    ∧ view h' 1 = Some (asValues sampleDataset)
    ∧ view h' result = Some (processData sampleDataset "mean" 5).
Proof.
  apply (processData_leaves_dataset_unchanged sampleHeap 1 sampleDataset "mean" 5).
  vm_compute. reflexivity.
Defined.

(** ** The examples of the specification *)

Lemma median_even_example :
  columnFill "median" [VString "1"; VString "2"; VString "3"; VString "4"]
  = Some (VNumber 2.5).
Proof. vm_compute. reflexivity. Qed.

Lemma mean_example :
  columnFill "mean" [VString "1"; VString "3"] = Some (VNumber 2)
  ∧ fillCell {[0 := VNumber 2]} 0 [VString EmptyString] = [VNumber 2].
Proof. split; vm_compute; reflexivity. Qed.

(** The end-to-end example: three rows, one missing value in each column;
    mean fills the age of Bob with 27.5 and leaves the empty name. *)
Lemma end_to_end_example :
  ∃ dataset, parseCSV exampleInput = Some dataset
    ∧ totalRows (stats dataset) = 3%Z
    ∧ missingCount (missingValues (stats dataset)) "age" = Some 1
    ∧ missingCount (missingValues (stats dataset)) "name" = Some 1
    ∧ rows (processData dataset "mean" 5)
      = [[VString "Ann"; VString "30"]; [VString "Bob"; VNumber 27.5];
         [VString EmptyString; VString "25"]]
    ∧ csvContent (processData dataset "mean" 5)
      = "name,age" +:+ String newline ("Ann,30" +:+ String newline
          ("Bob,27.5" +:+ String newline (",25" +:+ String newline EmptyString))).
Proof. eexists. split; [reflexivity|]. repeat split; vm_compute; reflexivity. Qed.

(** * Further properties of the script *)

(** ** The fields of [parseCSVLine] *)

Lemma parseCSVLine_loop_clean line : ∀ result inQuotes currentField,
  Forall (λ f, includes dquote f = false ∧ trim f = f) result →
  includes dquote currentField = false →
  Forall (λ f, includes dquote f = false ∧ trim f = f)
    (parseCSVLine_loop line result inQuotes currentField).
Proof.
  induction line as [|c line IH]; intros result inQuotes currentField Hres Hcur; simpl.
  - apply Forall_app. split; [done|]. constructor; [|done].
    split; [by apply trim_without | apply trim_idem].
  - case_bool_decide as Hq; [by apply IH|].
    destruct (bool_decide (c = comma) && negb inQuotes).
    + apply IH; [|done]. apply Forall_app. split; [done|]. constructor; [|done].
      split; [by apply trim_without | apply trim_idem].
    + apply IH; [done|]. rewrite includes_append, Hcur. simpl. by rewrite decide_False.
Qed.

Lemma parseCSVLine_loop_length line : ∀ result inQuotes currentField,
  length result < length (parseCSVLine_loop line result inQuotes currentField).
Proof.
  induction line as [|c line IH]; intros result inQuotes currentField; simpl.
  - rewrite length_app. simpl. lia.
  - case_bool_decide; [apply IH|].
    destruct (_ && _); [|apply IH].
    etrans; [|apply IH]. rewrite length_app. simpl. lia.
Qed.

Lemma parseCSVLine_nonempty (line : string) : parseCSVLine line ≠ [].
Proof.
  pose proof (parseCSVLine_loop_length line [] false EmptyString) as Hlen.
  unfold parseCSVLine. destruct (parseCSVLine_loop _ _ _ _); [simpl in Hlen; lia | done].
Qed.

(** X1. [parseCSVLine] returns at least one field for every line, and no
    field it returns holds a double quote or has white space around it. *)
Theorem parseCSVLine_fields_clean (line : string) :
  parseCSVLine line ≠ []
  ∧ ∀ field, field ∈ parseCSVLine line →
      includes dquote field = false ∧ trim field = field.
Proof.
  split; [apply parseCSVLine_nonempty|].
  apply Forall_forall. unfold parseCSVLine. by apply parseCSVLine_loop_clean.
Qed.

(** X2. On a line without double quote [parseCSVLine] is the split at the
    commas followed by the trim of every piece: one field more than the
    line has commas. *)
Theorem parseCSVLine_without_quotes (line : string) :
  includes dquote line = false →
  parseCSVLine line = map trim (split comma line)
  ∧ length (parseCSVLine line)
    = S (length (filter (λ c, c = comma) (String.list_ascii_of_string line))).
Proof.
  intros Hplain. rewrite parseCSVLine_plain by done. split; [done|].
  rewrite length_map. clear Hplain.
  induction line as [|c line IH]; simpl; [done|].
  rewrite filter_cons. pose proof (split_nonempty comma line) as Hne.
  case_decide; simpl; [by rewrite IH|].
  destruct (split comma line); [done|]. simpl in *. done.
Qed.

Lemma parseCSVLine_without_quotes_witness :
  parseCSVLine " a , b ,,c " = map trim (split comma " a , b ,,c ")
  ∧ length (parseCSVLine " a , b ,,c ")
    = S (length (filter (λ c, c = comma) (String.list_ascii_of_string " a , b ,,c "))).
Proof. apply (parseCSVLine_without_quotes " a , b ,,c "). reflexivity. Defined.

(** The characters of a text without double quote go to the current
    field, the commas too inside quotes. *)
Lemma parseCSVLine_loop_chars (s : string) : ∀ rest result inQuotes currentField,
  includes dquote s = false →
  inQuotes = true ∨ includes comma s = false →
  parseCSVLine_loop (s +:+ rest) result inQuotes currentField
  = parseCSVLine_loop rest result inQuotes (currentField +:+ s).
Proof.
  induction s as [|c s IH]; intros rest result inQuotes currentField Hq Hc; simpl.
  - by rewrite append_nil_r.
  - simpl in Hq. case_decide as Hcq; [done|].
    rewrite (bool_decide_eq_false_2 (c = dquote)) by done.
    assert (bool_decide (c = comma) && negb inQuotes = false) as ->.
    { destruct Hc as [->|Hc]; [apply andb_false_r|].
      simpl in Hc. case_decide; [done|]. by rewrite bool_decide_eq_false_2. }
    rewrite IH, append_assoc; [done..|].
    destruct Hc as [?|Hc]; [by left|right]. simpl in Hc. by case_decide.
Qed.

Lemma doubleQuotes_plain (s : string) : includes dquote s = false → doubleQuotes s = s.
Proof.
  induction s as [|c s IH]; simpl; [done|].
  case_decide; [done|]. intros Hs. by rewrite bool_decide_eq_false_2, IH.
Qed.

(** A field as [prepareDownload] writes it is read back whole. *)
Lemma parseCSVLine_loop_written (f : string) rest result currentField :
  includes dquote f = false →
  parseCSVLine_loop (joinText (quoteField (VString f)) +:+ rest) result false currentField
  = parseCSVLine_loop rest result false (currentField +:+ f).
Proof.
  intros Hq. unfold quoteField.
  destruct (includes comma f) eqn:Hc; simpl.
  - rewrite doubleQuotes_plain, append_assoc by done. simpl.
    rewrite parseCSVLine_loop_chars by auto. simpl. done.
  - destruct (includes newline f); simpl.
    + rewrite doubleQuotes_plain, append_assoc by done. simpl.
      rewrite parseCSVLine_loop_chars by auto. simpl. done.
    + by apply parseCSVLine_loop_chars; auto.
Qed.

Lemma parseCSVLine_loop_row (fields : list string) : ∀ result,
  fields ≠ [] → Forall (λ f, includes dquote f = false) fields →
  parseCSVLine_loop (join comma (map (λ f, joinText (quoteField (VString f))) fields))
    result false EmptyString
  = result ++ map trim fields.
Proof.
  induction fields as [|f fields IH]; intros result Hne Hall; [done|].
  apply Forall_cons in Hall as [Hf Hall].
  destruct fields as [|g fields].
  - pose proof (parseCSVLine_loop_written f EmptyString result EmptyString Hf) as Hrun.
    rewrite append_nil_r in Hrun. exact Hrun.
  - rewrite (map_cons _ f), join_cons by done.
    rewrite parseCSVLine_loop_written by done.
    simpl parseCSVLine_loop at 1. rewrite IH by done.
    by rewrite <- app_assoc.
Qed.

(** X3. A row of fields without double quote, written as [prepareDownload]
    writes a row (a field with a comma or a line break between double
    quotes), is read back by [parseCSVLine] field by field, each trimmed:
    a comma inside a field does not split it. *)
Theorem parseCSVLine_reads_written_row (fields : list string) :
  fields ≠ [] → Forall (λ f, includes dquote f = false) fields →
  parseCSVLine (join comma (map (λ f, joinText (quoteField (VString f))) fields))
  = map trim fields.
Proof. intros Hne Hall. unfold parseCSVLine. by rewrite parseCSVLine_loop_row. Qed.

Lemma parseCSVLine_reads_written_row_witness :
  parseCSVLine
    (join comma (map (λ f, joinText (quoteField (VString f))) ["Ann"; "Paris, France"; ""]))
  = map trim ["Ann"; "Paris, France"; ""].
Proof.
  apply (parseCSVLine_reads_written_row ["Ann"; "Paris, France"; ""]); [done|].
  repeat constructor.
Defined.

(** ** What [parseCSV] accepts *)

Lemma parseCSV_spec content :
  match nonBlankLines content with
  | [] => parseCSV content = None
  | line0 :: rest =>
      ∃ dataset, parseCSV content = Some dataset
        ∧ headers dataset = parseCSVLine line0
        ∧ rows dataset = map parseCSVLine rest
        ∧ totalRows (stats dataset) = Z.of_nat (length rest)
  end.
Proof.
  unfold parseCSV. destruct (nonBlankLines content) as [|line0 rest]; [done|].
  pose proof (parseRows_rows (parseCSVLine line0) rest [] ∅) as Hrows.
  destruct (parseRows _ _ _ _) as [table missingValues]. simpl in Hrows.
  eexists. split; [done|]. simpl. repeat split; [done|]. lia.
Qed.

Lemma filter_nil_Forall {A} (P : A → Prop) `{∀ x, Decision (P x)} (xs : list A) :
  filter P xs = [] ↔ Forall (λ x, ¬ P x) xs.
Proof.
  induction xs as [|x xs IH]; [by split; [constructor|]|].
  rewrite filter_cons, Forall_cons. case_decide as Hx.
  - split; [done | by intros [? _]].
  - rewrite IH. split; [done | by intros [_ ?]].
Qed.

(** X4. [parseCSV] raises its TypeError exactly on a text all of whose
    lines are blank (the empty text among them); on any other text it
    returns a dataset. *)
Theorem parseCSV_fails_on_blank_text (content : string) :
  parseCSV content = None
  ↔ Forall (λ line, trim line = EmptyString) (split newline content).
Proof.
  pose proof (parseCSV_spec content) as Hspec. unfold nonBlankLines in Hspec.
  destruct (filter _ _) as [|line0 rest] eqn:Hlines.
  - split; [intros _|done]. apply filter_nil_Forall in Hlines.
    eapply Forall_impl; [exact Hlines|]. intros line Hline. simpl in Hline.
    by destruct (decide (trim line = EmptyString)).
  - destruct Hspec as (dataset & -> & _). split; [done|]. intros Hblank.
    assert (line0 ∈ filter (λ line, trim line ≠ EmptyString) (split newline content)) as Hin
      by (rewrite Hlines; by left).
    apply list_elem_of_filter in Hin as [Hne Hin].
    rewrite Forall_forall in Hblank. by specialize (Hblank line0 Hin).
Qed.

(** X5. In a dataset returned by [parseCSV], totalRows is the number of
    rows, there is one row for every line that is not blank after the
    first such line, and the header line and every row hold at least one
    field. *)
Theorem parseCSV_counts_rows (content : string) (dataset : Dataset string) :
  parseCSV content = Some dataset →
  totalRows (stats dataset) = Z.of_nat (length (rows dataset))
  ∧ S (length (rows dataset)) = length (nonBlankLines content)
  ∧ headers dataset ≠ []
  ∧ Forall (λ row, row ≠ []) (rows dataset).
Proof.
  intros Hparse. pose proof (parseCSV_spec content) as Hspec.
  destruct (nonBlankLines content) as [|line0 rest]; [congruence|].
  destruct Hspec as (dataset' & Hparse' & Hh & Hr & Ht).
  assert (dataset' = dataset) as -> by congruence.
  rewrite Hh, Hr, Ht, length_map. repeat split.
  - apply parseCSVLine_nonempty.
  - apply Forall_fmap, Forall_forall. intros line _. apply parseCSVLine_nonempty.
Qed.

Lemma parseCSV_counts_rows_witness :
  ∃ dataset, parseCSV exampleInput = Some dataset
    ∧ totalRows (stats dataset) = Z.of_nat (length (rows dataset))
    ∧ S (length (rows dataset)) = length (nonBlankLines exampleInput)
    ∧ headers dataset ≠ []
    ∧ Forall (λ row, row ≠ []) (rows dataset).
Proof.
  eexists. split; [reflexivity|].
  apply (parseCSV_counts_rows exampleInput). reflexivity.
Defined.

(** ** Line ends *)

Lemma trimEnd_append_ws c s :
  isWhiteSpace c = true → trimEnd (s +:+ String c EmptyString) = trimEnd s.
Proof.
  intros Hc. induction s as [|a s IH]; simpl; [by rewrite Hc | by rewrite IH].
Qed.

Lemma trim_append_ws c s :
  isWhiteSpace c = true → trim (s +:+ String c EmptyString) = trim s.
Proof.
  intros Hc. unfold trim. induction s as [|a s IH]; simpl; [by rewrite Hc|].
  destruct (isWhiteSpace a); [done|].
  by rewrite <- (trimEnd_append_ws c (String a s)).
Qed.

Lemma parseCSVLine_loop_append_ws c line : ∀ result inQuotes currentField,
  isWhiteSpace c = true →
  parseCSVLine_loop (line +:+ String c EmptyString) result inQuotes currentField
  = parseCSVLine_loop line result inQuotes currentField.
Proof.
  induction line as [|a line IH]; intros result inQuotes currentField Hc; simpl.
  - assert (c ≠ dquote ∧ c ≠ comma) as [Hq Hcomma] by (split; intros ->; done).
    rewrite (bool_decide_eq_false_2 (c = dquote)), (bool_decide_eq_false_2 (c = comma)) by done.
    simpl. by rewrite trim_append_ws.
  - by rewrite !IH.
Qed.

Lemma sameLine_parse a b : sameLine a b → parseCSVLine a = parseCSVLine b.
Proof.
  intros [->| ->]; [done|]. unfold parseCSVLine.
  by rewrite parseCSVLine_loop_append_ws.
Qed.

Lemma sameLine_blank a b : sameLine a b → trim a = EmptyString ↔ trim b = EmptyString.
Proof. intros [->| ->]; [done|]. by rewrite trim_append_ws. Qed.

Lemma split_unixLines content :
  Forall2 sameLine (split newline (unixLines content)) (split newline content).
Proof.
  induction content as [|c rest IH]; simpl; [by repeat constructor; left|].
  pose proof (split_nonempty newline rest) as Hne.
  pose proof (split_nonempty newline (unixLines rest)) as Hne'.
  destruct (bool_decide (c = carriageReturn) && atLineBreak rest) eqn:Hcr.
  - apply andb_true_iff in Hcr as [Hc Hlb]. apply bool_decide_eq_true in Hc as ->.
    destruct rest as [|n rest]; [done|]. simpl in Hlb. apply bool_decide_eq_true in Hlb as ->.
    simpl in IH |- *.
    apply Forall2_cons in IH as [_ IH]. constructor; [by right | done].
  - clear Hcr. simpl. destruct (decide (c = newline)); [constructor; [by left | done]|].
    destruct IH as [|a b as_ bs Hab IH]; [done|].
    constructor; [|done]. destruct Hab as [->| ->]; [by left | by right].
Qed.

Lemma filter_sameLine (as_ bs : list string) :
  Forall2 sameLine as_ bs →
  Forall2 sameLine (filter (λ line, trim line ≠ EmptyString) as_)
    (filter (λ line, trim line ≠ EmptyString) bs).
Proof.
  induction 1 as [|a b as_ bs Hab _ IH]; [constructor|].
  rewrite !filter_cons. pose proof (sameLine_blank a b Hab) as Hblank.
  repeat case_decide; try done; try (by constructor).
  - exfalso. tauto.
  - exfalso. tauto.
Qed.

Lemma parseRows_parsed headers lines : ∀ lines' table missingValues,
  map parseCSVLine lines = map parseCSVLine lines' →
  parseRows headers lines table missingValues = parseRows headers lines' table missingValues.
Proof.
  induction lines as [|line lines IH]; intros [|line' lines'] table missingValues Heq;
    try done.
  simpl in *. injection Heq as Hline Hrest. rewrite Hline. by apply IH.
Qed.

(** X6. A text with the line ends of Windows is parsed as the same text
    with the line ends of Unix: [parseCSV] returns the same result, the
    statistics included, when every carriage return in front of a line
    break is removed. *)
Theorem parseCSV_ignores_carriage_returns (content : string) :
  parseCSV (unixLines content) = parseCSV content.
Proof.
  assert (map parseCSVLine (nonBlankLines (unixLines content))
          = map parseCSVLine (nonBlankLines content)) as Heq.
  { unfold nonBlankLines.
    pose proof (filter_sameLine _ _ (split_unixLines content)) as Hsame.
    induction Hsame as [|a b as_ bs Hab _ IH]; [done|].
    simpl. by rewrite (sameLine_parse a b), IH. }
  unfold parseCSV.
  destruct (nonBlankLines (unixLines content)) as [|line0 rest],
    (nonBlankLines content) as [|line0' rest']; try done.
  simpl in Heq. injection Heq as Hline Hrest.
  rewrite Hline, (parseRows_parsed _ rest rest') by done.
  apply (f_equal (length (A:=_))) in Hrest. rewrite !length_map in Hrest.
  simpl. by rewrite Hrest.
Qed.

(** ** Writing a table and reading it back *)

Lemma written_field_line (f : string) :
  writableField f → includes newline (joinText (quoteField (VString f))) = false.
Proof.
  intros (Hq & Hn & _). unfold quoteField. rewrite Hn, orb_false_r.
  destruct (includes comma f); simpl; [|done].
  by rewrite doubleQuotes_plain, includes_append, Hn by done.
Qed.

Lemma written_row_line (fields : list string) :
  writableRow fields →
  let line := join comma (map (λ f, joinText (quoteField (VString f))) fields) in
  includes newline line = false ∧ trim line ≠ EmptyString.
Proof.
  intros (Hne & Hblank & Hall) line. subst line. split.
  - apply includes_join; [apply newline_not_comma|].
    apply Forall_fmap. eapply Forall_impl; [exact Hall|].
    intros f Hf. by apply written_field_line.
  - destruct fields as [|f [|g fields]]; [done| |].
    + apply Forall_cons in Hall as [(Hq & Hn & Htrim) _]. simpl. unfold quoteField.
      rewrite Hn, orb_false_r. destruct (includes comma f) eqn:Hc; simpl.
      * by apply (trim_nonblank dquote).
      * rewrite Htrim. intros ->. done.
    + rewrite (map_cons _ f), join_cons by done.
      apply (trim_nonblank comma); [done|].
      rewrite includes_append. simpl. apply orb_true_r.
Qed.

Lemma csvContent_lines (dataset : Dataset string) :
  csvContent (asValues dataset)
  = unlines (join comma (headers dataset)
             :: map (λ row, join comma (map (λ f, joinText (quoteField (VString f))) row))
                  (rows dataset)).
Proof.
  unfold csvContent. rewrite csvContent_unlines.
  cbn [asValues headers rows unlines]. rewrite append_assoc.
  change (String newline EmptyString +:+ ?t) with (String newline t).
  do 3 f_equal. rewrite map_map. apply map_ext. intros row. by rewrite map_map.
Qed.

(** X7. The text [prepareDownload] writes for a table of strings is read
    back by [parseCSV] as the same headers and the same rows, with
    totalRows their number, when the header fields are plain, the fields
    of the rows hold no double quote, no line break and no surrounding
    white space (they may hold commas), and no row is a single empty
    field. *)
Theorem written_table_reads_back (dataset : Dataset string) :
  canonicalRow (headers dataset) → Forall writableRow (rows dataset) →
  ∃ dataset', parseCSV (csvContent (asValues dataset)) = Some dataset'
    ∧ headers dataset' = headers dataset
    ∧ rows dataset' = rows dataset
    ∧ totalRows (stats dataset') = Z.of_nat (length (rows dataset)).
Proof.
  intros Hheader Hrows. rewrite csvContent_lines.
  pose proof (parseCSV_spec
    (unlines (join comma (headers dataset)
              :: map (λ row, join comma (map (λ f, joinText (quoteField (VString f))) row))
                   (rows dataset)))) as Hspec.
  rewrite nonBlankLines_unlines in Hspec.
  - destruct Hspec as (dataset' & Hparse & Hh & Hr & Ht).
    exists dataset'. split; [done|]. rewrite Hh, Hr, Ht, length_map.
    split; [by apply parseCSVLine_join|]. split; [|done].
    rewrite map_map. clear Hparse Hh Hr Ht.
    induction Hrows as [|row table (Hne & _ & Hall) _ IH]; [done|].
    rewrite !map_cons, IH. f_equal. unfold parseCSVLine.
    rewrite parseCSVLine_loop_row.
    + simpl. clear Hne. induction Hall as [|f fields (_ & _ & Htrim) _ IHf]; [done|].
      simpl. by rewrite Htrim, IHf.
    + done.
    + eapply Forall_impl; [exact Hall|]. by intros f (? & _).
  - constructor; [by apply canonicalRow_line|].
    apply Forall_fmap. eapply Forall_impl; [exact Hrows|].
    intros row Hrow. by apply written_row_line.
  - constructor; [by apply canonicalRow_line|].
    apply Forall_fmap. eapply Forall_impl; [exact Hrows|].
    intros row Hrow. by apply written_row_line.
Qed.

Lemma written_table_reads_back_witness :
  let dataset :=
    mkDataset ["name"; "city"] [["Ann"; "Paris, France"]; ["Bob"; ""]] (mkStats 2 ∅) in
  ∃ dataset', parseCSV (csvContent (asValues dataset)) = Some dataset'
    ∧ headers dataset' = headers dataset
    ∧ rows dataset' = rows dataset
    ∧ totalRows (stats dataset') = Z.of_nat (length (rows dataset)).
Proof.
  apply (written_table_reads_back
           (mkDataset ["name"; "city"] [["Ann"; "Paris, France"]; ["Bob"; ""]] (mkStats 2 ∅))).
  - repeat split; try done. repeat constructor.
  - repeat constructor; done.
Defined.

(** ** The statistics of a header found on Object.prototype *)

Section Statistics.
Variable headers : list string.
Variable key : string.
Variable inv : gmap string count → nat → Prop.
Hypothesis inv_same : ∀ missingValues n,
  inv missingValues n → inv (recordMissing missingValues key) (S n).
Hypothesis inv_other : ∀ missingValues other n,
  other ≠ key → inv missingValues n → inv (recordMissing missingValues other) n.

Lemma trackMissing_inv values : ∀ i missingValues n,
  inv missingValues n →
  inv (forEachFrom i values
         (λ val idx missingValues,
            if bool_decide (val = EmptyString)
            then recordMissing missingValues (headerKey headers idx)
            else missingValues) missingValues)
      (forEachFrom i values (countBody headers key) n).
Proof using inv_same inv_other.
  induction values as [|val values IH]; intros i missingValues n Hn; simpl; [done|].
  apply IH. unfold countBody.
  case_bool_decide; simpl; [|done].
  case_bool_decide as Hkey; simpl.
  - rewrite Hkey. by apply inv_same.
  - by apply inv_other.
Qed.

Lemma parseRows_inv lines : ∀ table missingValues n,
  inv missingValues n →
  inv (snd (parseRows headers lines table missingValues))
      (n + emptyFieldsNamed headers key (map parseCSVLine lines)).
Proof using inv_same inv_other.
  induction lines as [|line lines IH]; intros table missingValues n Hn; simpl.
  - unfold emptyFieldsNamed. simpl. by rewrite Nat.add_0_r.
  - unfold emptyFieldsNamed in *. simpl. rewrite Nat.add_assoc. apply IH.
    unfold emptyUnder. fold (countBody headers key). rewrite <- countBody_acc.
    by apply trackMissing_inv.
Qed.
End Statistics.

Lemma recordMissing_inherited key missingValues n :
  inherited key = true → key ≠ "__proto__" →
  tallyInherited key missingValues n →
  tallyInherited key (recordMissing missingValues key) (S n).
Proof.
  intros Hinh Hproto. unfold tallyInherited, recordMissing, getProp, setProp. intros Hn.
  rewrite Hn, Hinh. destruct n as [|[|n]]; simpl;
    repeat (rewrite decide_False by done).
  - by rewrite Hn, lookup_insert_eq.
  - by rewrite ?Hn, !lookup_insert_eq.
  - by rewrite Hn, lookup_insert_eq.
Qed.

Lemma recordMissing_proto missingValues other :
  missingValues !! "__proto__" = None →
  recordMissing missingValues other !! "__proto__" = None.
Proof.
  intros Hnone. destruct (decide (other = "__proto__")) as [->|Hne].
  - unfold recordMissing, setProp. simpl. by destruct (falsy _).
  - by rewrite recordMissing_other.
Qed.

(** X8. For a header that is the name of a property of Object.prototype
    (constructor, toString, ...) the count [parseCSV] records is one less
    than the number of empty fields filed under it: the first increment
    stores NaN, which [analyzeMissingValues] shows as 0, and with no empty
    field at all the read yields the inherited function.  Under the name
    __proto__ nothing is ever recorded. *)
Theorem inherited_header_count (content : string) (dataset : Dataset string) (h : string) :
  parseCSV content = Some dataset →
  inherited h = true →
  missingCount (missingValues (stats dataset)) h
  = if decide (h = "__proto__") then None
    else match emptyFieldsNamed (headers dataset) h (rows dataset) with
         | O => None
         | S n => Some n
         end.
Proof.
  unfold parseCSV. intros Hparse Hinh.
  destruct (nonBlankLines content) as [|line0 rest]; [done|].
  pose proof (parseRows_rows (parseCSVLine line0) rest [] ∅) as Hrows.
  case_decide as Hproto.
  - subst h.
    pose proof (parseRows_inv (parseCSVLine line0) "__proto__"
                  (λ missingValues _, missingValues !! "__proto__" = None)
                  (λ missingValues n, recordMissing_proto missingValues "__proto__")
                  (λ missingValues other n _, recordMissing_proto missingValues other)
                  rest [] ∅ 0 (lookup_empty _)) as Hinv.
    destruct (parseRows _ _ _ _) as [table missingValues]. simpl in *.
    injection Hparse as <-. simpl. unfold missingCount, getProp. by rewrite Hinv.
  - pose proof (parseRows_inv (parseCSVLine line0) h (tallyInherited h)
                  (λ missingValues n, recordMissing_inherited h missingValues n Hinh Hproto))
      as Hinv.
    specialize (Hinv (λ missingValues other n Hne Hn,
                        eq_trans (recordMissing_other h missingValues other Hne) Hn)
                  rest [] ∅ 0 (lookup_empty _)).
    destruct (parseRows _ _ _ _) as [table missingValues]. simpl in *.
    injection Hparse as <-. simpl. subst table.
    unfold tallyInherited in Hinv. unfold missingCount, getProp. rewrite Hinv, ?Hinh.
    destruct (emptyFieldsNamed _ _ _) as [|[|n]]; by rewrite ?Hinh.
Qed.

Lemma inherited_header_count_witness :
  let content :=
    "id,constructor" +:+ String newline ("1," +:+ String newline ("2," +:+ String newline
      ("3," +:+ String newline EmptyString))) in
  ∃ dataset, parseCSV content = Some dataset
    ∧ emptyFieldsNamed (headers dataset) "constructor" (rows dataset) = 3
    ∧ missingCount (missingValues (stats dataset)) "constructor" = Some 2.
Proof.
  eexists. split; [reflexivity|]. split; [reflexivity|].
  apply (inherited_header_count
           ("id,constructor" +:+ String newline ("1," +:+ String newline ("2," +:+ String newline
              ("3," +:+ String newline EmptyString))))); reflexivity.
Defined.

(** ** The numbers [analyzeMissingValues] shows *)

Lemma emptyInColumn_le (table : list (list string)) (colIndex : nat) :
  emptyInColumn table colIndex ≤ length table.
Proof. unfold emptyInColumn. apply length_filter. Qed.

(** X9. For a header that names one column only (and is neither a
    property of Object.prototype nor, when a row is longer than the header
    line, the word undefined) the count recorded by [parseCSV] is at most
    totalRows: the percentage of [analyzeMissingValues] is computed from a
    count no greater than the number of rows. *)
Theorem missing_count_is_at_most_totalRows (content : string) (dataset : Dataset string)
    (h : string) (colIndex : nat) :
  parseCSV content = Some dataset →
  inherited h = false →
  headers dataset !! colIndex = Some h →
  (∀ j, headers dataset !! j = Some h → j = colIndex) →
  h ≠ "undefined" ∨ Forall (λ row, length row ≤ length (headers dataset)) (rows dataset) →
  ∃ n, missingCount (missingValues (stats dataset)) h = Some n
    ∧ (Z.of_nat n ≤ totalRows (stats dataset))%Z.
Proof.
  unfold parseCSV. intros Hparse Hown Hcol Huniq Hshape.
  destruct (nonBlankLines content) as [|line0 rest]; [done|].
  pose proof (parseRows_tally (parseCSVLine line0) h Hown rest [] ∅ 0 (lookup_empty _))
    as [Hrows Htally].
  destruct (parseRows _ _ _ _) as [table missingValues]. simpl in *.
  injection Hparse as <-. simpl in *. subst table.
  apply missingCount_tally in Htally; [|done].
  rewrite (emptyFieldsNamed_single _ _ colIndex) in Htally by done.
  eexists. split; [exact Htally|].
  pose proof (emptyInColumn_le (map parseCSVLine rest) colIndex) as Hle.
  rewrite length_map in Hle. lia.
Qed.

Lemma missing_count_is_at_most_totalRows_witness :
  let dataset :=
    mkDataset ["name"; "age"] [["Ann"; "30"]; ["Bob"; ""]; [""; "25"]]
      (mkStats 3 (<["name" := CNum 1]> (<["age" := CNum 1]> ∅))) in
  ∃ n, missingCount (missingValues (stats dataset)) "age" = Some n
    ∧ (Z.of_nat n ≤ totalRows (stats dataset))%Z.
Proof.
  apply (missing_count_is_at_most_totalRows exampleInput
           (mkDataset ["name"; "age"] [["Ann"; "30"]; ["Bob"; ""]; [""; "25"]]
              (mkStats 3 (<["name" := CNum 1]> (<["age" := CNum 1]> ∅)))) "age" 1).
  - vm_compute. reflexivity.
  - reflexivity.
  - reflexivity.
  - intros [|[|[|j]]] Hj; try done.
  - by left.
Defined.

(** X10. For a text that holds a header line and no row, totalRows is 0
    and the percentage [analyzeMissingValues] computes for any column is
    NaN: the division by the number of rows is not guarded. *)
Theorem header_only_file_shows_NaN (content : string) (dataset : Dataset string)
    (header : string) :
  parseCSV content = Some dataset →
  rows dataset = [] →
  totalRows (stats dataset) = 0%Z
  ∧ percentage (missingCount (missingValues (stats dataset)) header)
      (totalRows (stats dataset)) = "NaN".
Proof.
  unfold parseCSV. intros Hparse Hrows.
  destruct (nonBlankLines content) as [|line0 rest]; [done|].
  pose proof (parseRows_rows (parseCSVLine line0) rest [] ∅) as Hfst.
  destruct rest as [|line rest].
  - simpl in Hparse. injection Hparse as <-. simpl. split; [done|].
    unfold missingCount, getProp. rewrite lookup_empty.
    by destruct (inherited header).
  - destruct (parseRows _ _ _ _) as [table missingValues]. simpl in Hfst.
    injection Hparse as <-. simpl in Hrows. by subst table.
Qed.

Lemma header_only_file_shows_NaN_witness :
  let dataset : Dataset string := mkDataset ["name"; "age"] [] (mkStats 0 ∅) in
  totalRows (stats dataset) = 0%Z
  ∧ percentage (missingCount (missingValues (stats dataset)) "age")
      (totalRows (stats dataset)) = "NaN".
Proof.
  apply (header_only_file_shows_NaN ("name,age" +:+ String newline EmptyString)
           (mkDataset ["name"; "age"] [] (mkStats 0 ∅)) "age"); reflexivity.
Defined.

(** ** Cells that [processData] leaves as they are *)

Lemma fillRow_unchanged headers fillValues (row : list value) :
  (∀ j val, j < length headers → row !! j = Some val → filledCell fillValues j val = val) →
  fillRow headers fillValues row = row.
Proof.
  intros Hsame. apply list_eq. intros j. rewrite fillRow_lookup.
  case_decide as Hj; [|done].
  destruct (row !! j) as [val|] eqn:Hval; [|done]. simpl. f_equal. by apply Hsame.
Qed.

Lemma method_cases (method : string) :
  method ∉ ["drop"; "mean"; "median"; "mode"; "knn"] →
  method ≠ "drop" ∧ method ≠ "mean" ∧ method ≠ "median" ∧ method ≠ "mode" ∧ method ≠ "knn".
Proof.
  intros Hnot. repeat split; intros ->; apply Hnot;
    repeat first [apply list_elem_of_here | apply list_elem_of_further].
Qed.

Lemma columnFill_unknown (method : string) (values : list value) :
  method ∉ ["drop"; "mean"; "median"; "mode"; "knn"] →
  columnFill method values
  = if Nat.eqb (length values) 0 then Some (VString EmptyString) else None.
Proof.
  intros (_ & Hmean & Hmedian & Hmode & Hknn)%method_cases.
  unfold columnFill, numericFill, textFill.
  rewrite !bool_decide_eq_false_2 by done. simpl.
  destruct (Nat.eqb _ _); [done|]. by destruct (isNumeric _).
Qed.

(** A fill value that is undefined or the empty string changes no cell. *)
Lemma filledCell_undefined_fill fillValues colIndex (val : value) :
  fillAt fillValues colIndex = VUndefined ∨ fillAt fillValues colIndex = VString EmptyString →
  filledCell fillValues colIndex val = val.
Proof.
  unfold filledCell. intros [-> | ->]; simpl.
  - by rewrite andb_false_r.
  - rewrite andb_true_r. destruct val as [|s|x]; simpl; try done.
    case_bool_decide; by subst.
Qed.

(** X11. With a method that is none of drop, mean, median, mode and knn,
    [processData] returns the headers and every field unchanged; only the
    map of missing values is emptied. *)
Theorem unknown_method_changes_no_field (dataset : Dataset string) (method : string)
    (knnNeighbors : Z) :
  method ∉ ["drop"; "mean"; "median"; "mode"; "knn"] →
  processData dataset method knnNeighbors
  = mkDataset (headers dataset) (map (map VString) (rows dataset))
      (mkStats (totalRows (stats dataset)) ∅).
Proof.
  intros Hmethod. rewrite processData_fill by (by apply method_cases in Hmethod as [? _]).
  f_equal. simpl.
  transitivity (map id (map (map VString) (rows dataset))); [|apply map_id].
  apply map_ext. intros row. unfold id. apply fillRow_unchanged. intros j val Hj _.
  apply filledCell_undefined_fill. unfold fillAt.
  rewrite computeFillValues_lookup, decide_True by done.
  rewrite columnFill_unknown by done. destruct (Nat.eqb _ _); auto.
Qed.

Lemma unknown_method_changes_no_field_witness :
  processData sampleDataset "linear" 5
  = mkDataset (headers sampleDataset) (map (map VString) (rows sampleDataset))
      (mkStats (totalRows (stats sampleDataset)) ∅).
Proof.
  apply (unknown_method_changes_no_field sampleDataset "linear" 5).
  intros Hin. repeat (apply elem_of_cons in Hin as [Hin|Hin]; [done|]).
  by apply elem_of_nil in Hin.
Defined.

(** X12. A table without any empty field passes through [processData]
    unchanged, whatever the method: the headers and all the rows are those
    of the input. *)
Theorem complete_table_is_unchanged (dataset : Dataset string) (method : string)
    (knnNeighbors : Z) :
  Forall (λ row, EmptyString ∉ row) (rows dataset) →
  headers (processData dataset method knnNeighbors) = headers dataset
  ∧ rows (processData dataset method knnNeighbors) = map (map VString) (rows dataset).
Proof.
  intros Hcomplete. destruct (decide (method = "drop")) as [->|Hne].
  - split; [done|]. unfold processData. simpl. rewrite filter_complete_strings. f_equal.
    induction Hcomplete as [|row table Hrow _ IH]; [done|].
    by rewrite filter_cons, decide_True, IH.
  - rewrite processData_fill by done. simpl. split; [done|].
    transitivity (map id (map (map VString) (rows dataset))); [|apply map_id].
    apply map_ext_in. intros row Hin. unfold id. apply fillRow_unchanged. intros j val Hj Hval.
    apply list_elem_of_In, list_elem_of_fmap in Hin as (srow & -> & Hin).
    rewrite list_lookup_fmap in Hval. destruct (srow !! j) as [s|] eqn:Hs; [|done].
    injection Hval as <-. apply filledCell_nonempty. intros ->.
    rewrite Forall_forall in Hcomplete. apply (Hcomplete srow Hin).
    by eapply list_elem_of_lookup_2.
Qed.

Lemma complete_table_is_unchanged_witness :
  let dataset := mkDataset ["name"; "age"] [["Ann"; "30"]; ["Bob"; "25"]] (mkStats 2 ∅) in
  headers (processData dataset "mode" 5) = headers dataset
  ∧ rows (processData dataset "mode" 5) = map (map VString) (rows dataset).
Proof.
  apply (complete_table_is_unchanged
           (mkDataset ["name"; "age"] [["Ann"; "30"]; ["Bob"; "25"]] (mkStats 2 ∅)) "mode" 5).
  repeat constructor; intros Hin;
    repeat (apply elem_of_cons in Hin as [Hin|Hin]; [done|]); by apply elem_of_nil in Hin.
Defined.

Lemma column_without_fill (dataset : Dataset string) (method : string) (knnNeighbors : Z)
    (colIndex : nat) :
  method ≠ "drop" →
  (let fillValues := computeFillValues method (headers dataset) (rows (asValues dataset)) in
   fillAt fillValues colIndex = VUndefined ∨ fillAt fillValues colIndex = VString EmptyString) →
  ∀ i row, rows dataset !! i = Some row →
    ∃ row', rows (processData dataset method knnNeighbors) !! i = Some row'
      ∧ row' !! colIndex = VString <$> row !! colIndex.
Proof.
  intros Hmethod Hfill i row Hrow. rewrite processData_fill by done. simpl.
  eexists. split; [by rewrite !list_lookup_fmap, Hrow|].
  rewrite fillRow_lookup, list_lookup_fmap. case_decide; [|done].
  destruct (row !! colIndex) as [s|]; [|done]. simpl. f_equal.
  by apply filledCell_undefined_fill.
Qed.

(** The values collected for a column: the texts of its fields that are
    not empty, and undefined for every row too short to have the field. *)
Lemma columnValues_elem (table : list (list string)) (colIndex : nat) (val : value) :
  val ∈ columnValues (map (map VString) table) colIndex
  ↔ ∃ row, row ∈ table
      ∧ ((∃ s, row !! colIndex = Some s ∧ s ≠ EmptyString ∧ val = VString s)
         ∨ (row !! colIndex = None ∧ val = VUndefined)).
Proof.
  unfold columnValues. rewrite list_elem_of_filter, list_elem_of_fmap. split.
  - intros [Hne (vrow & -> & Hin)]. apply list_elem_of_fmap in Hin as (row & -> & Hin).
    exists row. split; [done|]. unfold cellAt in *. rewrite list_lookup_fmap in *.
    destruct (row !! colIndex) as [s|]; simpl in *; [left|right; done].
    exists s. split; [done|]. split; [|done]. intros ->. done.
  - intros (row & Hin & Hcell). unfold cellAt.
    destruct Hcell as [(s & Hs & Hne & ->)|[Hnone ->]].
    + split; [simpl; by rewrite bool_decide_eq_false_2|].
      exists (map VString row). rewrite list_lookup_fmap, Hs.
      split; [done|]. apply list_elem_of_fmap. eauto.
    + split; [done|]. exists (map VString row). rewrite list_lookup_fmap, Hnone.
      split; [done|]. apply list_elem_of_fmap. eauto.
Qed.

(** X13. With mean and median a column that holds a value which does not
    parse as a Number receives no fill value: every field of the column,
    the empty ones included, is left as it is. *)
Theorem mean_and_median_skip_text_column (dataset : Dataset string) (method : string)
    (knnNeighbors : Z) (colIndex : nat) :
  method = "mean" ∨ method = "median" →
  (∃ row s, row ∈ rows dataset ∧ row !! colIndex = Some s
            ∧ s ≠ EmptyString ∧ is_nan (parseFloat s) = true) →
  ∀ i row, rows dataset !! i = Some row →
    ∃ row', rows (processData dataset method knnNeighbors) !! i = Some row'
      ∧ row' !! colIndex = VString <$> row !! colIndex.
Proof.
  intros Hmethod (row0 & s & Hin & Hs & Hne & Hnan).
  apply column_without_fill; [by destruct Hmethod as [-> | ->]|].
  left. unfold fillAt. rewrite computeFillValues_lookup.
  case_decide; [|done].
  set (values := columnValues (rows (asValues dataset)) colIndex).
  assert (VString s ∈ values) as Hval.
  { apply columnValues_elem. exists row0. split; [done|]. left. by exists s. }
  assert (isNumeric (numericValues values) = false) as Hnum.
  { apply not_true_is_false. intros Hnum.
    pose proof (proj1 (isNumeric_numericValues values
                         (λ val, columnValues_strings (rows dataset) colIndex val)) Hnum
                  _ Hval) as Hparse.
    simpl in Hparse. congruence. }
  rewrite columnFill_nonempty by (intros Hnil; rewrite Hnil in Hval; by apply elem_of_nil in Hval).
  rewrite Hnum. by destruct Hmethod as [-> | ->].
Qed.

Lemma mean_and_median_skip_text_column_witness :
  let dataset := mkDataset ["name"; "age"] [["Ann"; "30"]; [""; "25"]] (mkStats 2 ∅) in
  ∃ row', rows (processData dataset "mean" 5) !! 1 = Some row'
    ∧ row' !! 0 = VString <$> [""; "25"] !! 0.
Proof.
  apply (mean_and_median_skip_text_column
           (mkDataset ["name"; "age"] [["Ann"; "30"]; [""; "25"]] (mkStats 2 ∅))
           "mean" 5 0); [by left | | reflexivity].
  exists ["Ann"; "30"], "Ann". repeat split; [apply list_elem_of_here | done].
Defined.

(** ** The mode is a collected value *)

Lemma modeStep_mode (val : value) (state : gmap string frequencyEntry * nat * value) :
  (modeStep val state).2 = val ∨ (modeStep val state).2 = state.2.
Proof.
  destruct state as [[frequency max] mode]. unfold modeStep.
  destruct (getProp _ _) as [|[n|]|]; simpl; auto.
  destruct (max <? n)%nat; simpl; auto.
Qed.

Lemma modeLoop_mode (values : list value) : ∀ state,
  (fold_left (λ state val, modeStep val state) values state).2 ∈ values
  ∨ (fold_left (λ state val, modeStep val state) values state).2 = state.2.
Proof.
  induction values as [|val values IH]; intros state; simpl; [by right|].
  destruct (IH (modeStep val state)) as [Hin|Heq]; [left; by right|].
  rewrite Heq. destruct (modeStep_mode val state) as [-> | ->]; [left; by left | by right].
Qed.

Lemma modeOf_elem (values : list value) : values ≠ [] → modeOf values ∈ values.
Proof.
  intros Hne. unfold modeOf.
  pose proof (modeLoop_mode values (∅, 0, cellAt values 0)) as Hmode.
  destruct (fold_left _ values _) as [[frequency max] mode]. simpl in Hmode.
  destruct Hmode as [Hin| ->]; [done|].
  destruct values as [|val values]; [done|]. by left.
Qed.

(** X14. A column in which every row has the empty string, or no field
    at all, is left as it is by every method but drop: no value is
    invented for a column without values. *)
Theorem column_without_values_is_unchanged (dataset : Dataset string) (method : string)
    (knnNeighbors : Z) (colIndex : nat) :
  method ≠ "drop" →
  (∀ row, row ∈ rows dataset →
     row !! colIndex = Some EmptyString ∨ row !! colIndex = None) →
  ∀ i row, rows dataset !! i = Some row →
    ∃ row', rows (processData dataset method knnNeighbors) !! i = Some row'
      ∧ row' !! colIndex = VString <$> row !! colIndex.
Proof.
  intros Hmethod Hempty. apply column_without_fill; [done|].
  unfold fillAt. rewrite computeFillValues_lookup.
  case_decide; [|by left].
  set (values := columnValues (rows (asValues dataset)) colIndex).
  assert (∀ val, val ∈ values → val = VUndefined) as Hundef.
  { intros val (row & Hin & Hcell)%columnValues_elem.
    destruct Hcell as [(s & Hs & Hne & _)|[_ ->]]; [|done].
    destruct (Hempty row Hin) as [Hrow|Hrow]; congruence. }
  clearbody values. unfold columnFill. destruct values as [|val rest]; [by right|].
  left. simpl length. cbn [Nat.eqb].
  assert (val = VUndefined) as -> by (apply Hundef; by left).
  change (isNumeric (numericValues (VUndefined :: rest))) with false. cbv iota.
  unfold textFill. destruct (_ || _); [|done]. simpl.
  by apply Hundef, modeOf_elem.
Qed.

Lemma column_without_values_is_unchanged_witness :
  let dataset := mkDataset ["name"; "note"] [["Ann"; ""]; ["Bob"]] (mkStats 2 ∅) in
  ∃ row', rows (processData dataset "mode" 5) !! 0 = Some row'
    ∧ row' !! 1 = VString <$> ["Ann"; ""] !! 1.
Proof.
  apply (column_without_values_is_unchanged
           (mkDataset ["name"; "note"] [["Ann"; ""]; ["Bob"]] (mkStats 2 ∅)) "mode" 5 1);
    [done | | reflexivity].
  intros row Hin. apply elem_of_cons in Hin as [-> | Hin]; [by left|].
  apply elem_of_cons in Hin as [-> | Hin]; [by right|]. by apply elem_of_nil in Hin.
Defined.

(** ** No cell of the result is undefined *)

Lemma filledCell_defined fillValues colIndex (val : value) :
  isDefined val = true → isDefined (filledCell fillValues colIndex val) = true.
Proof.
  intros Hval. unfold filledCell.
  destruct (isEmptyString val && isDefined (fillAt fillValues colIndex)) eqn:Hfill; [|done].
  apply andb_true_iff in Hfill as [_ Hfill]. by destruct (fillAt fillValues colIndex).
Qed.

Lemma cleaned_cell_defined (dataset : Dataset string) (method : string)
    (knnNeighbors : Z) (row : list value) (cell : value) :
  row ∈ rows (processData dataset method knnNeighbors) → cell ∈ row → cell ≠ VUndefined.
Proof.
  intros Hrow Hcell.
  assert (isDefined cell = true) as Hdef; [|by intros ->].
  destruct (decide (method = "drop")) as [->|Hne].
  - unfold processData in Hrow. simpl in Hrow.
    apply list_elem_of_filter in Hrow as [_ Hrow].
    apply list_elem_of_fmap in Hrow as (srow & -> & _).
    by apply list_elem_of_fmap in Hcell as (s & -> & _).
  - rewrite processData_fill in Hrow by done. simpl in Hrow.
    apply list_elem_of_fmap in Hrow as (vrow & -> & Hrow).
    apply list_elem_of_fmap in Hrow as (srow & -> & _).
    apply list_elem_of_lookup in Hcell as [j Hj].
    rewrite fillRow_lookup, list_lookup_fmap in Hj.
    destruct (srow !! j) as [s|]; [|by case_decide].
    case_decide; simpl in Hj; injection Hj as <-; [|done].
    by apply filledCell_defined.
Qed.

Lemma cleaned_rows_defined (dataset : Dataset string) (method : string) (knnNeighbors : Z) :
  Forall (Forall (λ cell, cell ≠ VUndefined)) (rows (processData dataset method knnNeighbors)).
Proof.
  apply Forall_forall. intros row Hrow. apply Forall_forall. intros cell Hcell.
  by apply (cleaned_cell_defined dataset method knnNeighbors row cell).
Qed.

(** X15. Whatever the input and the method, every cell of the dataset
    [processData] returns is a string or a Number, never undefined, and
    the text [cell.toString()] that [displayResults] asks of it exists. *)
Theorem cleaned_cells_are_defined (dataset : Dataset string) (method : string)
    (knnNeighbors : Z) :
  Forall (Forall (λ cell, cell ≠ VUndefined ∧ is_Some (cellText cell)))
    (rows (processData dataset method knnNeighbors)).
Proof.
  eapply Forall_impl; [apply cleaned_rows_defined|]. intros row Hrow. simpl in Hrow.
  eapply Forall_impl; [exact Hrow|]. intros cell Hcell. simpl in Hcell.
  split; [done|]. by destruct cell.
Qed.

(** ** Mode and knn leave no gap in a column that holds a value *)

Lemma numericValues_elem_number (values : list value) (val : value) :
  isNumeric (numericValues values) = true → val ∈ numericValues values → isNumber val = true.
Proof.
  unfold isNumeric. rewrite forallb_forall. intros Hall Hin.
  by apply Hall, list_elem_of_In.
Qed.

(** X16. With mode and knn, in a table whose rows all reach the column, a
    column that holds at least one value has no empty field afterwards:
    every row holds a string that is not empty, or a Number, there. *)
Theorem mode_fills_every_gap (dataset : Dataset string) (method : string)
    (knnNeighbors : Z) (colIndex : nat) :
  method = "mode" ∨ method = "knn" →
  colIndex < length (headers dataset) →
  (∀ row, row ∈ rows dataset → colIndex < length row) →
  (∃ row s, row ∈ rows dataset ∧ row !! colIndex = Some s ∧ s ≠ EmptyString) →
  ∀ row, row ∈ rows (processData dataset method knnNeighbors) →
    ∃ cell, row !! colIndex = Some cell ∧ cell ≠ VString EmptyString ∧ cell ≠ VUndefined.
Proof.
  intros Hmethod Hcol Hshape (row0 & s0 & Hin0 & Hs0 & Hne0) row' Hrow'.
  set (values := columnValues (rows (asValues dataset)) colIndex).
  assert (VString s0 ∈ values) as Hval0.
  { apply columnValues_elem. exists row0. split; [done|]. left. by exists s0. }
  assert (values ≠ []) as Hne
    by (intros Hnil; rewrite Hnil in Hval0; by apply elem_of_nil in Hval0).
  assert (∀ val, val ∈ values → ∃ s, val = VString s ∧ s ≠ EmptyString) as Htexts.
  { intros val (row & Hin & Hcell)%columnValues_elem.
    destruct Hcell as [(s & _ & Hs & ->)|[Hnone _]]; [by exists s|].
    apply lookup_ge_None in Hnone. specialize (Hshape row Hin). lia. }
  pose proof (mode_fill_value dataset method colIndex Hmethod Hcol Hne) as Hfill.
  fold values in Hfill.
  assert (∃ fill, fillAt (computeFillValues method (headers dataset) (rows (asValues dataset)))
                    colIndex = fill
                  ∧ (isNumber fill = true ∨ ∃ s, fill = VString s ∧ s ≠ EmptyString))
    as (fill & Hat & Hkind).
  { unfold fillAt. rewrite Hfill. simpl. eexists. split; [done|].
    destruct (isNumeric (numericValues values)) eqn:Hnum.
    - left. apply (numericValues_elem_number values); [done|].
      apply modeOf_elem. unfold numericValues. by destruct values.
    - right. by apply Htexts, modeOf_elem. }
  rewrite processData_fill in Hrow' by (by destruct Hmethod as [-> | ->]). simpl in Hrow'.
  apply list_elem_of_fmap in Hrow' as (vrow & -> & Hrow).
  apply list_elem_of_fmap in Hrow as (row & -> & Hrow).
  rewrite fillRow_lookup, decide_True, list_lookup_fmap by done.
  destruct (row !! colIndex) as [s|] eqn:Hs.
  2:{ apply lookup_ge_None in Hs. specialize (Hshape row Hrow). lia. }
  simpl. eexists. split; [done|].
  destruct (decide (s = EmptyString)) as [->|Hnonempty].
  - unfold filledCell. simpl in Hat. rewrite Hat.
    destruct Hkind as [Hnumber|(t & -> & Ht)].
    + by destruct fill.
    + simpl. split; [by intros [= ->] | done].
  - rewrite filledCell_nonempty by done. split; [by intros [= ->] | done].
Qed.

Lemma mode_fills_every_gap_witness :
  ∃ cell, [VString "Bob"; VNumber 30] !! 1 = Some cell
    ∧ cell ≠ VString EmptyString ∧ cell ≠ VUndefined.
Proof.
  apply (mode_fills_every_gap sampleDataset "mode" 5 1); [by left | simpl; lia | | |].
  - intros row Hin. apply elem_of_cons in Hin as [-> | Hin]; [simpl; lia|].
    apply elem_of_cons in Hin as [-> | Hin]; [simpl; lia|]. by apply elem_of_nil in Hin.
  - exists ["Ann"; "30"], "30". repeat split; [apply list_elem_of_here | done].
  - vm_compute. apply list_elem_of_further, list_elem_of_here.
Defined.

(** ** The strategy median *)

Lemma insertSorted_perm (x : float) (sorted : list float) :
  insertSorted x sorted ≡ₚ x :: sorted.
Proof.
  induction sorted as [|y sorted IH]; simpl; [done|].
  destruct (PrimFloat.ltb _ _); [done|]. rewrite IH. apply Permutation_swap.
Qed.

Lemma sortNumbers_perm (numbers : list float) : sortNumbers numbers ≡ₚ numbers.
Proof.
  unfold sortNumbers.
  assert (∀ sorted, fold_left (λ sorted x, insertSorted x sorted) numbers sorted
                    ≡ₚ sorted ++ numbers) as Hgen.
  { induction numbers as [|x numbers IH]; intros sorted; simpl.
    - by rewrite app_nil_r.
    - rewrite IH, insertSorted_perm. simpl. apply Permutation_middle. }
  apply Hgen.
Qed.

Lemma median_of_odd_count (numbers : list float) :
  Nat.odd (length numbers) = true → median numbers ∈ numbers.
Proof.
  intros Hodd. unfold median.
  pose proof (sortNumbers_perm numbers) as Hperm.
  pose proof (Permutation_length Hperm) as Hlen.
  generalize dependent (sortNumbers numbers). intros sorted Hperm Hlen. rewrite Hlen.
  assert (length numbers mod 2 = 1) as Hmod.
  { rewrite <- Nat.bit0_mod, Nat.bit0_odd, Hodd. done. }
  rewrite Hmod. simpl negb. cbv iota.
  apply list_elem_of_In, (Permutation_in _ Hperm), nth_In. rewrite Hlen.
  apply Nat.div_lt; [|lia]. destruct numbers; [done | simpl; lia].
Qed.

(** *** Binary64

    The Numbers after the specification of the floating-point operations:
    the sign of a difference tells which of two Numbers is the smaller. *)

Lemma digits2_pos_bounds (m : positive) :
  (2 ^ (Zpos (digits2_pos m) - 1) ≤ Zpos m < 2 ^ Zpos (digits2_pos m))%Z.
Proof.
  induction m as [m IH|m IH|]; cbn [digits2_pos]; [| |done].
  - rewrite Pos2Z.inj_succ, Z.pow_succ_r by lia.
    replace (Z.succ (Zpos (digits2_pos m)) - 1)%Z with (Z.succ (Zpos (digits2_pos m) - 1)) by lia.
    rewrite Z.pow_succ_r by lia. lia.
  - rewrite Pos2Z.inj_succ, Z.pow_succ_r by lia.
    replace (Z.succ (Zpos (digits2_pos m)) - 1)%Z with (Z.succ (Zpos (digits2_pos m) - 1)) by lia.
    rewrite Z.pow_succ_r by lia. lia.
Qed.

(** A finite Number has an exponent from -1074 to 971 and a mantissa
    below 2^53, of 53 bits unless the exponent is -1074. *)
Lemma bounded_mantissa (m : positive) (e : Z) :
  bounded prec emax m e = true →
  (-1074 ≤ e ≤ 971)%Z ∧ (Zpos m < 2 ^ 53)%Z ∧ (-1074 < e → 2 ^ 52 ≤ Zpos m)%Z.
Proof.
  unfold bounded, canonical_mantissa, fexp, emin, prec, emax.
  intros [Hcanonical Hmax%Z.leb_le]%andb_true_iff. apply Z.eqb_eq in Hcanonical.
  pose proof (digits2_pos_bounds m) as [Hlow Hhigh].
  assert (Zpos (digits2_pos m) ≤ 53)%Z as Hdigits by lia.
  split; [lia|]. split.
  - eapply Z.lt_le_trans; [exact Hhigh|]. apply Z.pow_le_mono_r; lia.
  - intros He. assert (Zpos (digits2_pos m) = 53%Z) as Heq by lia.
    rewrite Heq in Hlow. exact Hlow.
Qed.

Lemma pow2_split (a b : Z) : (0 ≤ a)%Z → (0 ≤ b)%Z → (2 ^ (a + b) = 2 ^ a * 2 ^ b)%Z.
Proof. intros. by apply Z.pow_add_r. Qed.

Lemma pow2_pos (a : Z) : (0 ≤ a)%Z → (0 < 2 ^ a)%Z.
Proof. intros. by apply Z.pow_pos_nonneg. Qed.

(** Of two finite Numbers the one of the smaller exponent is the smaller. *)
Lemma smaller_exponent (m1 m2 : positive) (e1 e2 : Z) :
  bounded prec emax m1 e1 = true → bounded prec emax m2 e2 = true → (e1 < e2)%Z →
  (Zpos m1 * 2 ^ (e1 + 1074) < Zpos m2 * 2 ^ (e2 + 1074))%Z.
Proof.
  intros (He1 & Hm1 & _)%bounded_mantissa (He2 & _ & Hm2)%bounded_mantissa Hlt.
  specialize (Hm2 ltac:(lia)).
  replace (e2 + 1074)%Z with ((e2 - e1 - 1) + (1 + (e1 + 1074)))%Z by lia.
  rewrite (pow2_split (e2 - e1 - 1)), (pow2_split 1) by lia.
  pose proof (pow2_pos (e1 + 1074) ltac:(lia)) as Hc.
  pose proof (pow2_pos (e2 - e1 - 1) ltac:(lia)) as Hd.
  change (2 ^ 53)%Z with (2 ^ 52 * 2)%Z in Hm1. change (2 ^ 1)%Z with 2%Z.
  generalize dependent (2 ^ 52)%Z. intros k Hm1 Hm2.
  generalize dependent (2 ^ (e1 + 1074))%Z. intros c Hc.
  generalize dependent (2 ^ (e2 - e1 - 1))%Z. intros d Hd.
  assert (Zpos m1 * c < k * 2 * c)%Z by nia.
  assert (k * (2 * c) ≤ Zpos m2 * (2 * c))%Z by (apply Z.mul_le_mono_nonneg_r; lia).
  assert (Zpos m2 * (1 * (2 * c)) ≤ Zpos m2 * (d * (2 * c)))%Z.
  { apply Z.mul_le_mono_nonneg_l; [lia|]. apply Z.mul_le_mono_nonneg_r; lia. }
  lia.
Qed.

Lemma finite_below_beyond (m : positive) (e : Z) :
  bounded prec emax m e = true → (0 < Zpos m * 2 ^ (e + 1074) < beyond)%Z.
Proof.
  intros (He & Hm & _)%bounded_mantissa.
  pose proof (pow2_pos (e + 1074) ltac:(lia)) as Hc. split; [lia|].
  unfold beyond. replace 2100%Z with (53 + 2047)%Z by done.
  rewrite (pow2_split 53 2047) by lia.
  assert (2 ^ (e + 1074) ≤ 2 ^ 2047)%Z as Hle by (apply Z.pow_le_mono_r; lia).
  generalize dependent (2 ^ 53)%Z. generalize dependent (2 ^ 2047)%Z.
  generalize dependent (2 ^ (e + 1074))%Z. intros; nia.
Qed.

Lemma beyond_positive : (0 < beyond)%Z.
Proof. unfold beyond. by apply pow2_pos. Qed.

Lemma compare_magnitudes (m1 m2 : positive) (e1 e2 : Z) :
  bounded prec emax m1 e1 = true → bounded prec emax m2 e2 = true →
  let v1 := (Zpos m1 * 2 ^ (e1 + 1074))%Z in
  let v2 := (Zpos m2 * 2 ^ (e2 + 1074))%Z in
  match (e1 ?= e2)%Z with
  | Lt => (v1 < v2)%Z
  | Gt => (v2 < v1)%Z
  | Eq => match Pos.compare_cont Eq m1 m2 with
          | Lt => (v1 < v2)%Z
          | Gt => (v2 < v1)%Z
          | Eq => v1 = v2
          end
  end.
Proof.
  intros H1 H2 v1 v2. subst v1 v2. destruct (Z.compare_spec e1 e2) as [->|Hlt|Hgt].
  - apply bounded_mantissa in H1 as (He & _).
    pose proof (pow2_pos (e2 + 1074) ltac:(lia)) as Hc.
    change (Pos.compare_cont Eq m1 m2) with (Zpos m1 ?= Zpos m2)%Z.
    destruct (Z.compare_spec (Zpos m1) (Zpos m2)) as [Heq|Hlt|Hgt]; nia.
  - by apply smaller_exponent.
  - by apply smaller_exponent.
Qed.

(** Numbers compare as their places on the number line do. *)
Lemma SFcompare_position (x y : spec_float) :
  valid_binary x = true → valid_binary y = true →
  x ≠ S754_nan → y ≠ S754_nan →
  SFcompare x y = Some (position x ?= position y)%Z.
Proof.
  intros Hx Hy Hnx Hny. pose proof beyond_positive as Hbeyond.
  destruct x as [sx|sx| |sx mx ex]; [| |done|];
    (destruct y as [sy|sy| |sy my ey]; [| |done|]);
    simpl in Hx, Hy;
    try (pose proof (finite_below_beyond _ _ Hx) as Hbx);
    try (pose proof (finite_below_beyond _ _ Hy) as Hby);
    try (pose proof (compare_magnitudes _ _ _ _ Hx Hy) as Hcompare; simpl in Hcompare);
    cbn [SFcompare position]; f_equal; symmetry.
  - destruct sy; [apply Z.compare_gt_iff | apply Z.compare_lt_iff]; simpl; lia.
  - destruct sy; [apply Z.compare_gt_iff | apply Z.compare_lt_iff]; simpl; lia.
  - destruct sx; [apply Z.compare_lt_iff | apply Z.compare_gt_iff]; simpl; lia.
  - destruct sx, sy;
      [apply Z.compare_eq_iff | apply Z.compare_lt_iff | apply Z.compare_gt_iff
      | apply Z.compare_eq_iff]; simpl; lia.
  - destruct sx; [apply Z.compare_lt_iff | apply Z.compare_gt_iff];
      destruct sy; simpl; lia.
  - destruct sx; [apply Z.compare_lt_iff | apply Z.compare_gt_iff]; simpl; lia.
  - destruct sy; [apply Z.compare_gt_iff | apply Z.compare_lt_iff];
      destruct sx; simpl; lia.
  - destruct sx, sy; cbn [cond_Zopp];
      [|apply Z.compare_lt_iff; lia|apply Z.compare_gt_iff; lia|];
      destruct (ex ?= ey)%Z; try destruct (Pos.compare_cont Eq mx my); cbn [CompOpp];
      first [apply Z.compare_eq_iff; lia | apply Z.compare_lt_iff; lia
            | apply Z.compare_gt_iff; lia].
Qed.

Lemma shr_1_half (mrs : shr_record) :
  (0 ≤ shr_m mrs)%Z → shr_m (shr_1 mrs) = (shr_m mrs / 2)%Z.
Proof.
  destruct mrs as [m r s]. simpl. intros Hm.
  destruct m as [|[p|p|]|p]; simpl; [done| | |done|lia].
  - apply (Z.div_unique (Zpos p~1) 2 (Zpos p) 1); lia.
  - apply (Z.div_unique (Zpos p~0) 2 (Zpos p) 0); lia.
Qed.

Lemma shr_m_iter (p : positive) :
  ∀ mrs, (0 ≤ shr_m mrs)%Z → shr_m (SpecFloat.iter_pos shr_1 p mrs) = (shr_m mrs / 2 ^ Zpos p)%Z.
Proof.
  induction p as [p IH|p IH|]; intros mrs Hm; cbn [SpecFloat.iter_pos].
  - assert (0 ≤ shr_m (shr_1 mrs))%Z as H1.
    { rewrite shr_1_half by done. apply Z.div_pos; lia. }
    assert (0 ≤ shr_m (SpecFloat.iter_pos shr_1 p (shr_1 mrs)))%Z as H2.
    { rewrite IH by done. apply Z.div_pos; [done|]. by apply pow2_pos. }
    rewrite IH, IH, shr_1_half by done.
    pose proof (pow2_pos (Zpos p) ltac:(lia)) as Hp.
    rewrite !Z.div_div by lia.
    replace (Zpos p~1) with (1 + (Zpos p + Zpos p))%Z by lia.
    rewrite !pow2_split by lia. done.
  - assert (0 ≤ shr_m (SpecFloat.iter_pos shr_1 p mrs))%Z as H2.
    { rewrite IH by done. apply Z.div_pos; [done|]. by apply pow2_pos. }
    rewrite IH, IH by done.
    pose proof (pow2_pos (Zpos p) ltac:(lia)) as Hp.
    rewrite !Z.div_div by lia.
    replace (Zpos p~0) with (Zpos p + Zpos p)%Z by lia.
    rewrite !pow2_split by lia. done.
  - by apply shr_1_half.
Qed.

(** The shift that brings a mantissa to 53 bits leaves it positive, when
    the exponent is not below -1074. *)
Lemma shr_fexp_positive (m e : Z) (l : location) :
  (1 ≤ m)%Z → (-1074 ≤ e)%Z →
  (1 ≤ shr_m (shr_fexp prec emax m e l).1)%Z ∧ (-1074 ≤ (shr_fexp prec emax m e l).2)%Z.
Proof.
  intros Hm He. unfold shr_fexp, shr, fexp, emin, prec, emax.
  assert (shr_m (shr_record_of_loc m l) = m) as Hrecord by (by destruct l as [|[]]).
  destruct m as [|m|m]; [lia| |lia]. cbn [Zdigits2].
  pose proof (digits2_pos_bounds m) as [Hlow _].
  destruct (Z.max (Zpos (digits2_pos m) + e - 53) (3 - 1024 - 53) - e)%Z as [|p|p] eqn:Hshift;
    cbn [fst snd]; rewrite ?Hrecord; [lia| |lia].
  split; [|lia]. rewrite shr_m_iter, Hrecord by (rewrite Hrecord; lia).
  assert (2 ^ Zpos p ≤ Zpos m)%Z as Hle.
  { etransitivity; [|exact Hlow]. apply Z.pow_le_mono_r; lia. }
  pose proof (pow2_pos (Zpos p) ltac:(lia)) as Hp.
  apply Z.div_le_lower_bound; lia.
Qed.

Lemma round_nearest_even_positive (m : Z) (l : location) :
  (1 ≤ m)%Z → (1 ≤ round_nearest_even m l)%Z.
Proof. intros Hm. destruct l as [|[]]; simpl; try destruct (Z.even m); lia. Qed.

(** Rounding a mantissa that is not zero gives a finite Number or an
    infinity of the same sign, when the exponent is not below -1074. *)
Lemma binary_round_aux_sign (s : bool) (m e : Z) (l : location) :
  (1 ≤ m)%Z → (-1074 ≤ e)%Z →
  (∃ m' e', binary_round_aux prec emax s m e l = S754_finite s m' e')
  ∨ binary_round_aux prec emax s m e l = S754_infinity s.
Proof.
  intros Hm He. unfold binary_round_aux.
  pose proof (shr_fexp_positive m e l Hm He) as [Hm1 He1].
  destruct (shr_fexp prec emax m e l) as [mrs1 e1]. simpl in Hm1, He1.
  pose proof (round_nearest_even_positive _ (loc_of_shr_record mrs1) Hm1) as Hround.
  pose proof (shr_fexp_positive _ e1 loc_Exact Hround He1) as [Hm2 He2].
  destruct (shr_fexp prec emax _ e1 loc_Exact) as [mrs2 e2]. simpl in Hm2, He2.
  destruct (shr_m mrs2) as [|m2|m2]; [lia| |lia].
  destruct (e2 <=? emax - prec)%Z; [left; by eexists _, _ | by right].
Qed.

Lemma shl_align_value (m : positive) (e e' : Z) :
  (e' ≤ e)%Z →
  Zpos (shl_align m e e').1 = (Zpos m * 2 ^ (e - e'))%Z ∧ (shl_align m e e').2 = e'.
Proof.
  intros Hle. unfold shl_align.
  destruct (e' - e)%Z as [|d|d] eqn:Hd; cbn [fst snd]; [|lia|].
  - replace (e - e')%Z with 0%Z by lia. simpl. lia.
  - replace (e - e')%Z with (Zpos d) by lia. split; [|done]. clear.
    induction d as [|d IH] using Pos.peano_ind.
    + simpl. lia.
    + rewrite Pos.iter_succ, Pos2Z.inj_succ, Z.pow_succ_r by lia.
      rewrite Pos2Z.inj_xO, IH. lia.
Qed.

Lemma binary_round_sign (s : bool) (m : positive) (e : Z) :
  (-1074 ≤ e)%Z →
  (∃ m' e', binary_round prec emax s m e = S754_finite s m' e')
  ∨ binary_round prec emax s m e = S754_infinity s.
Proof.
  intros He. unfold binary_round.
  destruct (shl_align m e (fexp prec emax (Zpos (digits2_pos m) + e))) as [mz ez] eqn:Halign.
  apply binary_round_aux_sign; [lia|].
  revert Halign. unfold shl_align, fexp, emin, prec, emax.
  destruct (_ - e)%Z; intros [= <- <-]; lia.
Qed.

(** The Number nearest to [d * 2^e] is below zero exactly when [d] is. *)
Lemma binary_normalize_negative (d e : Z) :
  (-1074 ≤ e)%Z →
  SFltb (binary_normalize prec emax d e false) (S754_zero false) = (d <? 0)%Z.
Proof.
  intros He. destruct d as [|d|d]; [done|..]; cbn [binary_normalize].
  - by destruct (binary_round_sign false d e He) as [(m' & e' & ->)| ->].
  - by destruct (binary_round_sign true d e He) as [(m' & e' & ->)| ->].
Qed.

(** The difference of two Numbers is below zero exactly when the first
    stands before the second on the number line. *)
Lemma SFsub_negative (x y : spec_float) :
  valid_binary x = true → valid_binary y = true →
  x ≠ S754_nan → y ≠ S754_nan →
  SFltb (SFsub prec emax x y) (S754_zero false) = (position x <? position y)%Z.
Proof.
  intros Hx Hy Hnx Hny. pose proof beyond_positive as Hbeyond.
  destruct x as [sx|sx| |sx mx ex]; [| |done|];
    (destruct y as [sy|sy| |sy my ey]; [| |done|]);
    simpl in Hx, Hy;
    try (pose proof (finite_below_beyond _ _ Hx) as Hbx);
    try (pose proof (finite_below_beyond _ _ Hy) as Hby);
    cbn [SFsub position].
  - by destruct sx, sy.
  - destruct sy; symmetry; simpl; [apply Z.ltb_ge | apply Z.ltb_lt]; lia.
  - destruct sy; symmetry; simpl; [apply Z.ltb_ge | apply Z.ltb_lt]; lia.
  - destruct sx; symmetry; simpl; [apply Z.ltb_lt | apply Z.ltb_ge]; lia.
  - destruct sx, sy; symmetry; simpl;
      [apply Z.ltb_ge | apply Z.ltb_lt | apply Z.ltb_ge | apply Z.ltb_ge]; lia.
  - destruct sx; symmetry; simpl; [apply Z.ltb_lt | apply Z.ltb_ge]; destruct sy; simpl; lia.
  - destruct sx; symmetry; simpl; [apply Z.ltb_lt | apply Z.ltb_ge]; lia.
  - destruct sy; symmetry; simpl; [apply Z.ltb_ge | apply Z.ltb_lt]; destruct sx; simpl; lia.
  - apply bounded_mantissa in Hx as (Hex & _). apply bounded_mantissa in Hy as (Hey & _).
    cbv zeta. rewrite binary_normalize_negative by lia.
    destruct (shl_align_value mx ex (Z.min ex ey) ltac:(lia)) as [-> _].
    destruct (shl_align_value my ey (Z.min ex ey) ltac:(lia)) as [-> _].
    assert (2 ^ (ex + 1074) = 2 ^ (ex - Z.min ex ey) * 2 ^ (Z.min ex ey + 1074))%Z as ->.
    { rewrite <- pow2_split by lia. f_equal. lia. }
    assert (2 ^ (ey + 1074) = 2 ^ (ey - Z.min ex ey) * 2 ^ (Z.min ex ey + 1074))%Z as ->.
    { rewrite <- pow2_split by lia. f_equal. lia. }
    pose proof (pow2_pos (Z.min ex ey + 1074) ltac:(lia)) as Hc.
    clear Hbx Hby. generalize dependent (2 ^ (Z.min ex ey + 1074))%Z. intros c Hc.
    rewrite !Z.mul_assoc.
    generalize (Zpos mx * 2 ^ (ex - Z.min ex ey))%Z (Zpos my * 2 ^ (ey - Z.min ex ey))%Z.
    intros a b.
    destruct sx, sy; cbn [cond_Zopp];
      repeat match goal with |- context [(?u <? ?v)%Z] => destruct (Z.ltb_spec u v) end;
      (done || nia).
Qed.

(** *** The order of the Numbers *)

Lemma not_nan (x : float) : is_nan x = false → Prim2SF x ≠ S754_nan.
Proof.
  unfold is_nan. rewrite FloatAxioms.eqb_spec. intros Hx Hnan. rewrite Hnan in Hx. done.
Qed.

(** The comparator [(a, b) => a - b] is negative exactly when [a] stands
    before [b] on the number line. *)
Lemma comparator_negative (x y : float) :
  is_nan x = false → is_nan y = false →
  PrimFloat.ltb (PrimFloat.sub x y) zero = (place x <? place y)%Z.
Proof.
  intros Hx%not_nan Hy%not_nan. rewrite FloatAxioms.ltb_spec, FloatAxioms.sub_spec.
  apply SFsub_negative; auto using Prim2SF_valid.
Qed.

Lemma leb_place (x y : float) :
  is_nan x = false → is_nan y = false →
  PrimFloat.leb x y = (place x <=? place y)%Z.
Proof.
  intros Hx%not_nan Hy%not_nan. rewrite FloatAxioms.leb_spec. unfold SFleb, place, Z.leb.
  rewrite SFcompare_position by auto using Prim2SF_valid.
  by destruct (_ ?= _)%Z.
Qed.

(** *** [sort] *)

Lemma insertSorted_ascending (x : float) (sorted : list float) :
  is_nan x = false → Forall (λ y, is_nan y = false) sorted →
  ascending sorted → ascending (insertSorted x sorted).
Proof.
  intros Hx. induction sorted as [|y sorted IH]; intros Hnan Hsorted; [done|].
  apply Forall_cons in Hnan as [Hy Hnan]. destruct Hsorted as [Hhd Htl].
  cbn [insertSorted]. rewrite comparator_negative by done.
  destruct (Z.ltb_spec (place x) (place y)) as [Hlt|Hge].
  - split; [|done]. apply Forall_cons. split.
    + rewrite leb_place by done. apply Z.leb_le. lia.
    + rewrite Forall_forall in Hhd, Hnan |- *. intros z Hz.
      specialize (Hhd z Hz). rewrite leb_place in Hhd |- * by auto.
      apply Z.leb_le in Hhd. apply Z.leb_le. lia.
  - split; [|by apply IH].
    apply (Permutation_Forall (Permutation_sym (insertSorted_perm x sorted))).
    apply Forall_cons. split; [|done].
    rewrite leb_place by done. by apply Z.leb_le.
Qed.

(** [sort((a, b) => a - b)] gives the Numbers in ascending order. *)
Lemma sortNumbers_ascending (numbers : list float) :
  Forall (λ x, is_nan x = false) numbers → ascending (sortNumbers numbers).
Proof.
  unfold sortNumbers.
  assert (∀ sorted, Forall (λ x, is_nan x = false) sorted → ascending sorted →
                    Forall (λ x, is_nan x = false) numbers →
                    ascending (fold_left (λ sorted x, insertSorted x sorted) numbers sorted))
    as Hgen; [|by apply Hgen].
  induction numbers as [|x numbers IH]; intros sorted Hnan Hsorted Hnumbers; [done|].
  apply Forall_cons in Hnumbers as [Hx Hnumbers]. simpl. apply IH; [| |done].
  - apply (Permutation_Forall (Permutation_sym (insertSorted_perm x sorted))).
    by apply Forall_cons.
  - by apply insertSorted_ascending.
Qed.

Lemma median_middleOf (numbers : list float) :
  median numbers = middleOf (sortNumbers numbers).
Proof.
  unfold median, middleOf. cbv zeta.
  rewrite <- Nat.bit0_mod, Nat.bit0_odd.
  by destruct (Nat.odd (length (sortNumbers numbers))).
Qed.

Lemma parsedNumbers_not_nan (values : list value) :
  (∀ val, val ∈ values → isNumber val = false) →
  isNumeric (numericValues values) = true →
  Forall (λ x, is_nan x = false) (parsedNumbers values).
Proof.
  intros Hstr Hnum. rewrite (isNumeric_numericValues values Hstr) in Hnum.
  unfold parsedNumbers. apply Forall_fmap, Forall_forall. intros val Hval. by apply Hnum.
Qed.

(** The median of 30, 4, 25 is 25, the one of 4, 1, 3, 2 is 2.5, and
    the median 2/3 of 1/3, 2/3, 1 fills as 0.6667. *)
Lemma median_examples :
  median (parsedNumbers [VString "30"; VString "4"; VString "25"]) = 25%float
  ∧ median (parsedNumbers [VString "4"; VString "1"; VString "3"; VString "2"]) = 2.5%float
  ∧ roundFill (median [PrimFloat.div 1 3; 1%float; PrimFloat.div 2 3])
    = PrimFloat.div 6667 10000.
Proof. repeat split; vm_compute; reflexivity. Qed.

(** X17. On a column handled as numeric the strategy median assigns the
    median of the parsed Numbers: the middle one of the Numbers put in
    ascending order, or the half of the sum of the two middle ones when
    their number is even.  For an odd number of values it is one of
    them.  Every empty field of the column receives it rounded to four
    decimals: the Number of the decimal with four digits after the point
    that is nearest to it. *)
Theorem median_fills_numeric_column (dataset : Dataset string) (colIndex : nat)
    (knnNeighbors : Z) :
  let values := columnValues (rows (asValues dataset)) colIndex in
  let cleaned := processData dataset "median" knnNeighbors in
  colIndex < length (headers dataset) →
  values ≠ [] →
  isNumeric (numericValues values) = true →
  ∃ sorted fill,
    sorted ≡ₚ parsedNumbers values
    ∧ ascending sorted
    ∧ fill = middleOf sorted
    ∧ fill = median (parsedNumbers values)
    ∧ computeFillValues "median" (headers dataset) (rows (asValues dataset)) !! colIndex
      = Some (VNumber fill)
    ∧ (Nat.odd (length values) = true → fill ∈ parsedNumbers values)
    ∧ (below1e21 fill → roundedTo 4 fill (roundFill fill))
    ∧ ∀ i row, rows dataset !! i = Some row → row !! colIndex = Some EmptyString →
        ∃ row', rows cleaned !! i = Some row'
          ∧ row' !! colIndex = Some (VNumber (roundFill fill)).
Proof.
  intros values cleaned Hcol Hne Hnum.
  assert (∀ val, val ∈ values → isNumber val = false) as Hstr
    by (intros val; apply columnValues_strings).
  assert (computeFillValues "median" (headers dataset) (rows (asValues dataset)) !! colIndex
          = Some (VNumber (median (parsedNumbers values)))) as Hfill.
  { rewrite computeFillValues_lookup, decide_True by done. fold values.
    rewrite columnFill_nonempty, Hnum by done.
    change (numericFill "median" (numericValues values))
      with (Some (VNumber (median (map numberOf (numericValues values))))).
    by rewrite numberOf_numericValues. }
  exists (sortNumbers (parsedNumbers values)), (median (parsedNumbers values)).
  split; [apply sortNumbers_perm|].
  split; [by apply sortNumbers_ascending, parsedNumbers_not_nan|].
  split; [apply median_middleOf|]. split; [done|]. split; [exact Hfill|]. split.
  { intros Hodd. apply median_of_odd_count. unfold parsedNumbers. by rewrite length_map. }
  split; [apply roundFill_rounded|].
  intros i row Hrow Hempty. subst cleaned. rewrite processData_fill by done. simpl.
  eexists. split.
  { rewrite !list_lookup_fmap, Hrow. reflexivity. }
  rewrite fillRow_lookup, decide_True, list_lookup_fmap, Hempty by done. simpl.
  unfold filledCell, fillAt. simpl in Hfill. rewrite Hfill. reflexivity.
Qed.

Lemma median_fills_numeric_column_witness :
  let dataset :=
    mkDataset ["name"; "age"] [["Ann"; "30"]; ["Bob"; ""]; ["Cy"; "4"]; ["Di"; "25"]]
      (mkStats 4 ∅) in
  let values := [VString "30"; VString "4"; VString "25"] in
  ∃ sorted fill,
    sorted ≡ₚ parsedNumbers values
    ∧ ascending sorted
    ∧ fill = middleOf sorted
    ∧ fill = median (parsedNumbers values)
    ∧ computeFillValues "median" (headers dataset) (rows (asValues dataset)) !! 1
      = Some (VNumber fill)
    ∧ (Nat.odd (length values) = true → fill ∈ parsedNumbers values)
    ∧ (below1e21 fill → roundedTo 4 fill (roundFill fill))
    ∧ ∀ i row, rows dataset !! i = Some row → row !! 1 = Some EmptyString →
        ∃ row', rows (processData dataset "median" 5) !! i = Some row'
          ∧ row' !! 1 = Some (VNumber (roundFill fill)).
Proof.
  apply (median_fills_numeric_column
           (mkDataset ["name"; "age"] [["Ann"; "30"]; ["Bob"; ""]; ["Cy"; "4"]; ["Di"; "25"]]
              (mkStats 4 ∅)) 1 5%Z).
  - simpl. lia.
  - vm_compute. discriminate.
  - vm_compute. reflexivity.
Defined.

(** ** The statistics of the cleaned dataset *)

(** X18. For a dataset read by [parseCSV] and any method, totalRows of
    the dataset [processData] returns is the number of its rows; there are
    no more rows than before, and as many with every method but drop. *)
Theorem cleaned_totalRows_counts_rows (content : string) (dataset : Dataset string)
    (method : string) (knnNeighbors : Z) :
  parseCSV content = Some dataset →
  let cleaned := processData dataset method knnNeighbors in
  totalRows (stats cleaned) = Z.of_nat (length (rows cleaned))
  ∧ length (rows cleaned) ≤ length (rows dataset)
  ∧ (method ≠ "drop" → length (rows cleaned) = length (rows dataset)).
Proof.
  intros Hparse cleaned. pose proof (parseCSV_spec content) as Hspec.
  destruct (nonBlankLines content) as [|line0 rest]; [congruence|].
  destruct Hspec as (dataset' & Hparse' & _ & Hr & Ht).
  assert (dataset' = dataset) as -> by congruence.
  subst cleaned. destruct (decide (method = "drop")) as [->|Hne].
  - unfold processData. simpl. split; [done|]. split; [|done].
    etrans; [apply length_filter|]. by rewrite length_map.
  - rewrite processData_fill by done. simpl. rewrite !length_map.
    split; [|done]. by rewrite Ht, Hr, length_map.
Qed.

Lemma cleaned_totalRows_counts_rows_witness :
  let dataset :=
    mkDataset ["name"; "age"] [["Ann"; "30"]; ["Bob"; ""]; [""; "25"]]
      (mkStats 3 (<["name" := CNum 1]> (<["age" := CNum 1]> ∅))) in
  let cleaned := processData dataset "mean" 5 in
  totalRows (stats cleaned) = Z.of_nat (length (rows cleaned))
  ∧ length (rows cleaned) ≤ length (rows dataset)
  ∧ ("mean" ≠ "drop" → length (rows cleaned) = length (rows dataset)).
Proof.
  apply (cleaned_totalRows_counts_rows exampleInput
           (mkDataset ["name"; "age"] [["Ann"; "30"]; ["Bob"; ""]; [""; "25"]]
              (mkStats 3 (<["name" := CNum 1]> (<["age" := CNum 1]> ∅)))) "mean" 5).
  vm_compute. reflexivity.
Defined.

(** ** [escapeHTML] *)

Lemma replaceAll_append c r (s t : string) :
  replaceAll c r (s +:+ t) = replaceAll c r s +:+ replaceAll c r t.
Proof.
  induction s as [|a s IH]; simpl; [done|].
  case_bool_decide; rewrite IH; [by rewrite append_assoc | done].
Qed.

Lemma escapeHTML_append (s t : string) :
  escapeHTML (s +:+ t) = escapeHTML s +:+ escapeHTML t.
Proof. unfold escapeHTML. by rewrite !replaceAll_append. Qed.

Lemma escapeHTML_char (c : ascii) : escapeHTML (String c EmptyString) = entity c.
Proof.
  unfold escapeHTML, entity. simpl.
  case_bool_decide as Hamp; [done|]. simpl.
  case_bool_decide as Hlt; [done|]. simpl.
  case_bool_decide as Hgt; [done|]. simpl.
  case_bool_decide as Hq; [done|]. simpl.
  case_bool_decide as Ha; done.
Qed.

Lemma escapeHTML_cons (c : ascii) (rest : string) :
  escapeHTML (String c rest) = entity c +:+ escapeHTML rest.
Proof.
  change (String c rest) with (String c EmptyString +:+ rest).
  by rewrite escapeHTML_append, escapeHTML_char.
Qed.

(** X19. The five replacements of [escapeHTML], made one after the other,
    amount to one pass over the text: the result for a text is the
    concatenation of the results for its parts, and a single character
    gives its entity, or itself when it is none of the five.  An
    ampersand written by a later replacement is never escaped again. *)
Theorem escapeHTML_is_one_pass (s t : string) (c : ascii) :
  escapeHTML (s +:+ t) = escapeHTML s +:+ escapeHTML t
  ∧ escapeHTML (String c EmptyString) = entity c.
Proof. split; [apply escapeHTML_append | apply escapeHTML_char]. Qed.

Lemma entity_cases (c : ascii) :
  (entity c = String c EmptyString
   ∧ c ∉ ["&"; "<"; ">"; dquote; apostrophe]%char)
  ∨ (c = "&"%char ∧ entity c = "&amp;") ∨ (c = "<"%char ∧ entity c = "&lt;")
  ∨ (c = ">"%char ∧ entity c = "&gt;") ∨ (c = dquote ∧ entity c = "&quot;")
  ∨ (c = apostrophe ∧ entity c = "&#039;").
Proof.
  unfold entity.
  repeat (case_bool_decide; [subst c; auto 10|]).
  left. split; [done|]. intros Hin.
  repeat (apply elem_of_cons in Hin as [Hin|Hin]; [done|]). by apply elem_of_nil in Hin.
Qed.

Lemma escapeHTML_without (str : string) (c : ascii) :
  c ∈ ["<"; ">"; dquote; apostrophe]%char → includes c (escapeHTML str) = false.
Proof.
  intros Hc. induction str as [|a str IH]; [done|].
  rewrite escapeHTML_cons, includes_append, IH, orb_false_r.
  destruct (entity_cases a) as [[-> Ha]|Hcases].
  - simpl. rewrite decide_False; [done|]. intros ->. apply Ha. by right.
  - repeat (apply elem_of_cons in Hc as [-> |Hc];
            [repeat (destruct Hcases as [[_ ->]|Hcases]; [done|]);
             by destruct Hcases as [_ ->]|]).
    by apply elem_of_nil in Hc.
Qed.

(** X20. The text [escapeHTML] returns holds none of the characters that
    open or close a tag or an attribute value: no less-than sign, no
    greater-than sign, no double quote and no apostrophe. *)
Theorem escapeHTML_leaves_no_markup (str : string) (c : ascii) :
  c ∈ ["<"; ">"; dquote; apostrophe]%char → includes c (escapeHTML str) = false.
Proof. intros Hc. by apply escapeHTML_without. Qed.

Lemma escapeHTML_leaves_no_markup_witness :
  includes "<" (escapeHTML "<script>alert('x')</script>") = false.
Proof.
  apply (escapeHTML_leaves_no_markup "<script>alert('x')</script>" "<").
  apply list_elem_of_here.
Defined.

Lemma entity_append_inj (a b : ascii) (s t : string) :
  entity a +:+ s = entity b +:+ t → a = b ∧ s = t.
Proof.
  unfold entity.
  repeat case_bool_decide; subst; simpl; intros Heq; by simplify_eq.
Qed.

Lemma entity_nonempty (c : ascii) (s : string) : entity c +:+ s ≠ EmptyString.
Proof. unfold entity. by repeat case_bool_decide. Qed.

Lemma escapeHTML_inj (s : string) : ∀ t, escapeHTML s = escapeHTML t → s = t.
Proof.
  induction s as [|a s IH]; intros [|b t]; rewrite ?escapeHTML_cons.
  - done.
  - intros Heq. symmetry in Heq. by apply entity_nonempty in Heq.
  - intros Heq. by apply entity_nonempty in Heq.
  - intros [-> Hrest]%entity_append_inj. by rewrite (IH t Hrest).
Qed.

(** X21. [escapeHTML] loses nothing: two different texts have different
    escaped texts, so a field that holds the text of an entity is not
    shown as the character of that entity. *)
Theorem escapeHTML_keeps_texts_apart (s t : string) :
  s ≠ t → escapeHTML s ≠ escapeHTML t.
Proof. intros Hne Heq. by apply Hne, escapeHTML_inj. Qed.

Lemma escapeHTML_keeps_texts_apart_witness : escapeHTML "a<b" ≠ escapeHTML "a&lt;b".
Proof. apply (escapeHTML_keeps_texts_apart "a<b" "a&lt;b"). discriminate. Defined.

(** ** The names of the files *)

Lemma canonicalize_lower (c letter : ascii) :
  letter ∈ ["C"; "S"; "V"; "T"; "X"]%char →
  canonicalize c = letter ↔ asciiLower c = asciiLower letter.
Proof.
  intros Hletter.
  assert (∀ n, n < 256 → canonicalize (ascii_of_nat n) = letter
                         ↔ asciiLower (ascii_of_nat n) = asciiLower letter) as Hall.
  { repeat (apply elem_of_cons in Hletter as [-> |Hletter]);
      [..|by apply elem_of_nil in Hletter];
      intros n Hn; do 256 (destruct n as [|n]; [by vm_compute|]); lia. }
  rewrite <- (ascii_nat_embedding c). apply Hall, nat_ascii_bounded.
Qed.

Lemma three_letters (a b c x y z : ascii) :
  x ∈ ["C"; "S"; "V"; "T"; "X"]%char → y ∈ ["C"; "S"; "V"; "T"; "X"]%char →
  z ∈ ["C"; "S"; "V"; "T"; "X"]%char →
  map canonicalize [a; b; c] = [x; y; z]
  ↔ lowerCase (String a (String b (String c EmptyString)))
    = String (asciiLower x) (String (asciiLower y) (String (asciiLower z) EmptyString)).
Proof.
  intros Hx Hy Hz. simpl. split.
  - intros [= Ha Hb Hc].
    apply (canonicalize_lower a x Hx) in Ha. apply (canonicalize_lower b y Hy) in Hb.
    apply (canonicalize_lower c z Hz) in Hc. by rewrite Ha, Hb, Hc.
  - intros [= Ha Hb Hc].
    apply (canonicalize_lower a x Hx) in Ha. apply (canonicalize_lower b y Hy) in Hb.
    apply (canonicalize_lower c z Hz) in Hc. by rewrite Ha, Hb, Hc.
Qed.

Lemma extensionMatch_spec (s : string) :
  extensionMatch s = true
  ↔ ∃ ext, s = String "." ext ∧ (lowerCase ext = "csv" ∨ lowerCase ext = "txt").
Proof.
  assert (∀ x : ascii, x ∈ ["C"; "S"; "V"; "T"; "X"]%char
                       ↔ x = "C"%char ∨ x = "S"%char ∨ x = "V"%char ∨ x = "T"%char
                         ∨ x = "X"%char) as Hin.
  { intros x. rewrite !elem_of_cons, elem_of_nil. tauto. }
  pose proof (λ a b c, three_letters a b c "C" "S" "V"
                ltac:(rewrite Hin; tauto) ltac:(rewrite Hin; tauto) ltac:(rewrite Hin; tauto))
    as Hcsv.
  pose proof (λ a b c, three_letters a b c "T" "X" "T"
                ltac:(rewrite Hin; tauto) ltac:(rewrite Hin; tauto) ltac:(rewrite Hin; tauto))
    as Htxt.
  change (String (asciiLower "C") _) with "csv" in Hcsv.
  change (String (asciiLower "T") _) with "txt" in Htxt.
  split.
  - destruct s as [|dot [|a [|b [|c [|d rest]]]]]; try done.
    unfold extensionMatch. rewrite andb_true_iff, orb_true_iff, !bool_decide_eq_true.
    intros [-> Hext]. eexists. split; [done|]. rewrite <- Hcsv, <- Htxt. done.
  - intros (ext & -> & Hext).
    destruct ext as [|a [|b [|c [|d rest]]]]; try (by destruct Hext).
    unfold extensionMatch. rewrite andb_true_iff, orb_true_iff, !bool_decide_eq_true.
    split; [done|]. by rewrite Hcsv, Htxt.
Qed.

Lemma acceptedName_spec (name : string) :
  acceptedName name = true
  ↔ ∃ stem ext, name = stem +:+ String "." ext
      ∧ (lowerCase ext = "csv" ∨ lowerCase ext = "txt").
Proof.
  induction name as [|c name IH].
  - simpl. split; [done|]. intros (stem & ext & Heq & _). by destruct stem.
  - change (acceptedName (String c name))
      with (extensionMatch (String c name) || acceptedName name).
    rewrite orb_true_iff, extensionMatch_spec, IH. split.
    + intros [(ext & Heq & Hext)|(stem & ext & Heq & Hext)].
      * by exists EmptyString, ext.
      * exists (String c stem), ext. simpl. by rewrite Heq.
    + intros (stem & ext & Heq & Hext). destruct stem as [|d stem]; simpl in Heq.
      * left. by exists ext.
      * right. injection Heq as -> ->. by exists stem, ext.
Qed.

(** X22. [handleFiles] starts to read a file exactly when it is given one
    file and the name of that file ends with a dot followed by csv or
    txt, in any mix of upper and lower case; the file becomes the current
    one.  One file of another name becomes the current one as well and
    gives the alert on CSV files; more than one file gives the alert on
    one file at a time and leaves the current file as it was; no file
    makes the current file undefined and reading its name throws. *)
Theorem handleFiles_reads_one_text_file (files : list string) (currentFile : option string) :
  (∀ file, (handleFiles files currentFile).2 = ReadAsText file
           ↔ files = [file] ∧ textFileName file)
  ∧ match files with
    | [] => handleFiles files currentFile = (None, TypeErrorNoFile)
    | [file] =>
        (textFileName file
         ∧ handleFiles files currentFile = (Some file, ReadAsText file))
        ∨ (¬ textFileName file
           ∧ handleFiles files currentFile = (Some file, AlertNotCSV))
    | _ :: _ :: _ => handleFiles files currentFile = (currentFile, AlertOneFile)
    end.
Proof.
  unfold textFileName. split.
  - intros file. rewrite <- acceptedName_spec. unfold handleFiles.
    destruct files as [|first [|second files]]; simpl.
    + split; [done | by intros [? _]].
    + destruct (acceptedName first) eqn:Hfirst; simpl.
      * split; [by intros [= ->] | by intros [[= ->] _]].
      * split; [done|]. intros [[= ->] Hfile]. congruence.
    + split; [done | by intros [? _]].
  - destruct files as [|file [|second files]]; [done| |done].
    unfold handleFiles. simpl.
    destruct (acceptedName file) eqn:Hfile.
    + left. split; [|done]. by apply acceptedName_spec.
    + right. split; [|done]. rewrite <- acceptedName_spec. congruence.
Qed.

Lemma allWordChars_dot (s t : string) : allWordChars (s +:+ String "." t) = false.
Proof.
  induction s as [|c s IH]; simpl; [done|]. rewrite IH. apply andb_false_r.
Qed.

Lemma extensionAtEnd_inner (c : ascii) (s t : string) :
  extensionAtEnd (String c (s +:+ String "." t)) = false.
Proof.
  destruct s as [|d s]; simpl.
  - by rewrite andb_false_r.
  - rewrite allWordChars_dot. apply andb_false_r.
Qed.

(** X23. For a name that ends with a dot and one or more letters, digits
    or underscores, the name of the download is the name with that last
    extension replaced by _cleaned.csv; what stands before the last dot,
    other dots included, is kept. *)
Theorem downloadName_replaces_extension (stem ext : string) :
  ext ≠ EmptyString → allWordChars ext = true →
  downloadName (stem +:+ String "." ext) = stem +:+ "_cleaned.csv".
Proof.
  intros Hne Hword. induction stem as [|c stem IH].
  - destruct ext as [|d ext]; [done|]. simpl in Hword |- *.
    by rewrite Hword.
  - change (downloadName (String c stem +:+ String "." ext))
      with (if extensionAtEnd (String c (stem +:+ String "." ext)) then "_cleaned.csv"
            else String c (downloadName (stem +:+ String "." ext))).
    by rewrite extensionAtEnd_inner, IH.
Qed.

Lemma downloadName_replaces_extension_witness :
  downloadName "sales.2024.CSV" = "sales.2024_cleaned.csv".
Proof. apply (downloadName_replaces_extension "sales.2024" "CSV"); done. Defined.

Lemma extensionAtEnd_dot (s : string) : extensionAtEnd s = true → includes "." s = true.
Proof.
  destruct s as [|dot [|c s]]; try done. simpl.
  intros [[Hdot _]%andb_true_iff _]%andb_true_iff.
  apply bool_decide_eq_true in Hdot as ->. done.
Qed.

(** X24. For a name without any dot the name of the download is the name
    followed by _cleaned.csv. *)
Theorem downloadName_appends_without_extension (name : string) :
  includes "." name = false → downloadName name = name +:+ "_cleaned.csv".
Proof.
  induction name as [|c name IH]; [done|]. intros Hdot.
  change (downloadName (String c name))
    with (if extensionAtEnd (String c name) then "_cleaned.csv"
          else String c (downloadName name)).
  destruct (extensionAtEnd (String c name)) eqn:Hext.
  - apply extensionAtEnd_dot in Hext. congruence.
  - simpl in Hdot. case_decide; [done|]. by rewrite IH.
Qed.

Lemma downloadName_appends_without_extension_witness :
  downloadName "README" = "README_cleaned.csv".
Proof. apply (downloadName_appends_without_extension "README"). reflexivity. Defined.

Lemma downloadName_suffix (name : string) :
  ∃ stem, downloadName name = stem +:+ "_cleaned.csv".
Proof.
  induction name as [|c name [stem IH]]; [by exists EmptyString|].
  change (downloadName (String c name))
    with (if extensionAtEnd (String c name) then "_cleaned.csv"
          else String c (downloadName name)).
  destruct (extensionAtEnd _); [by exists EmptyString|].
  exists (String c stem). by rewrite IH.
Qed.

(** X25. Whatever the name of the loaded file, the name [prepareDownload]
    gives to the download passes the check of [handleFiles]: the cleaned
    file, given alone, is read again. *)
Theorem download_can_be_loaded_again (name : string) (currentFile : option string) :
  handleFiles [downloadName name] currentFile
  = (Some (downloadName name), ReadAsText (downloadName name)).
Proof.
  unfold handleFiles. simpl.
  assert (acceptedName (downloadName name) = true) as ->; [|done].
  apply acceptedName_spec. destruct (downloadName_suffix name) as [stem ->].
  exists (stem +:+ "_cleaned"), "csv". split; [|by left].
  rewrite append_assoc. done.
Qed.

(** ** The tables shown *)

Lemma closed_append a b found found' :
  closed a found → closed b found' → closed (a +:+ b) (found ++ found').
Proof. intros Ha Hb rest. by rewrite append_assoc, Ha, Hb, app_assoc. Qed.

Lemma closed_snoc start found piece found' tail :
  closed start found → closed piece found' → found ++ found' = tail →
  closed (start +:+ piece) tail.
Proof. intros Hs Hp <-. by apply closed_append. Qed.

Lemma closed_text (text : string) : includes "<" text = false → closed text [].
Proof.
  intros Htext rest. induction text as [|c text IH]; simpl; [done|].
  simpl in Htext. case_decide; [done|]. rewrite bool_decide_eq_false_2 by done. by apply IH.
Qed.

Lemma closed_escaped (text : string) : closed (escapeHTML text) [].
Proof. apply closed_text, escapeHTML_without. apply list_elem_of_here. Qed.

Lemma closed_tags piece found : closed piece found → tags piece = found.
Proof.
  intros Hclosed. unfold tags. rewrite <- (append_nil_r piece), Hclosed. simpl.
  apply app_nil_r.
Qed.

Lemma closed_element (open text close : string) (o c : string) :
  closed open [o] → closed close [c] →
  closed (open +:+ escapeHTML text +:+ close) [o; c].
Proof.
  intros Ho Hc. apply (closed_append _ _ [o] [c]); [done|].
  apply (closed_append _ _ [] [c]); [apply closed_escaped | done].
Qed.

Lemma headerCells_closed (headers : list string) : ∀ start found,
  closed start found →
  closed (headerCells headers start)
    (found ++ concat (replicate (length headers) ["th"; "/th"])).
Proof.
  induction headers as [|header headers IH]; intros start found Hstart; simpl.
  - by rewrite app_nil_r.
  - replace (found ++ "th" :: "/th" :: concat (replicate (length headers) ["th"; "/th"]))
      with ((found ++ ["th"; "/th"]) ++ concat (replicate (length headers) ["th"; "/th"]))
      by (by rewrite <- app_assoc).
    apply IH. apply closed_append; [done|].
    by apply (closed_element "<th>" header "</th>" "th" "/th").
Qed.

Lemma resultCells_closed (row : list value) : ∀ start found,
  Forall (λ cell, cell ≠ VUndefined) row → closed start found →
  ∃ html, resultCells row start = Some html
    ∧ closed html (found ++ concat (replicate (length row) ["td"; "/td"])).
Proof.
  induction row as [|cell row IH]; intros start found Hrow Hstart; simpl.
  - exists start. by rewrite app_nil_r.
  - apply Forall_cons in Hrow as [Hcell Hrow].
    replace (found ++ "td" :: "/td" :: concat (replicate (length row) ["td"; "/td"]))
      with ((found ++ ["td"; "/td"]) ++ concat (replicate (length row) ["td"; "/td"]))
      by (by rewrite <- app_assoc).
    destruct cell as [|s|x]; [done|..]; simpl; apply IH; try done;
      (apply closed_append; [done|]).
    + by apply (closed_element "<td>" s "</td>" "td" "/td").
    + by apply (closed_element "<td>" (numberToString x) "</td>" "td" "/td").
Qed.

Lemma resultRows_closed (displayRows : list (list value)) : ∀ start found,
  Forall (Forall (λ cell, cell ≠ VUndefined)) displayRows → closed start found →
  ∃ html, resultRows displayRows start = Some html
    ∧ closed html (found ++ concat (map rowTags (map length displayRows))).
Proof.
  induction displayRows as [|row displayRows IH]; intros start found Hrows Hstart.
  - exists start. simpl. by rewrite app_nil_r.
  - apply Forall_cons in Hrows as [Hrow Hrows].
    destruct (resultCells_closed row (start +:+ "<tr>") (found ++ ["tr"]) Hrow)
      as (html & Hcells & Hhtml).
    { apply closed_append; [done | by intros rest]. }
    destruct (IH (html +:+ "</tr>") (found ++ rowTags (length row)) Hrows)
      as (html' & Hrest & Hhtml').
    { apply (closed_snoc html _ "</tr>" ["/tr"] _ Hhtml); [by intros rest|].
      unfold rowTags. by rewrite <- !app_assoc. }
    exists html'. split.
    + cbn [resultRows]. by rewrite Hcells.
    + rewrite !map_cons, concat_cons, app_assoc. exact Hhtml'.
Qed.

Lemma displayResults_closed (cleanedDataset : Dataset value) :
  Forall (Forall (λ cell, cell ≠ VUndefined)) (rows cleanedDataset) →
  ∃ html, displayResults cleanedDataset = Some html
    ∧ tags html = tableTags (length (headers cleanedDataset))
                    (map length (take 10 (rows cleanedDataset))).
Proof.
  intros Hrows. unfold displayResults.
  destruct (resultRows_closed (take 10 (rows cleanedDataset))
              (headerCells (headers cleanedDataset) "<table><thead><tr>"
               +:+ "</tr></thead><tbody>")
              (["table"; "thead"; "tr"]
               ++ concat (replicate (length (headers cleanedDataset)) ["th"; "/th"])
               ++ ["/tr"; "/thead"; "tbody"])) as (html & -> & Hhtml).
  { by apply Forall_take. }
  { apply (closed_snoc _
             (["table"; "thead"; "tr"]
              ++ concat (replicate (length (headers cleanedDataset)) ["th"; "/th"]))
             "</tr></thead><tbody>" ["/tr"; "/thead"; "tbody"]).
    - by apply (headerCells_closed _ _ ["table"; "thead"; "tr"]).
    - by intros rest.
    - by rewrite <- !app_assoc. }
  eexists. split; [done|]. apply closed_tags. unfold tableTags.
  apply (closed_snoc html _ "</tbody></table>" ["/tbody"; "/table"] _ Hhtml);
    [by intros rest|].
  by rewrite <- !app_assoc.
Qed.

(** X26. For the dataset [processData] returns, whatever the input and
    the method, [displayResults] builds its table without a TypeError, and
    the tags of the table are those of its shape alone: one th per header,
    one tr per row among the first ten, one td per cell.  No text of a
    header or of a cell opens a tag. *)
Theorem results_table_markup_is_fixed (dataset : Dataset string) (method : string)
    (knnNeighbors : Z) :
  let cleaned := processData dataset method knnNeighbors in
  ∃ html, displayResults cleaned = Some html
    ∧ tags html = tableTags (length (headers dataset)) (map length (take 10 (rows cleaned))).
Proof.
  intros cleaned.
  destruct (displayResults_closed cleaned (cleaned_rows_defined _ _ _)) as (html & Hrun & Htags).
  exists html. split; [done|]. rewrite Htags. f_equal.
  subst cleaned. unfold processData. by destruct (bool_decide _).
Qed.

Lemma previewCell_closed (cell : string) start found :
  closed start found → closed (previewCell start cell) (found ++ previewCellTags cell).
Proof.
  intros Hstart. unfold previewCell, previewCellTags.
  apply closed_append; [done|]. case_bool_decide.
  - by intros rest.
  - by apply (closed_element "<td>" cell "</td>" "td" "/td").
Qed.

Lemma previewCells_closed (row : list string) : ∀ start found,
  closed start found →
  closed (fold_left previewCell row start) (found ++ concat (map previewCellTags row)).
Proof.
  induction row as [|cell row IH]; intros start found Hstart.
  - simpl. by rewrite app_nil_r.
  - rewrite map_cons, concat_cons, app_assoc. cbn [fold_left].
    by apply IH, previewCell_closed.
Qed.

Lemma previewRows_closed (displayRows : list (list string)) : ∀ start found,
  closed start found →
  closed
    (fold_left
       (λ tableHTML row, fold_left previewCell row (tableHTML +:+ "<tr>") +:+ "</tr>")
       displayRows start)
    (found ++ concat (map previewRowTags displayRows)).
Proof.
  induction displayRows as [|row displayRows IH]; intros start found Hstart.
  - simpl. by rewrite app_nil_r.
  - rewrite map_cons, concat_cons, app_assoc. cbn [fold_left]. apply IH.
    apply (closed_snoc _ (found ++ ["tr"] ++ concat (map previewCellTags row))
             "</tr>" ["/tr"]).
    + rewrite app_assoc. apply previewCells_closed.
      apply closed_append; [done | by intros rest].
    + by intros rest.
    + unfold previewRowTags. by rewrite <- !app_assoc.
Qed.

(** X27. The tags of the table [displayPreview] builds are those of the
    shape of the first five rows: one th per header, one td per field, and
    the marked cell with its span for exactly the fields that are the
    empty string.  A field that holds markup, or the text NaN, is shown
    as text. *)
Theorem preview_marks_the_empty_fields (dataset : Dataset string) :
  tags (displayPreview dataset)
  = previewTags (length (headers dataset)) (take 5 (rows dataset)).
Proof.
  apply closed_tags. unfold displayPreview, previewTags.
  apply (closed_snoc _
           (["table"; "thead"; "tr"]
            ++ concat (replicate (length (headers dataset)) ["th"; "/th"])
            ++ ["/tr"; "/thead"; "tbody"]
            ++ concat (map previewRowTags (take 5 (rows dataset))))
           "</tbody></table>" ["/tbody"; "/table"]).
  - rewrite !app_assoc. apply previewRows_closed. rewrite <- !app_assoc.
    apply (closed_snoc _
             (["table"; "thead"; "tr"]
              ++ concat (replicate (length (headers dataset)) ["th"; "/th"]))
             "</tr></thead><tbody>" ["/tr"; "/thead"; "tbody"]).
    + by apply (headerCells_closed _ _ ["table"; "thead"; "tr"]).
    + by intros rest.
    + by rewrite <- !app_assoc.
  - by intros rest.
  - by rewrite <- !app_assoc.
Qed.
